(** * pdfmake layout builder: a shallow embedding of [src/layoutBuilder.js]

    The development follows the source file method by method:
    - [JS]          the fragment of JavaScript values and failures the methods rely on;
    - [Dispatcher]  [processNode] and its kind dispatch;
    - [LinePacker]  [buildNextLine] and [processLeaf];
    - [RowColumn]   [processRow] with [storePageBreakData], [colLeftOffset], [getEndingCell];
    - [Watermark]   the font-size search of [getSize];
    - [PageBreak]   [addPageBreaksIfNecessary] and the loop of [layoutDocument].

    Collaborators that live in other files of the repository (the page writer, the
    document context, [Line], [TextTools], the tracker) are section variables. *)

From Stdlib Require Import ZArith QArith Qround String Ascii List Lia Bool.
From Stdlib Require Import DecimalString Qabs Lqa.
From stdpp Require Import base option list strings gmap.

Local Open Scope string_scope.
Local Open Scope list_scope.
Local Open Scope Z_scope.

(* ===================================================================== *)
(** ** JavaScript values and failures *)
(* ===================================================================== *)

Module JS.

(** The values a document-definition property can hold. Numbers that occur in
    the properties inspected here (spans, indexes, coordinates) are integers. *)
#[warnings="-register-all"]
Inductive jsval : Type :=
| JUndefined
| JNull
| JBool (b : bool)
| JNum (z : Z)
| JStr (s : string)
| JArr (items : list jsval)
| JObj (fields : list (string * jsval)).

(** [if (v)], [v || d], [!v]. Arrays and objects are truthy even when empty. *)
Definition truthy (v : jsval) : bool :=
  match v with
  | JUndefined | JNull => false
  | JBool b => b
  | JNum z => negb (z =? 0)
  | JStr s => negb (String.eqb s "")
  | JArr _ | JObj _ => true
  end.

Definition js_or (v d : jsval) : jsval := if truthy v then v else d.

(** [v !== undefined] *)
Definition is_defined (v : jsval) : bool :=
  match v with JUndefined => false | _ => true end.

Fixpoint assoc (k : string) (fs : list (string * jsval)) : jsval :=
  match fs with
  | [] => JUndefined
  | (k', v) :: fs' => if String.eqb k k' then v else assoc k fs'
  end.

(** [v.k] on a value that is neither [undefined] nor [null]. *)
Definition js_get (v : jsval) (k : string) : jsval :=
  match v with JObj fs => assoc k fs | _ => JUndefined end.

(** [v[i]] on an array. *)
Definition js_index (v : jsval) (i : nat) : jsval :=
  match v with JArr l => nth i l JUndefined | _ => JUndefined end.

(** What a call can end with other than a value: a [throw] of the source
    itself, or the engine's TypeError on a property access through
    [null]/[undefined]. *)
Inductive failure : Type :=
| Thrown (message : string)
| TypeError (access : string).

Inductive result (A : Type) : Type :=
| Ok (a : A)
| Err (e : failure).
Arguments Ok {A} a.
Arguments Err {A} e.

#[global] Instance result_ret : MRet result := fun A a => Ok a.
#[global] Instance result_bind : MBind result := fun A B k r =>
  match r with Ok a => k a | Err e => Err e end.

Definition is_ok {A} (r : result A) : bool :=
  match r with Ok _ => true | Err _ => false end.

End JS.

Import JS.


(* ===================================================================== *)
(** ** processNode: the traversal dispatcher *)
(* ===================================================================== *)

Module Dispatcher.

(** The properties of a node that [processNode] reads. *)
Record docNode : Type := {
  stack : jsval; columns : jsval; ul : jsval; ol : jsval; table : jsval;
  text : jsval; toc : jsval; image : jsval; canvas : jsval; qr : jsval;
  _span : jsval;
  unbreakable : jsval; absolutePosition : jsval; relativePosition : jsval;
  _margin : jsval; pageBreak : jsval; pageOrientation : jsval
}.

(** The [process*] method an [if]/[else if] arm calls. *)
Inductive kind : Type :=
| KStack | KColumns | KUl | KOl | KTable | KText | KToc | KImage | KCanvas | KQr.

Definition unrecognized : string := "Unrecognized document structure: ".

(** The collaborators of [processNode]: the page writer with its document
    context (state [W], which also holds the flat node list and the nodes'
    positions), the [process*] methods, and [stringifyNode]. *)
Class Collaborators (W : Type) : Type := {
  stringifyNode : docNode -> string;
  (** [processVerticalContainer], [processColumns], [processList false/true],
      [processTable], [processLeaf], [processToc], [processImage],
      [processCanvas], [processQr]. *)
  handler : kind -> docNode -> W -> result W;
  beginUnbreakableBlock : W -> W;
  commitUnbreakableBlock : W -> W;
  beginDetachedBlock : W -> W;
  endDetachedBlock : W -> W;
  (** [context().moveTo(x, y)]; for a relative position the writer adds the
      cursor's own coordinates to the two arguments. *)
  moveToAbsolute : jsval -> jsval -> W -> W;
  moveToRelative : jsval -> jsval -> W -> W;
  moveToNextPage : jsval -> W -> W;
  moveDown : jsval -> W -> W;
  (** [addMargin(l, r)] and, with the flag set, [addMargin(-l, -r)]. *)
  addMargin : bool -> jsval -> jsval -> W -> W;
  (** [linearNodeList.push(node); decorateNode(node)] *)
  pushAndDecorate : docNode -> W -> W
}.

Section WithWriter.
Context {W : Type} `{Collaborators W}.

(** The chain [if (node.stack) ... else if (!node._span) throw ...]:
    [Ok (Some k)] calls the method of kind [k], [Ok None] is the span
    placeholder, for which nothing is done. *)
Definition dispatch (node : docNode) : result (option kind) :=
  if truthy (stack node) then Ok (Some KStack)
  else if truthy (columns node) then Ok (Some KColumns)
  else if truthy (ul node) then Ok (Some KUl)
  else if truthy (ol node) then Ok (Some KOl)
  else if truthy (table node) then Ok (Some KTable)
  else if is_defined (text node) then Ok (Some KText)
  else if truthy (toc node) then Ok (Some KToc)
  else if truthy (image node) then Ok (Some KImage)
  else if truthy (canvas node) then Ok (Some KCanvas)
  else if truthy (qr node) then Ok (Some KQr)
  else if negb (truthy (_span node)) then
    Err (Thrown (unrecognized ++ stringifyNode node)%string)
  else Ok None.

Definition when (c : bool) (f : W -> W) (w : W) : W := if c then f w else w.

(** The callback handed to [applyMargins]. *)
Definition processNode_body (node : docNode) (w : W) : result W :=
  let unbr := truthy (unbreakable node) in
  let w := when unbr beginUnbreakableBlock w in
  let absPosition := absolutePosition node in
  let w := when (truthy absPosition)
    (fun w => moveToAbsolute (js_or (js_get absPosition "x") (JNum 0))
                             (js_or (js_get absPosition "y") (JNum 0))
                             (beginDetachedBlock w)) w in
  let relPosition := relativePosition node in
  let w := when (truthy relPosition)
    (fun w => moveToRelative (js_or (js_get relPosition "x") (JNum 0))
                             (js_or (js_get relPosition "y") (JNum 0))
                             (beginDetachedBlock w)) w in
  k ← dispatch node;
  w ← match k with Some k => handler k node w | None => Ok w end;
  let w := when (truthy absPosition || truthy relPosition) endDetachedBlock w in
  Ok (when unbr commitUnbreakableBlock w).

Definition js_streq (v : jsval) (s : string) : bool :=
  match v with JStr s' => String.eqb s' s | _ => false end.

Definition applyMargins (node : docNode) (callback : W -> result W) (w : W)
  : result W :=
  let margin := _margin node in
  let w := when (js_streq (pageBreak node) "before")
                (moveToNextPage (pageOrientation node)) w in
  let w := when (truthy margin)
    (fun w => addMargin false (js_index margin 0) (js_index margin 2)
                (moveDown (js_index margin 1) w)) w in
  w ← callback w;
  let w := when (truthy margin)
    (fun w => moveDown (js_index margin 3)
                (addMargin true (js_index margin 0) (js_index margin 2) w)) w in
  Ok (when (js_streq (pageBreak node) "after")
           (moveToNextPage (pageOrientation node)) w).

Definition processNode (node : docNode) (w : W) : result W :=
  applyMargins node (processNode_body node) (pushAndDecorate node w).

(** A node is of a recognised kind when one of the ten tests succeeds. *)
Definition matchesKind (node : docNode) : bool :=
  truthy (stack node) || truthy (columns node) || truthy (ul node)
  || truthy (ol node) || truthy (table node) || is_defined (text node)
  || truthy (toc node) || truthy (image node) || truthy (canvas node)
  || truthy (qr node).

End WithWriter.
End Dispatcher.

(* ===================================================================== *)
(** ** buildNextLine and processLeaf: the line packer *)
(* ===================================================================== *)

Module LinePacker.

(** A measured text run. Widths are rationals. *)
Record inline : Type := {
  text : string;
  width : Q;
  font : jsval; fontSize : jsval; characterSpacing : jsval; fontFeatures : jsval;
  noWrap : bool;
  noNewLine : bool;
  _tocItemRef : jsval;
  _pageRef : jsval;
  _pageNodeRef : jsval
}.

(** A [Line] object: [body] is what the [Line] class itself maintains (its
    [inlines] array and its widths), the other two are the properties the
    layout builder sets on it. *)
Record line (L : Type) : Type := {
  body : L;
  lastLineInParagraph : bool;
  line_pageNodeRef : jsval
}.
Arguments body {L} _.
Arguments lastLineInParagraph {L} _.
Arguments line_pageNodeRef {L} _.

(** The properties of a text node that the two methods use. [_inlines] is
    the pending queue, [None] when the property is absent. *)
Record textNode (P : Type) : Type := {
  _inlines : option (list inline);
  maxHeight : option Q;
  node_tocItemRef : jsval;
  node_pageRef : jsval;
  positions : list P
}.
Arguments _inlines {P} _.
Arguments maxHeight {P} _.
Arguments node_tocItemRef {P} _.
Arguments node_pageRef {P} _.
Arguments positions {P} _.

(** [Line], [TextTools] and the page writer (state [W], positions [P]). *)
Class Collaborators (L W P : Type) : Type := {
  newLine : Q -> L;
  hasEnoughSpaceForInline : L -> inline -> list inline -> bool;
  getAvailableWidth : L -> Q;
  addInline : L -> inline -> L;
  getHeight : L -> Q;
  (** [line.inlines], [None] when it is not an array *)
  inlinesOf : L -> option (list inline);
  withInlines : list inline -> L -> L;
  widthOfString : string -> jsval -> jsval -> jsval -> jsval -> Q;
  availableWidth : W -> Q;
  addLine : line L -> W -> P * W
}.

(** [s.substr(0, k)] and [s.substr(k)] for [0 <= k]. *)
Definition substr_to (k : nat) (s : string) : string := String.substring 0 k s.
Definition substr_from (k : nat) (s : string) : string :=
  String.substring k (String.length s - k) s.

Definition Qgtb (a b : Q) : bool := negb (Qle_bool a b).
Definition Qltb (a b : Q) : bool := negb (Qle_bool b a).

Section WithLine.
Context {L W P : Type} `{Collaborators L W P}.

(** [maxChars] as the source computes it: the floor of the available width
    over the width per character, raised to 1. *)
Definition maxCharsOf (run : inline) (avail : Q) : Z :=
  let widthPerChar := (width run / inject_Z (Z.of_nat (String.length (text run))))%Q in
  let maxChars := Qfloor (avail / widthPerChar)%Q in
  if maxChars <? 1 then 1 else maxChars.

(** The guard of the outer [if] of the hard-wrap block. *)
Definition oversized (ln : L) (run : inline) : bool :=
  negb (noWrap run) && (1 <? String.length (text run))%nat
  && Qgtb (width run) (getAvailableWidth ln).

Definition remeasure (run : inline) (t : string) : inline :=
  {| text := t;
     width := widthOfString t (font run) (fontSize run) (characterSpacing run)
                (fontFeatures run);
     font := font run; fontSize := fontSize run;
     characterSpacing := characterSpacing run; fontFeatures := fontFeatures run;
     noWrap := noWrap run; noNewLine := noNewLine run;
     _tocItemRef := _tocItemRef run; _pageRef := _pageRef run;
     _pageNodeRef := _pageNodeRef run |}.

(** The hard-wrap block applied to the run just shifted off the queue:
    [Some (head, tail)] when the run is split. [tail] is the clone
    ([newInline]), [head] the run itself with its text cut. *)
Definition hardWrap (ln : L) (run : inline) : option (inline * inline) :=
  if oversized ln run then
    let maxChars := maxCharsOf run (getAvailableWidth ln) in
    if maxChars <? Z.of_nat (String.length (text run)) then
      let k := Z.to_nat maxChars in
      Some (remeasure run (substr_to k (text run)),
            remeasure run (substr_from k (text run)))
    else None
  else None.

(** One turn of the [while] body, after the guard: the line, the queue and
    [isForceContinue] at the end of the turn. *)
Definition packStep (ln : L) (run : inline) (rest : list inline)
  : L * list inline * bool :=
  match hardWrap ln run with
  | Some (head, tail) => (addInline ln head, tail :: rest, false)
  | None => (addInline ln run, rest, noNewLine run)
  end.

(** The [while] loop; [None] when [fuel] turns do not reach its end. *)
Fixpoint packLoop (fuel : nat) (ln : L) (queue : list inline)
  (isForceContinue : bool) : option (L * list inline) :=
  match queue with
  | [] => Some (ln, queue)
  | run :: rest =>
    if hasEnoughSpaceForInline ln run rest || isForceContinue then
      match fuel with
      | O => None
      | S fuel' =>
        let '(ln', queue', force) := packStep ln run rest in
        packLoop fuel' ln' queue' force
      end
    else Some (ln, queue)
  end.

(** Every turn removes a run from the queue or at least one character from
    its first run. *)
Definition queueWeight (queue : list inline) : nat :=
  list_sum (map (fun run => S (String.length (text run))) queue).

Definition isEmptyQueue (q : option (list inline)) : bool :=
  match q with None | Some [] => true | Some (_ :: _) => false end.

(** [buildNextLine(textNode)] with [avail] the context's available width:
    the returned line ([None] for [null]) and the node with its queue
    updated. The loop is given [queueWeight] turns; the outer [option] is
    [None] if they do not suffice. *)
Definition buildNextLine (avail : Q) (node : textNode P)
  : option (option (line L) * textNode P) :=
  match _inlines node with
  | None | Some [] => Some (None, node)
  | Some queue =>
    match packLoop (queueWeight queue) (newLine avail) queue false with
    | None => None
    | Some (ln, queue') =>
      Some (Some {| body := ln;
                    lastLineInParagraph := (length queue' =? 0)%nat;
                    line_pageNodeRef := JUndefined |},
            {| _inlines := Some queue'; maxHeight := maxHeight node;
               node_tocItemRef := node_tocItemRef node;
               node_pageRef := node_pageRef node;
               positions := positions node |})
    end
  end.

Definition setPageNodeRef (v : jsval) (ln : line L) : line L :=
  {| body := body ln; lastLineInParagraph := lastLineInParagraph ln;
     line_pageNodeRef := v |}.

(** [line._pageNodeRef = v], a TypeError when [line] is [null]. *)
Definition assignPageNodeRef (v : jsval) (ln : option (line L))
  : result (option (line L)) :=
  match ln with
  | Some l => Ok (Some (setPageNodeRef v l))
  | None => Err (TypeError "line._pageNodeRef")
  end.

Definition markInline (run : inline) : inline :=
  let ref1 := if truthy (_tocItemRef run) then _tocItemRef run
              else _pageNodeRef run in
  let ref2 := if truthy (_pageRef run) then js_get (_pageRef run) "_nodeRef"
              else ref1 in
  {| text := text run; width := width run;
     font := font run; fontSize := fontSize run;
     characterSpacing := characterSpacing run; fontFeatures := fontFeatures run;
     noWrap := noWrap run; noNewLine := noNewLine run;
     _tocItemRef := _tocItemRef run; _pageRef := _pageRef run;
     _pageNodeRef := ref2 |}.

(** The [for] loop over [line.inlines]. *)
Definition markInlines (ln : option (line L)) : option (line L) :=
  match ln with
  | Some l =>
    match inlinesOf (body l) with
    | Some runs =>
      Some {| body := withInlines (map markInline runs) (body l);
              lastLineInParagraph := lastLineInParagraph l;
              line_pageNodeRef := line_pageNodeRef l |}
    | None => ln
    end
  | None => None
  end.

(** [node.maxHeight || -1] *)
Definition maxHeightOf (node : textNode P) : Q :=
  match maxHeight node with
  | Some h => if Qeq_bool h 0 then (-1)%Q else h
  | None => (-1)%Q
  end.

Definition pushPosition (p : P) (node : textNode P) : textNode P :=
  {| _inlines := _inlines node; maxHeight := maxHeight node;
     node_tocItemRef := node_tocItemRef node; node_pageRef := node_pageRef node;
     positions := positions node ++ [p] |}.

(** The [while] loop of [processLeaf]; [None] when [fuel] turns do not
    reach its end. *)
Fixpoint leafLoop (fuel : nat) (maxH : Q) (ln : option (line L))
  (currentHeight : Q) (node : textNode P) (w : W) : option (textNode P * W) :=
  match ln with
  | Some l =>
    if Qeq_bool maxH (-1) || Qltb currentHeight maxH then
      match fuel with
      | O => None
      | S fuel' =>
        let '(p, w') := addLine l w in
        let node' := pushPosition p node in
        match buildNextLine (availableWidth w') node' with
        | None => None
        | Some (ln', node'') =>
          let h := match ln' with
                   | Some l' => (currentHeight + getHeight (body l'))%Q
                   | None => currentHeight
                   end in
          leafLoop fuel' maxH ln' h node'' w'
        end
      end
    else Some (node, w)
  | None => Some (node, w)
  end.

(** [processLeaf(node)]: the outer [option] is [None] when a loop runs out
    of fuel, the [result] records a TypeError. *)
Definition processLeaf (fuel : nat) (node : textNode P) (w : W)
  : option (result (textNode P * W)) :=
  match buildNextLine (availableWidth w) node with
  | None => None
  | Some (ln, node) =>
    let currentHeight := match ln with Some l => getHeight (body l) | None => 0%Q end in
    let maxH := maxHeightOf node in
    let marked : result (option (line L)) :=
      ln ← (if truthy (node_tocItemRef node)
            then assignPageNodeRef (node_tocItemRef node) ln else Ok ln);
      ln ← (if truthy (node_pageRef node)
            then assignPageNodeRef (js_get (node_pageRef node) "_nodeRef") ln
            else Ok ln);
      Ok (markInlines ln) in
    match marked with
    | Err e => Some (Err e)
    | Ok ln => option_map Ok (leafLoop fuel maxH ln currentHeight node w)
    end
  end.

End WithLine.
End LinePacker.

(* ===================================================================== *)
(** ** processRow and processColumns: the row/column processor *)
(* ===================================================================== *)

Module RowColumn.

(** A number that may be [NaN], as the sum [x + undefined] is. *)
Inductive number : Type := Num (z : Z) | NaN.

Definition num_add (a b : number) : number :=
  match a, b with Num x, Num y => Num (x + y) | _, _ => NaN end.

(** The data of a [pageChanged] event, which is also a break descriptor. *)
Record desc : Type := { prevPage : Z; prevY : Z; y : Z }.

(** A column of a columns node or a cell of a table row. [node] stands for
    everything [processNode] reads from it. *)
Record column (N : Type) : Type := {
  colSpan : option Z;
  rowSpan : option Z;
  _span : bool;
  _columnEndingContext : bool;
  _calcWidth : Z;
  node : N
}.
Arguments colSpan {N} _.
Arguments rowSpan {N} _.
Arguments _span {N} _.
Arguments _columnEndingContext {N} _.
Arguments _calcWidth {N} _.
Arguments node {N} _.

(** The third argument of [beginColumn]: [null], or the value found at
    [tableBody[row][col]] ([None] for [undefined]). *)
Inductive endingCell (N : Type) : Type :=
| NoEndingCell
| EndingAt (row col : nat) (cell : option (column N)).
Arguments NoEndingCell {N}.
Arguments EndingAt {N} row col cell.

(** The document context and [processNode] (writer state [W], positions
    [P]). [processNode] yields the positions of the column it laid out and
    the data of the [pageChanged] events emitted meanwhile, in order. *)
Class Collaborators (N W P : Type) : Type := {
  beginColumnGroup : W -> W;
  beginColumn : number -> Z -> endingCell N -> W -> W;
  markEnding : column N -> W -> W;
  completeColumnGroup : option Z -> W -> W;
  processNode : column N -> W -> result (list P * list desc * W);
  availableWidth : W -> Z;
  buildColumnWidths : list (column N) -> Z -> list (column N)
}.

(** The objects that event data and break descriptors are: a store of
    [desc] records by address. [pageBreaks] holds addresses, so that a
    descriptor pushed by [storePageBreakData] is the event's own object.
    While a row is laid out nothing but its own listener writes to these
    objects. [reported] is a history of the events seen, which the source
    does not keep. *)
Record tracker : Type := {
  heap : gmap nat desc;
  next : nat;
  pageBreaks : list nat;
  reported : list desc
}.

Definition emptyTracker : tracker :=
  {| heap := ∅; next := 0%nat; pageBreaks := []; reported := [] |}.

Definition deref (h : gmap nat desc) (l : nat) : desc :=
  default {| prevPage := 0; prevY := 0; y := 0 |} (h !! l).

(** The [for] loop of [storePageBreakData]: the first descriptor of the
    list with the event's [prevPage]. *)
Definition findDesc (h : gmap nat desc) (p : Z) (pbs : list nat) : option nat :=
  List.find (fun l => prevPage (deref h l) =? p) pbs.

(** [storePageBreakData(data)] on the list and the store. *)
Definition storePageBreakData (data : nat) (h : gmap nat desc) (pbs : list nat)
  : gmap nat desc * list nat :=
  let '(pageDesc, pbs') :=
    match findDesc h (prevPage (deref h data)) pbs with
    | Some d => (d, pbs)
    | None => (data, pbs ++ [data])
    end in
  let d1 := deref h pageDesc in
  let h1 := <[pageDesc := {| prevPage := prevPage d1;
                             prevY := Z.max (prevY d1) (prevY (deref h data));
                             y := y d1 |}]> h in
  let d2 := deref h1 pageDesc in
  let h2 := <[pageDesc := {| prevPage := prevPage d2;
                             prevY := prevY d2;
                             y := Z.min (y d2) (y (deref h1 data)) |}]> h1 in
  (h2, pbs').

(** The tracker delivers one event: the emitter's object literal becomes a
    new object, which is handed to the listener. *)
Definition emit (t : tracker) (d : desc) : tracker :=
  let l := next t in
  let '(h, pbs) := storePageBreakData l (<[l := d]> (heap t)) (pageBreaks t) in
  {| heap := h; next := S l; pageBreaks := pbs; reported := reported t ++ [d] |}.

Definition emitAll (t : tracker) (ds : list desc) : tracker := fold_left emit ds t.

(** The descriptors of the returned [pageBreaks] array. *)
Definition breaksOf (t : tracker) : list desc := map (deref (heap t)) (pageBreaks t).

Definition sumZ (l : list Z) : Z := fold_right Z.add 0 l.

(** [storePageBreakData] seen on the descriptors' values alone: the first
    descriptor with the event's [prevPage] takes the larger [prevY] and the
    smaller [y], and without one the event itself becomes a descriptor. *)
Definition merged (x d : desc) : desc :=
  {| prevPage := prevPage x;
     prevY := Z.max (prevY x) (prevY d);
     y := Z.min (y x) (y d) |}.

Fixpoint mergeBreak (d : desc) (pbs : list desc) : list desc :=
  match pbs with
  | [] => [d]
  | x :: pbs' =>
    if prevPage x =? prevPage d then merged x d :: pbs' else x :: mergeBreak d pbs'
  end.

(** The descriptors [pbs] summarise the events [events]: one descriptor
    per [prevPage] that occurs, holding the largest [prevY] and the
    smallest [y] of the events with that [prevPage]. *)
Definition summarises (events pbs : list desc) : Prop :=
  NoDup (map prevPage pbs)
  /\ (forall x, x ∈ pbs ->
        (exists e, e ∈ events /\ prevPage e = prevPage x /\ prevY e = prevY x)
        /\ (exists e, e ∈ events /\ prevPage e = prevPage x /\ y e = y x)
        /\ (forall e, e ∈ events -> prevPage e = prevPage x ->
              prevY e <= prevY x /\ y x <= y e))
  /\ (forall e, e ∈ events -> exists x, x ∈ pbs /\ prevPage x = prevPage e).

(** The addresses in use are below [next], and no descriptor is listed
    twice. *)
Definition wellFormed (t : tracker) : Prop :=
  (forall l, l ∈ pageBreaks t -> (l < next t)%nat) /\ NoDup (pageBreaks t).


(** The tracker's descriptors summarise the events it has seen. *)
Definition sound (t : tracker) : Prop :=
  wellFormed t /\ summarises (reported t) (breaksOf t).

Section WithContext.
Context {N W P : Type} `{Collaborators N W P}.

(** [colLeftOffset(i)] *)
Definition colLeftOffset (gaps : option (list Z)) (i : nat) : Z :=
  match gaps with
  | Some g => if (i <? length g)%nat then nth i g 0 else 0
  | None => 0
  end.

(** [span > 1] for a span that may be absent *)
Definition spans (span : option Z) : bool :=
  match span with Some n => negb (n =? 0) && (1 <? n) | None => false end.

(** The inner [for] loop, [n] turns of
    [width += widths[++i]._calcWidth + gaps[i]]: the index and the width at
    its end. *)
Fixpoint spanLoop (n : nat) (widths : list Z) (gaps : option (list Z))
  (i : nat) (width : number) : result (nat * number) :=
  match n with
  | O => Ok (i, width)
  | S n' =>
    let i' := S i in
    match widths !! i' with
    | None => Err (TypeError "widths[i]._calcWidth")
    | Some wi =>
      match gaps with
      | None => Err (TypeError "gaps[i]")
      | Some g =>
        let gi := match g !! i' with Some x => Num x | None => NaN end in
        spanLoop n' widths gaps i' (num_add width (num_add (Num wi) gi))
      end
    end
  end.

Definition rowSpanMessage (columnIndex : nat) : string :=
  ("Row span for column " ++ NilZero.string_of_uint (Nat.to_uint columnIndex)
   ++ " (with indexes starting from 0) exceeded row count")%string.

(** [getEndingCell(column, columnIndex)] *)
Definition getEndingCell (tableBody : option (list (list (column N))))
  (tableRow : option nat) (col : column N) (columnIndex : nat)
  : result (endingCell N) :=
  if spans (rowSpan col) then
    match tableBody with
    | None => Err (TypeError "tableBody.length")
    | Some body =>
      match tableRow with
      | None => Err (TypeError "tableBody[endingRow][columnIndex]")
      | Some r =>
        let endingRow := Z.of_nat r + default 0 (rowSpan col) - 1 in
        if Z.of_nat (length body) <=? endingRow then
          Err (Thrown (rowSpanMessage columnIndex))
        else
          match body !! Z.to_nat endingRow with
          | Some row =>
            Ok (EndingAt (Z.to_nat endingRow) columnIndex (row !! columnIndex))
          | None => Err (TypeError "tableBody[endingRow][columnIndex]")
          end
      end
    end
  else Ok NoEndingCell.

(** The width and the index after the column-span block of turn [i]. *)
Definition spanWidth (widths : list Z) (gaps : option (list Z))
  (col : column N) (i : nat) (width : Z) : result (nat * number) :=
  if spans (colSpan col)
  then spanLoop (Z.to_nat (default 0 (colSpan col) - 1)) widths gaps i (Num width)
  else Ok (i, Num width).

(** The index a turn ends its column-span block with, which it hands to
    [getEndingCell]: that of the last column the cell spans. *)
Definition lastSpanned (col : column N) (i : nat) : nat :=
  if spans (colSpan col)
  then (i + Z.to_nat (default 0 (colSpan col) - 1)%Z)%nat else i.

(** What a turn does with the column once [beginColumn] has been called. *)
Definition layColumn (col : column N) (w : W) (t : tracker) (positions : list P)
  : result (W * tracker * list P) :=
  if negb (_span col) then
    '(ps, events, w') ← processNode col w;
    Ok (w', emitAll t events, positions ++ ps)
  else if _columnEndingContext col then Ok (markEnding col w, t, positions)
  else Ok (w, t, positions).

(** The outer [for] loop from index [i] on, with the writer state, the
    tracker and the row's positions. [None] when [fuel] turns do not reach
    its end. *)
Fixpoint rowLoop (fuel : nat) (columns : list (column N)) (widths : list Z)
  (gaps : option (list Z)) (tableBody : option (list (list (column N))))
  (tableRow : option nat) (i : nat) (w : W) (t : tracker) (positions : list P)
  : option (result (W * tracker * list P)) :=
  match columns !! i with
  | None => Some (Ok (w, t, positions))
  | Some col =>
    match fuel with
    | O => None
    | S fuel' =>
      match widths !! i with
      | None => Some (Err (TypeError "widths[i]._calcWidth"))
      | Some width0 =>
        let leftOffset := colLeftOffset gaps i in
        match spanWidth widths gaps col i width0 with
        | Err e => Some (Err e)
        | Ok (i', width) =>
          match getEndingCell tableBody tableRow col i' with
          | Err e => Some (Err e)
          | Ok ending =>
            match layColumn col (beginColumn width leftOffset ending w)
                            t positions with
            | Err e => Some (Err e)
            | Ok (w', t', positions') =>
              rowLoop fuel' columns widths gaps tableBody tableRow (S i')
                      w' t' positions'
            end
          end
        end
      end
    end
  end.

(** [processRow(columns, widths, gaps, tableBody, tableRow, height)]: the
    writer state, the tracker (whose [breaksOf] is the returned
    [pageBreaks]) and the returned [positions]. *)
Definition processRow (columns : list (column N)) (widths : option (list Z))
  (gaps : option (list Z)) (tableBody : option (list (list (column N))))
  (tableRow : option nat) (height : option Z) (w : W)
  : option (result (W * tracker * list P)) :=
  let widths := match widths with
                | Some ws => ws
                | None => map _calcWidth columns
                end in
  match rowLoop (length columns) columns widths gaps tableBody tableRow 0
                (beginColumnGroup w) emptyTracker [] with
  | Some (Ok (w', t, positions)) =>
    Some (Ok (completeColumnGroup height w', t, positions))
  | other => other
  end.

(** [gapArray(gap)] of [processColumns] *)
Definition gapArray (columns : list (column N)) (gap : option Z)
  : option (list Z) :=
  match gap with
  | None => None
  | Some g => if g =? 0 then None else Some (0 :: repeat g (length columns - 1))
  end.

(** [processColumns(columnNode)] for a node with the given [columns] and
    [_gap]: the positions appended to [columnNode.positions]. *)
Definition processColumns (columns : list (column N)) (gap : option Z) (w : W)
  : option (result (W * list P)) :=
  let gaps := gapArray columns gap in
  let avail :=
    match gaps with
    | Some g => availableWidth w - (Z.of_nat (length g) - 1) * default 0 gap
    | None => availableWidth w
    end in
  let columns := buildColumnWidths columns avail in
  match processRow columns (Some (map _calcWidth columns)) gaps None None None w with
  | Some (Ok (w', _, positions)) => Some (Ok (w', positions))
  | Some (Err e) => Some (Err e)
  | None => None
  end.

End WithContext.
End RowColumn.

(* ===================================================================== *)
(** ** getSize: the watermark font-size search *)
(* ===================================================================== *)

Module Watermark.

Record size : Type := { width : Q; height : Q }.

(** [Math.sqrt] and [TextTools.sizeOfString] for the watermark's text and
    font, as a function of the [fontSize] pushed on the style stack. *)
Class Collaborators : Type := {
  sqrt : Q -> Q;
  sizeOfString : Q -> size
}.

Definition Qgtb (a b : Q) : bool := negb (Qle_bool a b).
Definition Qltb (a b : Q) : bool := negb (Qle_bool b a).

(** [2 ^ n] as a rational. *)
Definition pow2 (n : nat) : Q := inject_Z (2 ^ Z.of_nat n).

Section WithMetrics.
Context `{Collaborators}.

(** [Math.sqrt(width * width + height * height) * 0.8] *)
Definition targetWidthOf (pageWidth pageHeight : Q) : Q :=
  (sqrt (pageWidth * pageWidth + pageHeight * pageHeight) * (8 # 10))%Q.

(** The variables of the search: the bounds [a] and [b], the probe [c] and
    the last measurement ([None] before the first one). *)
Record search : Type := {
  a : Q; b : Q; c : Q; measured : option size
}.

(** One turn of the [while] body. When the measured width equals the
    target neither branch is taken and the bounds stay as they are. *)
Definition probe (targetWidth : Q) (s : search) : search :=
  let sz := sizeOfString (c s) in
  if Qgtb (width sz) targetWidth then
    {| a := a s; b := c s; c := ((a s + c s) / 2)%Q; measured := Some sz |}
  else if Qltb (width sz) targetWidth then
    {| a := c s; b := b s; c := ((c s + b s) / 2)%Q; measured := Some sz |}
  else
    {| a := a s; b := b s; c := c s; measured := Some sz |}.

(** [while (Math.abs(a - b) > 1)]; [None] when [fuel] turns do not reach
    its end. *)
Fixpoint searchLoop (fuel : nat) (targetWidth : Q) (s : search) : option search :=
  if Qgtb (Qabs (a s - b s)) 1 then
    match fuel with
    | O => None
    | S fuel' => searchLoop fuel' targetWidth (probe targetWidth s)
    end
  else Some s.

(** [getSize(pageSize, watermark, pdfDocument)]: the returned [size] and
    [fontSize]. *)
Definition getSize (fuel : nat) (pageWidth pageHeight : Q)
  : option (option size * Q) :=
  let targetWidth := targetWidthOf pageWidth pageHeight in
  let start := {| a := 0; b := 1000; c := ((0 + 1000) / 2)%Q; measured := None |} in
  match searchLoop fuel targetWidth start with
  | Some s => Some (measured s, c s)
  | None => None
  end.

End WithMetrics.
End Watermark.

(* ===================================================================== *)
(** ** layoutDocument: the page-break convergence loop *)
(* ===================================================================== *)

Module PageBreak.

Record position : Type := { pageNumber : Z; left : Z; top : Z }.

(** The six coordinates [x, y, x1, y1, x2, y2] of a canvas vector. *)
Record coords : Type := {
  vx : jsval; vy : jsval; vx1 : jsval; vy1 : jsval; vx2 : jsval; vy2 : jsval
}.

(** A canvas vector: its coordinates and those its [resetXY] closure
    captured ([None] for a vector without [resetXY]). *)
Record vector : Type := { current : coords; captured : option coords }.

(** The summary handed to the page-break predicate. *)
Record nodeInfo : Type := {
  fields : gmap string jsval;
  startPosition : option position;
  pageNumbers : list Z;
  pages : nat;
  stack : bool
}.

(** A node object. [props] are its document-definition properties, among
    them [pageBreak]; [canvas] holds the vectors when [node.canvas] is an
    array; [resetXY] is the pair [x, y] its closure captured, [None] for a
    node that has not been decorated. *)
Record node : Type := {
  props : gmap string jsval;
  positions : list position;
  pageBreakCalculated : bool;
  info : option nodeInfo;
  stackIsArray : bool;
  x : jsval;
  y : jsval;
  canvas : option (list vector);
  resetXY : option (jsval * jsval)
}.

Definition emptyNode : node :=
  {| props := ∅; positions := []; pageBreakCalculated := false; info := None;
     stackIsArray := false; x := JUndefined; y := JUndefined; canvas := None;
     resetXY := None |}.

Definition emptyInfo : nodeInfo :=
  {| fields := ∅; startPosition := None; pageNumbers := []; pages := 0%nat;
     stack := false |}.

(** The node objects, by address. *)
Abbreviation store := (gmap nat node).

Definition deref (h : store) (l : nat) : node := default emptyNode (h !! l).

Definition prop (n : node) (k : string) : jsval := default JUndefined (props n !! k).

Definition setInfo (i : nodeInfo) (n : node) : node :=
  {| props := props n; positions := positions n;
     pageBreakCalculated := pageBreakCalculated n; info := Some i;
     stackIsArray := stackIsArray n; x := x n; y := y n; canvas := canvas n;
     resetXY := resetXY n |}.

Definition setCalculated (n : node) : node :=
  {| props := props n; positions := positions n;
     pageBreakCalculated := true; info := info n;
     stackIsArray := stackIsArray n; x := x n; y := y n; canvas := canvas n;
     resetXY := resetXY n |}.

Definition setPageBreak (v : jsval) (n : node) : node :=
  {| props := <["pageBreak" := v]> (props n); positions := positions n;
     pageBreakCalculated := pageBreakCalculated n; info := info n;
     stackIsArray := stackIsArray n; x := x n; y := y n; canvas := canvas n;
     resetXY := resetXY n |}.

Definition setCoordinates (x0 y0 : jsval) (vs : option (list vector)) (n : node)
  : node :=
  {| props := props n; positions := positions n;
     pageBreakCalculated := pageBreakCalculated n; info := info n;
     stackIsArray := stackIsArray n; x := x0; y := y0; canvas := vs;
     resetXY := resetXY n |}.

(** [node.pageBreak === 'before'] *)
Definition isBefore (n : node) : bool :=
  match prop n "pageBreak" with JStr s => String.eqb s "before" | _ => false end.

Definition infoKeys : list string :=
  ["id"; "text"; "ul"; "ol"; "table"; "image"; "qr"; "canvas"; "columns";
   "headlineLevel"; "style"; "pageBreak"; "pageOrientation"; "width"; "height"].

(** The inner [forEach] over the keys: only defined properties are copied. *)
Definition copyFields (n : node) : gmap string jsval :=
  fold_left (fun acc key => if is_defined (prop n key)
                            then <[key := prop n key]> acc else acc)
            infoKeys ∅.

Fixpoint indexOf (e : Z) (array : list Z) : option nat :=
  match array with
  | [] => None
  | e' :: rest => if e' =? e then Some 0%nat else option_map S (indexOf e rest)
  end.

(** [array.filter((element, position, array) => array.indexOf(element) === position)],
    from [position] on. *)
Fixpoint firstOccurrences (array : list Z) (position : nat) (rest : list Z)
  : list Z :=
  match rest with
  | [] => []
  | e :: rest' =>
    let tail := firstOccurrences array (S position) rest' in
    match indexOf e array with
    | Some i => if (i =? position)%nat then e :: tail else tail
    | None => tail
    end
  end.

Definition pageNumbersOf (ps : list position) : list Z :=
  let array := map pageNumber ps in firstOccurrences array 0 array.

(** The [nodeInfo] built by the first [forEach]. *)
Definition infoOf (pagesLength : nat) (n : node) : nodeInfo :=
  {| fields := copyFields n;
     startPosition := head (positions n);
     pageNumbers := pageNumbersOf (positions n);
     pages := pagesLength;
     stack := stackIsArray n |}.

Definition annotate (pagesLength : nat) (h : store) (l : nat) : store :=
  <[l := setInfo (infoOf pagesLength (deref h l)) (deref h l)]> h.

(** [node.nodeInfo] of a node of the filtered list, all of which have been
    annotated when the scan reads it. *)
Definition infoAt (h : store) (l : nat) : nodeInfo := default emptyInfo (info (deref h l)).

(** [node0.nodeInfo.pageNumbers.includes(p)]; [p] is [None] when it is
    [undefined] or [NaN], which no page-number list holds. *)
Definition includesPage (h : store) (p : option Z) (l : nat) : bool :=
  match p with
  | Some p => existsb (Z.eqb p) (pageNumbers (infoAt h l))
  | None => false
  end.

(** The node at [l] has a position on page [z]. *)
Definition touchesPage (h : store) (z : Z) (l : nat) : bool :=
  existsb (fun pos => pageNumber pos =? z) (positions (deref h l)).

(** The page of the node's first position. *)
Definition firstPage (h : store) (l : nat) : option Z :=
  option_map pageNumber (head (positions (deref h l))).

(** [touchesPage] for a page that may be [undefined]. *)
Definition touches (h : store) (page : option Z) (l : nat) : bool :=
  match page with Some z => touchesPage h z l | None => false end.

(** The node at [l] has its pages listed in its summary. *)
Definition known (h : store) (l : nat) : Prop :=
  pageNumbers (infoAt h l) = pageNumbersOf (positions (deref h l)).

(** The summaries of the nodes of [nodes] list the pages of their
    positions, as they do once the first [forEach] has run. *)
Definition pagesKnown (h : store) (nodes : list nat) : Prop :=
  forall l, l ∈ nodes -> known h l.


(** The caller's predicate. It may keep a state of its own ([PS]) from one
    call to the next. Its arguments are the node's summary and those of the
    following nodes on its page, the nodes on the next page and the
    previous nodes on its page. *)
Definition predicate (PS : Type) : Type :=
  PS -> nodeInfo -> list nodeInfo -> list nodeInfo -> list nodeInfo -> bool * PS.

(** The states the predicate can be in after some calls from [s]. *)
Inductive reach {PS : Type} (fct : predicate PS) (s : PS) : PS -> Prop :=
| reach_here : reach fct s s
| reach_call s' i following next previous :
    reach fct s s' -> reach fct s (snd (fct s' i following next previous)).

(** From [s] on the predicate never returns true. *)
Definition quiet {PS : Type} (fct : predicate PS) (s : PS) : Prop :=
  forall s' i following next previous,
    reach fct s s' -> fst (fct s' i following next previous) = false.

(** From [s] on the predicate returns true at most once, whatever it is
    asked. *)
Definition atMostOnce {PS : Type} (fct : predicate PS) (s : PS) : Prop :=
  forall s' i following next previous,
    reach fct s s' -> fst (fct s' i following next previous) = true ->
    quiet fct (snd (fct s' i following next previous)).

(** What [decorateNode] gives a node: a [resetXY] of its own and one for
    each vector of its canvas. *)
Definition decorated (n : node) : Prop :=
  is_Some (resetXY n)
  /\ forall vs, canvas n = Some vs -> Forall (fun v => is_Some (captured v)) vs.

(** The node is back at the coordinates its [resetXY] captured, and so are
    its vectors. *)
Definition atCapturedCoordinates (n : node) : Prop :=
  resetXY n = Some (x n, y n)
  /\ forall vs, canvas n = Some vs ->
       Forall (fun v => captured v = Some (current v)) vs.

(** What the page-break scan leaves alone in a node. *)
Definition geometry (n : node)
  : jsval * jsval * option (list vector) * option (jsval * jsval) * list position :=
  (x n, y n, canvas n, resetXY n, positions n).

(** What one traversal returns. *)
Record attempt (Pg : Type) : Type := {
  resultPages : list Pg;
  linearNodeList : list nat
}.
Arguments resultPages {Pg} _.
Arguments linearNodeList {Pg} _.

(** [tryLayoutDocument] as a function of the node objects and of the state
    [E] of everything else it touches: the pages and the flat node list it
    returns, and the objects as the traversal leaves them. *)
Class Collaborators (Pg E : Type) : Type := {
  tryLayoutDocument : store -> E -> result (attempt Pg * store * E)
}.

(** What [layoutDocument] did, in order; the source keeps no such record. *)
Inductive event : Type :=
| Traversal
| Reset (l : nat).

Definition isTraversal (ev : event) : bool :=
  match ev with Traversal => true | Reset _ => false end.

(** The number of traversals in a history. *)
Definition traversals (lg : list event) : nat :=
  length (List.filter isTraversal lg).

Section WithPredicate.
Context {PS Pg E : Type} `{Collaborators Pg E}.

(** The three lists computed for the node at [index] of the filtered list. *)
Definition followingNodesOnPage (h : store) (nodes : list nat) (index : nat)
  (pageNumber : option Z) : list nat :=
  List.filter (includesPage h pageNumber) (drop (S index) nodes).

Definition nodesOnNextPage (h : store) (nodes : list nat) (index : nat)
  (pageNumber : option Z) : list nat :=
  List.filter (includesPage h (option_map (fun p => p + 1) pageNumber))
              (drop (S index) nodes).

Definition previousNodesOnPage (h : store) (nodes : list nat) (index : nat)
  (pageNumber : option Z) : list nat :=
  List.filter (includesPage h pageNumber) (take index nodes).

(** The callback of [linearNodeList.some] from [index] on, where [rest]
    is what remains of the filtered list [nodes]. The result tells whether
    the predicate fired. *)
Fixpoint scan (fct : predicate PS) (nodes : list nat) (index : nat)
  (rest : list nat) (h : store) (ps : PS) : bool * store * PS :=
  match rest with
  | [] => (false, h, ps)
  | l :: rest' =>
    let n := deref h l in
    if negb (isBefore n) && negb (pageBreakCalculated n) then
      let h1 := <[l := setCalculated n]> h in
      let pageNumber := head (pageNumbers (infoAt h1 l)) in
      let '(fired, ps') :=
        fct ps (infoAt h1 l)
            (map (infoAt h1) (followingNodesOnPage h1 nodes index pageNumber))
            (map (infoAt h1) (nodesOnNextPage h1 nodes index pageNumber))
            (map (infoAt h1) (previousNodesOnPage h1 nodes index pageNumber)) in
      if fired
      then (true, <[l := setPageBreak (JStr "before") (deref h1 l)]> h1, ps')
      else scan fct nodes (S index) rest' h1 ps'
    else scan fct nodes (S index) rest' h ps
  end.

(** [linearNodeList.filter(node => node.positions.length > 0)] *)
Definition withPositions (h : store) (nodes : list nat) : list nat :=
  List.filter (fun l => (0 <? length (positions (deref h l)))%nat) nodes.

(** [addPageBreaksIfNecessary(linearNodeList, pages)] *)
Definition addPageBreaksIfNecessary (fct : option (predicate PS))
  (nodes : list nat) (pagesLength : nat) (h : store) (ps : PS)
  : bool * store * PS :=
  match fct with
  | None => (false, h, ps)
  | Some fct =>
    let nodes := withPositions h nodes in
    let h := fold_left (annotate pagesLength) nodes h in
    scan fct nodes 0 nodes h ps
  end.

Definition resetVector (v : vector) : result vector :=
  match captured v with
  | Some c => Ok {| current := c; captured := captured v |}
  | None => Err (TypeError "vector.resetXY")
  end.

Fixpoint resetVectors (vs : list vector) : result (list vector) :=
  match vs with
  | [] => Ok []
  | v :: vs' => v' ← resetVector v; vs'' ← resetVectors vs'; Ok (v' :: vs'')
  end.

(** [node.resetXY()] *)
Definition callResetXY (n : node) : result node :=
  match resetXY n with
  | None => Err (TypeError "node.resetXY")
  | Some (x0, y0) =>
    match canvas n with
    | Some vs => vs' ← resetVectors vs; Ok (setCoordinates x0 y0 (Some vs') n)
    | None => Ok (setCoordinates x0 y0 None n)
    end
  end.

(** [resetXYs(result)] *)
Fixpoint resetXYs (nodes : list nat) (h : store) : result store :=
  match nodes with
  | [] => Ok h
  | l :: nodes' => n ← callResetXY (deref h l); resetXYs nodes' (<[l := n]> h)
  end.

(** Everything [layoutDocument] leaves behind, with the history [log]. *)
Record outcome : Type := {
  returned : list Pg;
  objects : store;
  predicateState : PS;
  others : E;
  log : list event
}.

(** The [while] loop, entered with the result of the last traversal;
    [None] when [fuel] turns do not reach its end. *)
Fixpoint layoutLoop (fuel : nat) (fct : option (predicate PS))
  (result0 : attempt Pg) (h : store) (ps : PS) (e : E) (lg : list event)
  : option (result outcome) :=
  match addPageBreaksIfNecessary fct (linearNodeList result0)
          (length (resultPages result0)) h ps with
  | (false, h1, ps1) =>
    Some (Ok {| returned := resultPages result0; objects := h1;
                predicateState := ps1; others := e; log := lg |})
  | (true, h1, ps1) =>
    match fuel with
    | O => None
    | S fuel' =>
      match resetXYs (linearNodeList result0) h1 with
      | Err err => Some (Err err)
      | Ok h2 =>
        match tryLayoutDocument h2 e with
        | Err err => Some (Err err)
        | Ok (result1, h3, e1) =>
          layoutLoop fuel' fct result1 h3 ps1 e1
            (lg ++ map Reset (linearNodeList result0) ++ [Traversal])
        end
      end
    end
  end.

(** [layoutDocument(...)] with [fct] as [pageBreakBeforeFct]. *)
Definition layoutDocument (fuel : nat) (fct : option (predicate PS))
  (h : store) (ps : PS) (e : E) : option (result outcome) :=
  match tryLayoutDocument h e with
  | Err err => Some (Err err)
  | Ok (result0, h1, e1) => layoutLoop fuel fct result0 h1 ps e1 [Traversal]
  end.

End WithPredicate.
End PageBreak.

(* ===================================================================== *)
(** ** The text and the runs of a line *)
(* ===================================================================== *)

Module LineRuns.
Import LinePacker.

(** The text of a sequence of runs, in order. *)
Definition queueText (runs : list inline) : string :=
  fold_right (fun run acc => (text run ++ acc)%string) "" runs.

(** The pending queue of a text node, empty when absent. *)
Definition pending {P : Type} (node : textNode P) : list inline :=
  default [] (_inlines node).

(** What is asked of the last run put on a line: it allows a line break
    after it, or nothing is left in the queue, or it is the head of a hard
    wrap whose tail is the first run left. *)
Definition endsLine {L W P : Type} `{Collaborators L W P}
  (last : inline) (queue : list inline) : Prop :=
  noNewLine last = false
  \/ queue = []
  \/ exists (ln : L) run tail rest,
       queue = tail :: rest /\ hardWrap ln run = Some (last, tail).

End LineRuns.

(* ===================================================================== *)
(** ** The font sizes the watermark search measures *)
(* ===================================================================== *)

Module WatermarkProbes.
Import Watermark.

Section WithMetrics.
Context `{Collaborators}.

(** The font sizes measured in the first [fuel] turns of the loop, in
    order. *)
Fixpoint probed (fuel : nat) (targetWidth : Q) (s : search) : list Q :=
  if Qgtb (Qabs (a s - b s)) 1 then
    match fuel with
    | O => []
    | S fuel' => c s :: probed fuel' targetWidth (probe targetWidth s)
    end
  else [].

(** The width measured for a font size. *)
Definition widthAt (fontSize : Q) : Q := width (sizeOfString fontSize).

(** The variables of the search before the first turn. *)
Definition start : search :=
  {| a := 0; b := 1000; c := (0 + 1000) / 2; measured := None |}.

(** No font size measured in the first [fuel] turns has exactly the target
    width. *)
Definition offTarget (fuel : nat) (targetWidth : Q) (s : search) : Prop :=
  Forall (fun fontSize => ~ (widthAt fontSize == targetWidth)%Q)
         (probed fuel targetWidth s).

End WithMetrics.
End WatermarkProbes.

(* ===================================================================== *)
(** ** decorateNode, and which nodes the page-break scan has dealt with *)
(* ===================================================================== *)

Module Decoration.
Import PageBreak.

(** The [resetXY] that [decorateNode] gives a vector captures its six
    coordinates. *)
Definition decorateVector (v : vector) : vector :=
  {| current := current v; captured := Some (current v) |}.

(** [decorateNode(node)]: [positions] is emptied, the vectors of an array
    canvas and the node itself get a [resetXY] that captures their
    coordinates of the moment. *)
Definition decorateNode (n : node) : node :=
  {| props := props n; positions := [];
     pageBreakCalculated := pageBreakCalculated n; info := info n;
     stackIsArray := stackIsArray n; x := x n; y := y n;
     canvas := option_map (map decorateVector) (canvas n);
     resetXY := Some (x n, y n) |}.

(** The closures of a canvas, in order. *)
Definition closures (vs : option (list vector)) : option (list (option coords)) :=
  option_map (map captured) vs.

(** The coordinates of the vectors of a canvas, in order. *)
Definition vectorCoordinates (vs : option (list vector)) : option (list coords) :=
  option_map (map current) vs.

(** The scan has dealt with the node at [l]: it is marked ['before'] or
    has been evaluated. *)
Definition evaluated (h : store) (l : nat) : bool :=
  isBefore (deref h l) || pageBreakCalculated (deref h l).

(** The nodes of [nodes] that the scan has not dealt with. *)
Definition unevaluated (h : store) (nodes : list nat) : list nat :=
  List.filter (fun l => negb (evaluated h l)) nodes.

End Decoration.

(* ===================================================================== *)
(** ** processTable *)
(* ===================================================================== *)

Module Tables.
Import RowColumn.

(** An entry of [table.heights]: ['auto'], a number, or nothing. *)
Inductive heightValue : Type := Auto | Height (z : Z) | Unset.

(** [table.heights]: a function of the row index, an array, or one value
    for every row. *)
Inductive rowHeights : Type :=
| HeightsFunction (f : nat -> heightValue)
| HeightsArray (entries : list heightValue)
| HeightsValue (v : heightValue).

(** What [processTable] reads of a table node; [widths] are the
    [_calcWidth] of [table.widths], [offsets] is [_offsets.offsets]. *)
Record tableNode (N P : Type) : Type := {
  body : list (list (column N));
  widths : list Z;
  heights : rowHeights;
  offsets : list Z;
  positions : list P
}.
Arguments body {N P} _.
Arguments widths {N P} _.
Arguments heights {N P} _.
Arguments offsets {N P} _.
Arguments positions {N P} _.

(** The [TableProcessor] of the table. *)
Class Decorator (W : Type) : Type := {
  beginTable : W -> W;
  beginRow : nat -> W -> W;
  endRow : nat -> list desc -> W -> W;
  endTable : W -> W
}.

(** The height handed to [processRow] for row [i]: ['auto'] and a missing
    entry both become [undefined]. *)
Definition rowHeight (hs : rowHeights) (i : nat) : option Z :=
  let height := match hs with
                | HeightsFunction f => f i
                | HeightsArray entries => nth i entries Unset
                | HeightsValue v => v
                end in
  match height with Height z => Some z | Auto | Unset => None end.

Section WithContext.
Context {N W P : Type} `{Collaborators N W P} `{Decorator W}.

(** The [for] loop over the rows from row [i] on, [rows] being the rows
    left. *)
Fixpoint tableRows (node : tableNode N P) (rows : list (list (column N)))
  (i : nat) (w : W) (ps : list P) : option (result (W * list P)) :=
  match rows with
  | [] => Some (Ok (w, ps))
  | row :: rows' =>
    match processRow row (Some (widths node)) (Some (offsets node))
            (Some (body node)) (Some i) (rowHeight (heights node) i)
            (beginRow i w) with
    | None => None
    | Some (Err e) => Some (Err e)
    | Some (Ok (w', t, rowPositions)) =>
      tableRows node rows' (S i) (endRow i (breaksOf t) w') (ps ++ rowPositions)
    end
  end.

(** [processTable(tableNode)]: the writer state and [tableNode.positions]. *)
Definition processTable (node : tableNode N P) (w : W)
  : option (result (W * list P)) :=
  match tableRows node (body node) 0 (beginTable w) (positions node) with
  | Some (Ok (w', ps)) => Some (Ok (endTable w', ps))
  | other => other
  end.

(** Every row span of the table ends within its body. *)
Definition rowSpansFit (node : tableNode N P) : Prop :=
  forall r row col rs,
    body node !! r = Some row -> col ∈ row ->
    rowSpan col = Some rs -> 1 < rs ->
    (r + Z.to_nat (rs - 1) < length (body node))%nat.

(** The failure is not the row-span error of [getEndingCell]. *)
Definition notRowSpanError (e : failure) : Prop :=
  forall columnIndex, e <> Thrown (rowSpanMessage columnIndex).

End WithContext.
End Tables.

(* ===================================================================== *)
(** ** processList and its marker listener *)
(* ===================================================================== *)

Module Lists.

(** A list marker: a [canvas] of vectors or the [_inlines] of a text. *)
Record marker (V R : Type) : Type := {
  canvas : option (list V);
  _inlines : option (list R);
  _minWidth : Q
}.
Arguments canvas {V R} _.
Arguments _inlines {V R} _.
Arguments _minWidth {V R} _.

(** What [processNode(item)] does, as far as the listener of [lineAdded]
    can tell: it ends, with the item's positions or a failure, or it goes
    on until a line is added, the listeners are told, and it goes on from
    the state they leave. *)
Inductive script (L W P : Type) : Type :=
| Finish (f : W -> result (list P * W))
| Emit (f : W -> L * W) (next : W -> script L W P).
Arguments Finish {L W P} f.
Arguments Emit {L W P} f next.

(** A list node: the items of [ul] and [ol], and [_gapSize.width]. *)
Record listNode (I P : Type) : Type := {
  ul : list I;
  ol : list I;
  gapWidth : Q;
  positions : list P
}.
Arguments ul {I P} _.
Arguments ol {I P} _.
Arguments gapWidth {I P} _.
Arguments positions {I P} _.

(** The context, the writer, [Line] and [offsetVector]. A vector or a run
    read at index 0 of an array is [None] when the array is empty. *)
Class Collaborators (I L V R W P : Type) : Type := {
  addMargin : Q -> W -> W;
  layout : I -> script L W P;
  listMarker : I -> option (marker V R);
  pageWidth : Q;
  newLine : Q -> L;
  addInline : L -> option R -> L;
  getAscenderHeight : L -> Q;
  offsetVector : option V -> Q -> Q -> option V;
  addVector : option V -> W -> W;
  addLine : L -> Q -> Q -> W -> W
}.

Section WithWriter.
Context {I L V R W P : Type} `{Collaborators I L V R W P}.

(** The marker makes the listener write: it has a [canvas] or
    [_inlines]. *)
Definition draws (m : option (marker V R)) : bool :=
  match m with
  | Some mk =>
    match canvas mk, _inlines mk with
    | None, None => false
    | _, _ => true
    end
  | None => false
  end.

(** [addMarkerToFirstLeaf(line)] with [nextMarker]: the new [nextMarker]
    and the writer state. The line written for a text marker is placed at
    [x = -marker._minWidth] and at the [y] that aligns its ascender with
    that of [line]. A line the listener adds is announced to it in turn,
    when [nextMarker] is [null] already. *)
Definition addMarkerToFirstLeaf (ln : L) (nextMarker : option (marker V R))
  (w : W) : option (marker V R) * W :=
  match nextMarker with
  | None => (None, w)
  | Some mk =>
    match canvas mk with
    | Some vectors =>
      (None, addVector (offsetVector (head vectors) (- _minWidth mk) 0) w)
    | None =>
      match _inlines mk with
      | Some runs =>
        let markerLine := addInline (newLine pageWidth) (head runs) in
        (None, addLine markerLine (- _minWidth mk)
                 (getAscenderHeight ln - getAscenderHeight markerLine) w)
      | None => (None, w)
      end
    end
  end.

(** [processNode(item)] while the listener is registered: the item's
    positions, [nextMarker] and the writer state at its end. [drawn]
    counts the markers the listener has written, which the source does
    not. *)
Fixpoint runItem (s : script L W P) (nextMarker : option (marker V R)) (w : W)
  (drawn : nat) : result (list P * option (marker V R) * W * nat) :=
  match s with
  | Finish f => '(ps, w') ← f w; Ok (ps, nextMarker, w', drawn)
  | Emit f next =>
    let '(ln, w1) := f w in
    let '(nextMarker', w2) := addMarkerToFirstLeaf ln nextMarker w1 in
    runItem (next w2) nextMarker' w2
            (if draws nextMarker then S drawn else drawn)
  end.

(** The same layout with no listener registered. *)
Fixpoint plain (s : script L W P) (w : W) : result (list P * W) :=
  match s with
  | Finish f => f w
  | Emit f next => let '(ln, w1) := f w in plain (next w1) w1
  end.

(** [items.forEach(...)] *)
Fixpoint listItems (items : list I) (w : W) (ps : list P) (drawn : nat)
  : result (W * list P * nat) :=
  match items with
  | [] => Ok (w, ps, drawn)
  | item :: items' =>
    '(itemPositions, _, w', drawn') ← runItem (layout item) (listMarker item) w drawn;
    listItems items' w' (ps ++ itemPositions) drawn'
  end.

(** [processList(orderedList, node)]: the writer state, [node.positions]
    and the number of markers written. *)
Definition processList (orderedList : bool) (node : listNode I P) (w : W)
  : result (W * list P * nat) :=
  let items := if orderedList then ol node else ul node in
  '(w', ps, drawn) ← listItems items (addMargin (gapWidth node) w)
                                (positions node) 0;
  Ok (addMargin (- gapWidth node) w', ps, drawn).

(** The item's layout adds at least one line. *)
Definition addsLine (s : script L W P) : bool :=
  match s with Emit _ _ => true | Finish _ => false end.

End WithWriter.
End Lists.

(* ===================================================================== *)
(** ** addWatermark *)
(* ===================================================================== *)

Module WatermarkPages.
Import Watermark.

(** The watermark as the caller gives it: a string, or an object whose
    fields may be absent. *)
Record options : Type := {
  text : option string;
  font : option string;
  color : option string;
  opacity : option Q;
  bold : option bool;
  italics : option bool
}.

Inductive watermarkInput : Type :=
| WatermarkString (s : string)
| WatermarkObject (o : options).

(** The object stored on the pages; [size] is what [getSize] returned. *)
Record watermarkObject (F : Type) : Type := {
  wText : string;
  wFont : F;
  wSize : option size * Q;
  wColor : string;
  wOpacity : Q
}.
Arguments wText {F} _.
Arguments wFont {F} _.
Arguments wSize {F} _.
Arguments wColor {F} _.
Arguments wOpacity {F} _.

Record page (F C : Type) : Type := {
  items : C;
  watermark : option (watermarkObject F)
}.
Arguments items {F C} _.
Arguments watermark {F C} _.

(** [pdfDocument]: [provideFont], and the text metrics of a text in a
    font, bold or italic. *)
Class Document (F : Type) : Type := {
  provideFont : string -> bool -> bool -> F;
  metricsOf : string -> string -> bool -> bool -> Collaborators
}.

(** [s || d] for strings, [q || d] for numbers, [b || false]. *)
Definition orString (v : option string) (d : string) : string :=
  match v with
  | Some EmptyString | None => d
  | Some s => s
  end.

Definition orNumber (v : option Q) (d : Q) : Q :=
  match v with
  | Some q => if Qeq_bool q 0 then d else q
  | None => d
  end.

Definition orFalse (v : option bool) : bool := default false v.

Section WithDocument.
Context {F C : Type} `{Document F}.

(** [if (isString(watermark)) watermark = { 'text': watermark }] *)
Definition asObject (input : watermarkInput) : options :=
  match input with
  | WatermarkString s =>
    {| text := Some s; font := None; color := None; opacity := None;
       bold := None; italics := None |}
  | WatermarkObject o => o
  end.

(** [watermark.font || defaultStyle.font || 'Roboto'] *)
Definition fontOf (o : options) (defaultFont : option string) : string :=
  orString (font o) (orString defaultFont "Roboto").

(** The watermark once the defaults are written to it. *)
Definition withDefaults (o : options) (defaultFont : option string) : options :=
  {| text := text o;
     font := Some (fontOf o defaultFont);
     color := Some (orString (color o) "black");
     opacity := Some (orNumber (opacity o) (6 # 10));
     bold := Some (orFalse (bold o));
     italics := Some (orFalse (italics o)) |}.

(** The metrics [getSize] measures with. *)
Definition metricsFor (o : options) (defaultFont : option string) : Collaborators :=
  metricsOf (orString (text o) EmptyString) (fontOf o defaultFont)
            (orFalse (bold o)) (orFalse (italics o)).

(** [pages[i].watermark = watermarkObject] for every page. *)
Definition stamp (wm : watermarkObject F) (pages : list (page F C))
  : list (page F C) :=
  map (fun p => {| items := items p; watermark := Some wm |}) pages.

(** [addWatermark(watermark, pdfDocument, defaultStyle)]: the watermark
    as the call leaves it and the pages; [None] when [fuel] turns do not
    end the search of [getSize]. *)
Definition addWatermark (fuel : nat) (input : watermarkInput)
  (defaultFont : option string) (pageWidth pageHeight : Q)
  (pages : list (page F C)) : option (options * list (page F C)) :=
  let o := asObject input in
  match orString (text o) EmptyString with
  | EmptyString => Some (o, pages)
  | String _ _ as txt =>
    match @getSize (metricsFor o defaultFont) fuel pageWidth pageHeight with
    | None => None
    | Some sz =>
      Some (withDefaults o defaultFont,
            stamp {| wText := txt;
                     wFont := provideFont (fontOf o defaultFont)
                                (orFalse (bold o)) (orFalse (italics o));
                     wSize := sz;
                     wColor := orString (color o) "black";
                     wOpacity := orNumber (opacity o) (6 # 10) |} pages)
    end
  end.

End WithDocument.
End WatermarkPages.

(* ===================================================================== *)
(** ** Headers and footers *)
(* ===================================================================== *)

Module Repeatables.

Record pageSize : Type := { width : Q; height : Q }.

Record pageMargins : Type := { left : Q; top : Q; right : Q; bottom : Q }.

(** What a size function returns. *)
Record sizes : Type := { sx : Q; sy : Q; swidth : Q; sheight : Q }.

(** The writer with its context, the copy that
    [JSON.parse(JSON.stringify(...))] makes, and the layout of a node:
    [preprocessDocument], [measureDocument] and [processNode]. *)
Class Collaborators (Nd W : Type) : Type := {
  pagesLength : W -> nat;
  setPage : nat -> W -> W;
  pageSizeAt : nat -> W -> pageSize;
  currentPageSize : W -> pageSize;
  beginUnbreakableBlock : Q -> Q -> W -> W;
  commitUnbreakableBlock : Q -> Q -> W -> W;
  copy : Nd -> Nd;
  layoutNode : Nd -> W -> result W
}.

(** A node getter: called with the page number, the page count and the
    page size, it returns a node or nothing. It may keep a state [GS]. *)
Definition getter (Nd GS : Type) : Type :=
  GS -> nat -> nat -> pageSize -> option Nd * GS.

(** A header or a footer: absent, a node, or a function. *)
Inductive repeatable (Nd GS : Type) : Type :=
| Absent
| Static (node : Nd)
| Dynamic (f : getter Nd GS).
Arguments Absent {Nd GS}.
Arguments Static {Nd GS} node.
Arguments Dynamic {Nd GS} f.

Inductive band : Type := Header | Footer.

Definition headerSizeFct (size : pageSize) (margins : pageMargins) : sizes :=
  {| sx := 0; sy := 0; swidth := width size; sheight := top margins |}.

Definition footerSizeFct (size : pageSize) (margins : pageMargins) : sizes :=
  {| sx := 0; sy := height size - bottom margins;
     swidth := width size; sheight := bottom margins |}.

Section WithWriter.
Context {Nd W GS : Type} `{Collaborators Nd W}.

(** The [for] loop of [addDynamicRepeatable] with [n] turns left, [l]
    being the page count read before the first turn. [calls] lists the
    page number and page count of each call of the getter, which the
    source does not record. *)
Fixpoint repeatLoop (n pageIndex l : nat) (nodeGetter : getter Nd GS)
  (sizeFunction : pageSize -> pageMargins -> sizes) (margins : pageMargins)
  (w : W) (gs : GS) (calls : list (nat * nat))
  : result (W * GS * list (nat * nat)) :=
  match n with
  | O => Ok (w, gs, calls)
  | S n' =>
    let w1 := setPage pageIndex w in
    let '(node, gs') := nodeGetter gs (pageIndex + 1)%nat l (pageSizeAt pageIndex w1) in
    let calls' := calls ++ [((pageIndex + 1)%nat, l)] in
    match node with
    | Some nd =>
      let sz := sizeFunction (currentPageSize w1) margins in
      w2 ← layoutNode nd (beginUnbreakableBlock (swidth sz) (sheight sz) w1);
      repeatLoop n' (S pageIndex) l nodeGetter sizeFunction margins
                 (commitUnbreakableBlock (sx sz) (sy sz) w2) gs' calls'
    | None =>
      repeatLoop n' (S pageIndex) l nodeGetter sizeFunction margins w1 gs' calls'
    end
  end.

(** [addDynamicRepeatable(nodeGetter, sizeFunction)] *)
Definition addDynamicRepeatable (nodeGetter : getter Nd GS)
  (sizeFunction : pageSize -> pageMargins -> sizes) (margins : pageMargins)
  (w : W) (gs : GS) : result (W * GS * list (nat * nat)) :=
  let l := pagesLength w in
  repeatLoop l 0 l nodeGetter sizeFunction margins w gs [].

(** [addStaticRepeatable(headerOrFooter, sizeFunction)] *)
Definition addStaticRepeatable (headerOrFooter : Nd)
  (sizeFunction : pageSize -> pageMargins -> sizes) (margins : pageMargins)
  (w : W) (gs : GS) : result (W * GS * list (nat * nat)) :=
  addDynamicRepeatable (fun gs _ _ _ => (Some (copy headerOrFooter), gs))
                       sizeFunction margins w gs.

Definition addRepeatable (r : repeatable Nd GS)
  (sizeFunction : pageSize -> pageMargins -> sizes) (margins : pageMargins)
  (w : W) (gs : GS) : result (W * GS * list (nat * nat)) :=
  match r with
  | Dynamic f => addDynamicRepeatable f sizeFunction margins w gs
  | Static node => addStaticRepeatable node sizeFunction margins w gs
  | Absent => Ok (w, gs, [])
  end.

(** [addHeadersAndFooters(header, footer)]; the calls of the getters are
    listed with the band they are for. *)
Definition addHeadersAndFooters (header footer : repeatable Nd GS)
  (margins : pageMargins) (w : W) (gs : GS)
  : result (W * GS * list (band * (nat * nat))) :=
  '(w1, gs1, headerCalls) ← addRepeatable header headerSizeFct margins w gs;
  '(w2, gs2, footerCalls) ← addRepeatable footer footerSizeFct margins w1 gs1;
  Ok (w2, gs2, map (pair Header) headerCalls ++ map (pair Footer) footerCalls).

(** The calls for the pages [1] to [l] of a document of [l] pages. *)
Definition onePerPage (l : nat) : list (nat * nat) :=
  map (fun pageNumber => (pageNumber, l)) (seq 1 l).

End WithWriter.
End Repeatables.

(* ===================================================================== *)
(** ** Sample collaborators and inputs *)
(* ===================================================================== *)

Module Samples.

(** A writer that records the calls it receives. *)
#[global] Instance traceWriter : Dispatcher.Collaborators (list string) := {|
  Dispatcher.stringifyNode := fun _ => "{}";
  Dispatcher.handler := fun _ _ w => Ok (w ++ ["process"]);
  Dispatcher.beginUnbreakableBlock := fun w => w ++ ["beginUnbreakableBlock"];
  Dispatcher.commitUnbreakableBlock := fun w => w ++ ["commitUnbreakableBlock"];
  Dispatcher.beginDetachedBlock := fun w => w ++ ["beginDetachedBlock"];
  Dispatcher.endDetachedBlock := fun w => w ++ ["endDetachedBlock"];
  Dispatcher.moveToAbsolute := fun _ _ w => w ++ ["moveTo"];
  Dispatcher.moveToRelative := fun _ _ w => w ++ ["moveTo"];
  Dispatcher.moveToNextPage := fun _ w => w ++ ["moveToNextPage"];
  Dispatcher.moveDown := fun _ w => w ++ ["moveDown"];
  Dispatcher.addMargin := fun _ _ _ w => w ++ ["addMargin"];
  Dispatcher.pushAndDecorate := fun _ w => w ++ ["push"]
|}.

(** [{}] *)
Definition bareNode : Dispatcher.docNode :=
  {| Dispatcher.stack := JUndefined; Dispatcher.columns := JUndefined;
     Dispatcher.ul := JUndefined; Dispatcher.ol := JUndefined;
     Dispatcher.table := JUndefined; Dispatcher.text := JUndefined;
     Dispatcher.toc := JUndefined; Dispatcher.image := JUndefined;
     Dispatcher.canvas := JUndefined; Dispatcher.qr := JUndefined;
     Dispatcher._span := JUndefined; Dispatcher.unbreakable := JUndefined;
     Dispatcher.absolutePosition := JUndefined;
     Dispatcher.relativePosition := JUndefined;
     Dispatcher._margin := JUndefined; Dispatcher.pageBreak := JUndefined;
     Dispatcher.pageOrientation := JUndefined |}.

(** [{ text: '' }] *)
Definition emptyTextNode : Dispatcher.docNode :=
  {| Dispatcher.stack := JUndefined; Dispatcher.columns := JUndefined;
     Dispatcher.ul := JUndefined; Dispatcher.ol := JUndefined;
     Dispatcher.table := JUndefined; Dispatcher.text := JStr "";
     Dispatcher.toc := JUndefined; Dispatcher.image := JUndefined;
     Dispatcher.canvas := JUndefined; Dispatcher.qr := JUndefined;
     Dispatcher._span := JUndefined; Dispatcher.unbreakable := JUndefined;
     Dispatcher.absolutePosition := JUndefined;
     Dispatcher.relativePosition := JUndefined;
     Dispatcher._margin := JUndefined; Dispatcher.pageBreak := JUndefined;
     Dispatcher.pageOrientation := JUndefined |}.

(** A [Line] as a width and the runs added so far; every character is 6
    wide and every line 12 high; the writer keeps the lines it was given
    and returns their index as position. *)
Definition lineWidth (runs : list LinePacker.inline) : Q :=
  fold_left (fun acc run => (acc + LinePacker.width run)%Q) runs 0%Q.

#[global] Instance plainLines
  : LinePacker.Collaborators (Q * list LinePacker.inline)
      (list (LinePacker.line (Q * list LinePacker.inline))) nat := {|
  LinePacker.newLine := fun maxWidth => (maxWidth, []);
  LinePacker.hasEnoughSpaceForInline := fun ln run _ =>
    match snd ln with
    | [] => true
    | _ => Qle_bool (lineWidth (snd ln) + LinePacker.width run)%Q (fst ln)
    end;
  LinePacker.getAvailableWidth := fun ln => (fst ln - lineWidth (snd ln))%Q;
  LinePacker.addInline := fun ln run => (fst ln, snd ln ++ [run]);
  LinePacker.getHeight := fun _ => 12%Q;
  LinePacker.inlinesOf := fun ln => Some (snd ln);
  LinePacker.withInlines := fun runs ln => (fst ln, runs);
  LinePacker.widthOfString := fun t _ _ _ _ =>
    inject_Z (6 * Z.of_nat (String.length t));
  LinePacker.availableWidth := fun _ => 30%Q;
  LinePacker.addLine := fun ln w => (length w, w ++ [ln])
|}.

Definition plainRun (t : string) : LinePacker.inline :=
  {| LinePacker.text := t;
     LinePacker.width := inject_Z (6 * Z.of_nat (String.length t));
     LinePacker.font := JStr "Roboto"; LinePacker.fontSize := JNum 12;
     LinePacker.characterSpacing := JNum 0;
     LinePacker.fontFeatures := JUndefined;
     LinePacker.noWrap := false; LinePacker.noNewLine := false;
     LinePacker._tocItemRef := JUndefined; LinePacker._pageRef := JUndefined;
     LinePacker._pageNodeRef := JUndefined |}.

(** A text node with the given queue and table-of-contents reference. *)
Definition leaf (queue : option (list LinePacker.inline)) (tocItemRef : jsval)
  : LinePacker.textNode nat :=
  {| LinePacker._inlines := queue; LinePacker.maxHeight := None;
     LinePacker.node_tocItemRef := tocItemRef;
     LinePacker.node_pageRef := JUndefined;
     LinePacker.positions := [] |}.

(** The calls a row makes on the document context. *)
Inductive call : Type :=
| BeginColumnGroup
| BeginColumn (width : RowColumn.number) (leftOffset : Z)
              (ending : RowColumn.endingCell (list RowColumn.desc))
| MarkEnding
| CompleteColumnGroup
| ProcessNode.

(** A context that records its calls. A column's [node] is the list of
    page changes its layout goes through; it produces one position. *)
#[global] Instance rowTrace
  : RowColumn.Collaborators (list RowColumn.desc) (list call) nat := {|
  RowColumn.beginColumnGroup := fun w => w ++ [BeginColumnGroup];
  RowColumn.beginColumn := fun width leftOffset ending w =>
    w ++ [BeginColumn width leftOffset ending];
  RowColumn.markEnding := fun _ w => w ++ [MarkEnding];
  RowColumn.completeColumnGroup := fun _ w => w ++ [CompleteColumnGroup];
  RowColumn.processNode := fun col w =>
    Ok ([length w], RowColumn.node col, w ++ [ProcessNode]);
  RowColumn.availableWidth := fun _ => 500;
  RowColumn.buildColumnWidths := fun columns _ => columns
|}.

Definition cell (colSpan rowSpan : option Z) (events : list RowColumn.desc)
  : RowColumn.column (list RowColumn.desc) :=
  {| RowColumn.colSpan := colSpan; RowColumn.rowSpan := rowSpan;
     RowColumn._span := false; RowColumn._columnEndingContext := false;
     RowColumn._calcWidth := 10; RowColumn.node := events |}.

Definition placeholder : RowColumn.column (list RowColumn.desc) :=
  {| RowColumn.colSpan := None; RowColumn.rowSpan := None;
     RowColumn._span := true; RowColumn._columnEndingContext := false;
     RowColumn._calcWidth := 10; RowColumn.node := [] |}.

(** A 2 x 2 table whose top-left cell spans both rows and both columns. *)
Definition spanTable : list (list (RowColumn.column (list RowColumn.desc))) :=
  [[cell (Some 2) (Some 2) []; placeholder]; [placeholder; placeholder]].

(** A 2 x 2 table whose top-left cell spans both rows. *)
Definition rowSpanTable : list (list (RowColumn.column (list RowColumn.desc))) :=
  [[cell None (Some 2) []; cell None None []]; [placeholder; cell None None []]].

(** A row of two columns: laying out the first goes from page 0 to page 1
    once, laying out the second goes from page 0 to page 1 and on to
    page 2. *)
Definition brokenRow : list (RowColumn.column (list RowColumn.desc)) :=
  [cell None None [{| RowColumn.prevPage := 0; RowColumn.prevY := 700;
                      RowColumn.y := 40 |}];
   cell None None [{| RowColumn.prevPage := 0; RowColumn.prevY := 650;
                      RowColumn.y := 30 |};
                   {| RowColumn.prevPage := 1; RowColumn.prevY := 720;
                      RowColumn.y := 35 |}]].

(** Metrics for a text whose width is 0.8 times the font size, on a page
    of 300 by 400, whose diagonal is 500. *)
#[global] Instance linearMetrics : Watermark.Collaborators := {|
  Watermark.sqrt := fun _ => 500%Q;
  Watermark.sizeOfString := fun fontSize =>
    {| Watermark.width := (fontSize * (8 # 10))%Q; Watermark.height := fontSize |}
|}.

(** A position on the given page. *)
Definition onPage (page : Z) : PageBreak.position :=
  {| PageBreak.pageNumber := page; PageBreak.left := 40; PageBreak.top := 40 |}.

(** What a traversal leaves of a node: decorated, at [(40, 40)], with the
    given positions. *)
Definition laidOut (ps : list PageBreak.position) (n : PageBreak.node)
  : PageBreak.node :=
  {| PageBreak.props := PageBreak.props n; PageBreak.positions := ps;
     PageBreak.pageBreakCalculated := PageBreak.pageBreakCalculated n;
     PageBreak.info := PageBreak.info n;
     PageBreak.stackIsArray := PageBreak.stackIsArray n;
     PageBreak.x := JNum 40; PageBreak.y := JNum 40;
     PageBreak.canvas := PageBreak.canvas n;
     PageBreak.resetXY := Some (JUndefined, JUndefined) |}.

(** A document of two text nodes, at addresses 0 and 1, on two pages: the
    first fits on page 1, the second starts on page 1 and ends on page 2,
    unless it has a page break before it, when it is on page 2 alone. *)
#[global] Instance twoNodes : PageBreak.Collaborators unit nat := {|
  PageBreak.tryLayoutDocument := fun h e =>
    let first := PageBreak.deref h 0 in
    let second := PageBreak.deref h 1 in
    Ok ({| PageBreak.resultPages := [tt; tt];
           PageBreak.linearNodeList := [0%nat; 1%nat] |},
        <[1%nat := laidOut (if PageBreak.isBefore second then [onPage 2]
                            else [onPage 1; onPage 2]) second]>
          (<[0%nat := laidOut [onPage 1] first]> h),
        S e)
|}.

(** The store after the first traversal of that document. *)
Definition afterFirstTraversal : gmap nat PageBreak.node :=
  <[1%nat := laidOut [onPage 1; onPage 2] PageBreak.emptyNode]>
    (<[0%nat := laidOut [onPage 1] PageBreak.emptyNode]> ∅).

Definition startPage (i : PageBreak.nodeInfo) : option Z :=
  option_map PageBreak.pageNumber (PageBreak.startPosition i).

(** A predicate that never asks for a break and notes, for each call, the
    page its node starts on and the pages the nodes of its third argument
    start on. *)
Definition recorder : PageBreak.predicate (list (option Z * list (option Z))) :=
  fun calls i _ next _ => (false, calls ++ [(startPage i, map startPage next)]).

(** A predicate that never asks for a break. *)
Definition never : PageBreak.predicate unit := fun s _ _ _ _ => (false, s).

(** A predicate that asks once for a break, before the first node it sees
    that is on more than one page. Its state tells whether it has asked. *)
Definition onceForSplit : PageBreak.predicate bool :=
  fun asked i _ _ _ =>
    if asked then (false, true)
    else if (1 <? length (PageBreak.pageNumbers i))%nat then (true, true)
    else (false, false).

(** A text node with the given queue and height cap. *)
Definition cappedLeaf (queue : list LinePacker.inline) (cap : Q)
  : LinePacker.textNode nat :=
  {| LinePacker._inlines := Some queue; LinePacker.maxHeight := Some cap;
     LinePacker.node_tocItemRef := JUndefined;
     LinePacker.node_pageRef := JUndefined;
     LinePacker.positions := [] |}.

(** The same text on a page whose diagonal is 501: the target width,
    400.8, is the width of no font size the search measures. *)
Definition offsetMetrics : Watermark.Collaborators := {|
  Watermark.sqrt := fun _ => 501%Q;
  Watermark.sizeOfString := fun fontSize =>
    {| Watermark.width := (fontSize * (8 # 10))%Q; Watermark.height := fontSize |}
|}.

(** A predicate that asks for a break every time. *)
Definition always : PageBreak.predicate unit := fun s _ _ _ _ => (true, s).

(** A canvas node at [(10, 20)] with one vector. *)
Definition canvasNode : PageBreak.node :=
  {| PageBreak.props := ∅; PageBreak.positions := [];
     PageBreak.pageBreakCalculated := false; PageBreak.info := None;
     PageBreak.stackIsArray := false;
     PageBreak.x := JNum 10; PageBreak.y := JNum 20;
     PageBreak.canvas :=
       Some [{| PageBreak.current :=
                  {| PageBreak.vx := JNum 1; PageBreak.vy := JNum 2;
                     PageBreak.vx1 := JNum 3; PageBreak.vy1 := JNum 4;
                     PageBreak.vx2 := JNum 5; PageBreak.vy2 := JNum 6 |};
                PageBreak.captured := None |}];
     PageBreak.resetXY := None |}.

(** The same node once laid out at [(40, 700)], its vector moved with it. *)
Definition movedCanvasNode : PageBreak.node :=
  {| PageBreak.props := ∅; PageBreak.positions := [onPage 1];
     PageBreak.pageBreakCalculated := false; PageBreak.info := None;
     PageBreak.stackIsArray := false;
     PageBreak.x := JNum 40; PageBreak.y := JNum 700;
     PageBreak.canvas :=
       Some [{| PageBreak.current :=
                  {| PageBreak.vx := JNum 41; PageBreak.vy := JNum 702;
                     PageBreak.vx1 := JNum 43; PageBreak.vy1 := JNum 704;
                     PageBreak.vx2 := JNum 45; PageBreak.vy2 := JNum 706 |};
                PageBreak.captured :=
                  Some {| PageBreak.vx := JNum 1; PageBreak.vy := JNum 2;
                          PageBreak.vx1 := JNum 3; PageBreak.vy1 := JNum 4;
                          PageBreak.vx2 := JNum 5; PageBreak.vy2 := JNum 6 |} |}];
     PageBreak.resetXY := Some (JNum 10, JNum 20) |}.

(** A table processor that draws nothing. *)
#[global] Instance bareTable : Tables.Decorator (list call) := {|
  Tables.beginTable := fun w => w;
  Tables.beginRow := fun _ w => w;
  Tables.endRow := fun _ _ w => w;
  Tables.endTable := fun w => w
|}.

(** A table node with the given body and widths, rows of automatic
    height. *)
Definition tableOf (body : list (list (RowColumn.column (list RowColumn.desc))))
  (widths : list Z) : Tables.tableNode (list RowColumn.desc) nat :=
  {| Tables.body := body; Tables.widths := widths;
     Tables.heights := Tables.HeightsValue Tables.Auto;
     Tables.offsets := [0; 0]; Tables.positions := [] |}.

(** The calls a list makes on the writer and its context. *)
Inductive listCall : Type :=
| Margin (width : Q)
| ItemLine
| MarkerVector
| MarkerLine (x y : Q).

(** The layout of an item that adds [n] lines and leaves one position. *)
Fixpoint linesOf (n : nat) : Lists.script unit (list listCall) nat :=
  match n with
  | O => Lists.Finish (fun w => Ok ([length w], w))
  | S n' => Lists.Emit (fun w => (tt, w ++ [ItemLine])) (fun _ => linesOf n')
  end.

(** A writer that records its calls. An item is the number of lines its
    layout adds; every item has a text marker 12 wide. *)
#[global] Instance listTrace
  : Lists.Collaborators nat unit unit unit (list listCall) nat := {|
  Lists.addMargin := fun width w => w ++ [Margin width];
  Lists.layout := linesOf;
  Lists.listMarker := fun _ =>
    Some {| Lists.canvas := None; Lists._inlines := Some [tt];
            Lists._minWidth := 12%Q |};
  Lists.pageWidth := 300%Q;
  Lists.newLine := fun _ => tt;
  Lists.addInline := fun ln _ => ln;
  Lists.getAscenderHeight := fun _ => 10%Q;
  Lists.offsetVector := fun v _ _ => v;
  Lists.addVector := fun _ w => w ++ [MarkerVector];
  Lists.addLine := fun _ x y w => w ++ [MarkerLine x y]
|}.

(** A list of three items of two lines, no line and one line. *)
Definition threeItems : Lists.listNode nat nat :=
  {| Lists.ul := [2%nat; 0%nat; 1%nat]; Lists.ol := [];
     Lists.gapWidth := 15%Q; Lists.positions := [] |}.

(** A document whose fonts are their names and styles, with the given
    metrics for every text and font. *)
Definition documentWith (metrics : Watermark.Collaborators)
  : WatermarkPages.Document (string * bool * bool) := {|
  WatermarkPages.provideFont := fun name bold italics => (name, bold, italics);
  WatermarkPages.metricsOf := fun _ _ _ _ => metrics
|}.

(** Two pages without a watermark. *)
Definition twoPages : list (WatermarkPages.page (string * bool * bool) nat) :=
  [{| WatermarkPages.items := 0%nat; WatermarkPages.watermark := None |};
   {| WatermarkPages.items := 1%nat; WatermarkPages.watermark := None |}].

(** A watermark whose opacity is given as 0. *)
Definition transparent : WatermarkPages.options :=
  {| WatermarkPages.text := Some "DRAFT"; WatermarkPages.font := None;
     WatermarkPages.color := None; WatermarkPages.opacity := Some 0%Q;
     WatermarkPages.bold := None; WatermarkPages.italics := None |}.

(** The detached blocks a recorded sequence of calls leaves open. *)
Definition openDetached (w : list string) : Z :=
  fold_left (fun depth c =>
               if String.eqb c "beginDetachedBlock" then depth + 1
               else if String.eqb c "endDetachedBlock" then depth - 1
               else depth) w 0.

(** [{ text: '', absolutePosition: {}, relativePosition: {} }] *)
Definition twicePositioned : Dispatcher.docNode :=
  {| Dispatcher.stack := JUndefined; Dispatcher.columns := JUndefined;
     Dispatcher.ul := JUndefined; Dispatcher.ol := JUndefined;
     Dispatcher.table := JUndefined; Dispatcher.text := JStr EmptyString;
     Dispatcher.toc := JUndefined; Dispatcher.image := JUndefined;
     Dispatcher.canvas := JUndefined; Dispatcher.qr := JUndefined;
     Dispatcher._span := JUndefined; Dispatcher.unbreakable := JUndefined;
     Dispatcher.absolutePosition := JObj [];
     Dispatcher.relativePosition := JObj [];
     Dispatcher._margin := JUndefined; Dispatcher.pageBreak := JUndefined;
     Dispatcher.pageOrientation := JUndefined |}.

(** A document of three pages of 300 by 400 whose writer records the
    nodes it lays out. *)
#[global] Instance threePages : Repeatables.Collaborators string (list string) := {|
  Repeatables.pagesLength := fun _ => 3%nat;
  Repeatables.setPage := fun _ w => w;
  Repeatables.pageSizeAt := fun _ _ =>
    {| Repeatables.width := 300; Repeatables.height := 400 |};
  Repeatables.currentPageSize := fun _ =>
    {| Repeatables.width := 300; Repeatables.height := 400 |};
  Repeatables.beginUnbreakableBlock := fun _ _ w => w;
  Repeatables.commitUnbreakableBlock := fun _ _ w => w;
  Repeatables.copy := fun node => node;
  Repeatables.layoutNode := fun node w => Ok (w ++ [node])
|}.

(** A footer for the pages with an even number, which notes the page
    numbers it is asked about. *)
Definition evenFooter : Repeatables.getter string (list nat) :=
  fun seen pageNumber _ _ =>
    (if Nat.even pageNumber then Some "footer"%string else None,
     seen ++ [pageNumber]).

Definition evenMargins : Repeatables.pageMargins :=
  {| Repeatables.left := 40; Repeatables.top := 60;
     Repeatables.right := 40; Repeatables.bottom := 60 |}.

End Samples.

(* ===================================================================== *)
(** * Properties *)
(* ===================================================================== *)

Module DispatcherFacts.
Import Dispatcher.

Section WithWriter.
Context {W : Type} `{Collaborators W}.

Lemma dispatch_unrecognized (node : docNode) :
  matchesKind node = false -> truthy (_span node) = false ->
  dispatch node = Err (Thrown (unrecognized ++ stringifyNode node)%string).
Proof.
  unfold matchesKind, dispatch. intros Hk Hs.
  repeat (apply orb_false_elim in Hk; destruct Hk as [Hk ?]).
  repeat match goal with E : _ = false |- _ => rewrite E; clear E end.
  reflexivity.
Qed.

Lemma dispatch_recognized (node : docNode) :
  matchesKind node = true -> exists k, dispatch node = Ok (Some k).
Proof.
  unfold matchesKind, dispatch. intros Hk.
  repeat match goal with
         | |- context [if ?c then _ else _] =>
           destruct c eqn:?; [eexists; reflexivity |]
         end.
  simpl in Hk. discriminate.
Qed.

Lemma applyMargins_result (node : docNode) (callback : W -> result W) (w : W) e :
  applyMargins node callback w = Err e -> exists w', callback w' = Err e.
Proof.
  unfold applyMargins. cbv zeta.
  match goal with |- context [callback ?x] => destruct (callback x) eqn:Hc end;
    simpl; intros Hr; [discriminate | injection Hr as <-; eauto].
Qed.

(** C8. A node that matches none of the ten kinds and is not a span
    placeholder makes [processNode] throw "Unrecognized document
    structure: " followed by the stringified node, whatever the writer's
    state; for a node that matches a kind the dispatch throws nothing, it
    selects a [process*] method, and [processNode] can only fail with what
    that method fails with. *)
Theorem processNode_unrecognized_iff_no_kind (node : docNode) (w : W) :
  (matchesKind node = false -> truthy (_span node) = false ->
   processNode node w
   = Err (Thrown (unrecognized ++ stringifyNode node)%string))
  /\ (matchesKind node = true ->
      exists k, dispatch node = Ok (Some k)
        /\ forall e, processNode node w = Err e ->
                     exists w', handler k node w' = Err e).
Proof.
  split.
  - intros Hk Hs. unfold processNode, applyMargins, processNode_body. cbv zeta.
    rewrite (dispatch_unrecognized node Hk Hs). reflexivity.
  - intros Hk. destruct (dispatch_recognized node Hk) as [k Hd].
    exists k. split; [exact Hd |]. intros e He.
    apply applyMargins_result in He as [w' He].
    unfold processNode_body in He. cbv zeta in He. rewrite Hd in He. simpl in He.
    match type of He with
    | context [handler k node ?x] => destruct (handler k node x) eqn:Hh
    end; simpl in He; [discriminate | injection He as <-; eauto].
Qed.

End WithWriter.

Lemma processNode_unrecognized_iff_no_kind_witness :
  processNode Samples.bareNode []
  = Err (Thrown "Unrecognized document structure: {}")
  /\ exists k, dispatch Samples.emptyTextNode = Ok (Some k).
Proof.
  split.
  - exact (proj1 (processNode_unrecognized_iff_no_kind Samples.bareNode [])
                  eq_refl eq_refl).
  - destruct (proj2 (processNode_unrecognized_iff_no_kind
                       Samples.emptyTextNode []) eq_refl) as [k [Hk _]].
    exists k. exact Hk.
Defined.

End DispatcherFacts.

Module LinePackerFacts.
Import LinePacker.

Lemma substring_all (s : string) : String.substring 0 (String.length s) s = s.
Proof. induction s as [| ch s IH]; simpl; [reflexivity | now rewrite IH]. Qed.

Lemma append_cons (ch : ascii) (s t : string) :
  (String ch s ++ t)%string = String ch (s ++ t)%string.
Proof. reflexivity. Qed.

Lemma substring_split (s : string) : forall k : nat,
  (k <= String.length s)%nat ->
  (substr_to k s ++ substr_from k s)%string = s.
Proof.
  unfold substr_to, substr_from.
  induction s as [| ch s IH]; intros [| k] Hk; simpl in *; try lia.
  - reflexivity.
  - change (String ch (substring 0 (String.length s) s) = String ch s).
    f_equal. apply substring_all.
  - rewrite append_cons. f_equal. apply IH. lia.
Qed.

Lemma substr_to_length (s : string) : forall k : nat,
  (k <= String.length s)%nat -> String.length (substr_to k s) = k.
Proof.
  unfold substr_to.
  induction s as [| ch s IH]; intros [| k] Hk; simpl in *; try lia.
  rewrite IH; lia.
Qed.

Lemma substr_from_length (s : string) : forall k : nat,
  (k <= String.length s)%nat ->
  String.length (substr_from k s) = (String.length s - k)%nat.
Proof.
  unfold substr_from.
  induction s as [| ch s IH]; intros [| k] Hk; simpl in *; try lia.
  - f_equal. rewrite substring_all. reflexivity.
  - apply IH. lia.
Qed.

Lemma length_pos_nonempty (s : string) :
  (0 < String.length s)%nat -> s <> EmptyString.
Proof. intros Hl ->. simpl in Hl. lia. Qed.

Section WithLine.
Context {L W P : Type} `{Collaborators L W P}.

Lemma maxCharsOf_ge_1 (run : inline) (avail : Q) : 1 <= maxCharsOf run avail.
Proof.
  unfold maxCharsOf. cbv zeta.
  destruct (Z.ltb_spec (Qfloor (avail / (width run / inject_Z (Z.of_nat (String.length (text run)))))) 1); lia.
Qed.


Lemma hardWrap_inv (ln : L) (run head tail : inline) :
  hardWrap ln run = Some (head, tail) ->
  (1 <= Z.to_nat (maxCharsOf run (getAvailableWidth ln))
   < String.length (text run))%nat
  /\ tail = remeasure run
              (substr_from (Z.to_nat (maxCharsOf run (getAvailableWidth ln)))
                           (text run)).
Proof.
  unfold hardWrap. intros Hw.
  destruct (oversized ln run); [| discriminate].
  cbv zeta in Hw.
  destruct (Z.ltb_spec (maxCharsOf run (getAvailableWidth ln))
                       (Z.of_nat (String.length (text run)))); [| discriminate].
  pose proof (maxCharsOf_ge_1 run (getAvailableWidth ln)).
  injection Hw as _ <-. split; [lia | reflexivity].
Qed.

(** A turn of the loop makes the queue lighter. *)
Lemma packStep_weight (ln : L) (run : inline) (rest : list inline) :
  (queueWeight (snd (fst (packStep ln run rest))) < queueWeight (run :: rest))%nat.
Proof.
  unfold packStep, queueWeight.
  destruct (hardWrap ln run) as [[head tail] |] eqn:Hw; simpl.
  - apply hardWrap_inv in Hw as [Hk ->]. simpl.
    rewrite substr_from_length; lia.
  - lia.
Qed.

(** The loop ends within [queueWeight] turns. *)
Lemma packLoop_total (fuel : nat) : forall (ln : L) (queue : list inline)
  (isForceContinue : bool),
  (queueWeight queue <= fuel)%nat ->
  exists r, packLoop fuel ln queue isForceContinue = Some r.
Proof.
  induction fuel as [| fuel IH]; intros ln queue force Hq.
  - destruct queue as [| run rest]; simpl; [eauto |].
    unfold queueWeight in Hq. simpl in Hq. lia.
  - destruct queue as [| run rest]; simpl; [eauto |].
    destruct (hasEnoughSpaceForInline ln run rest || force); [| eauto].
    pose proof (packStep_weight ln run rest) as Hlt.
    destruct (packStep ln run rest) as [[ln' queue'] force']. simpl in Hlt.
    apply IH. lia.
Qed.

Lemma isEmptyQueue_spec (q : option (list inline)) :
  isEmptyQueue q = true <-> q = None \/ q = Some [].
Proof.
  destruct q as [[| run rest] |]; simpl; split; intros Hq; auto;
    try discriminate; destruct Hq; discriminate.
Qed.

(** C7. [buildNextLine] always returns; it returns [null] exactly when the
    queue is absent or empty at the call; and a returned line has
    [lastLineInParagraph] set exactly when the queue it leaves on the node,
    the one the loop ended with, is empty. *)
Theorem buildNextLine_null_iff_empty (avail : Q) (node : textNode P) :
  exists (ln : option (line L)) (node' : textNode P),
    buildNextLine avail node = Some (ln, node')
    /\ (ln = None <-> isEmptyQueue (_inlines node) = true)
    /\ (forall l, ln = Some l ->
          exists queue queue',
            _inlines node = Some queue
            /\ packLoop (queueWeight queue) (newLine avail) queue false
               = Some (body l, queue')
            /\ _inlines node' = Some queue'
            /\ (lastLineInParagraph l = true <-> queue' = [])).
Proof.
  unfold buildNextLine.
  destruct (_inlines node) as [[| run rest] |] eqn:Hq.
  - exists None, node. simpl. repeat split; auto; discriminate.
  - destruct (packLoop_total (queueWeight (run :: rest)) (newLine avail)
                (run :: rest) false (le_n _)) as [[ln queue'] Hl].
    rewrite Hl. eexists _, _. split; [reflexivity |]. split.
    + simpl. split; discriminate.
    + intros l [= <-]. exists (run :: rest), queue'. simpl.
      repeat split; auto.
      * intros Hz. apply Nat.eqb_eq in Hz. destruct queue'; [auto | discriminate].
      * intros ->. reflexivity.
  - exists None, node. simpl. repeat split; auto; discriminate.
Qed.

(** [processLeaf] on a node whose queue is absent or empty and which
    carries neither reference: nothing is written, nothing fails. *)
Lemma processLeaf_empty_plain (fuel : nat) (node : textNode P) (w : W) :
  isEmptyQueue (_inlines node) = true ->
  truthy (node_tocItemRef node) = false ->
  truthy (node_pageRef node) = false ->
  processLeaf fuel node w = Some (Ok (node, w)).
Proof.
  intros Hq Ht Hp. unfold processLeaf, buildNextLine.
  apply isEmptyQueue_spec in Hq as [-> | ->]; rewrite Ht, Hp; simpl;
    destruct fuel; reflexivity.
Qed.

(** [processLeaf] on a node whose queue is absent or empty and which
    carries one of the references: the assignment to [line._pageNodeRef]
    meets [line = null]. *)
Lemma processLeaf_empty_ref (fuel : nat) (node : textNode P) (w : W) :
  isEmptyQueue (_inlines node) = true ->
  truthy (node_tocItemRef node) || truthy (node_pageRef node) = true ->
  processLeaf fuel node w = Some (Err (TypeError "line._pageNodeRef")).
Proof.
  intros Hq Hr. unfold processLeaf, buildNextLine.
  apply isEmptyQueue_spec in Hq as [-> | ->];
    destruct (truthy (node_tocItemRef node)); simpl in *;
    try reflexivity; rewrite Hr; reflexivity.
Qed.

End WithLine.

(** C5. A text leaf whose queue is empty and which carries a
    table-of-contents item reference: [processLeaf] fails with a TypeError
    on [line._pageNodeRef], whatever the fuel, where the claim has it
    complete with an empty result. *)
Theorem processLeaf_empty_queue_tocItemRef_fails (fuel : nat) :
  buildNextLine 30 (Samples.leaf (Some []) (JObj []))
  = Some (None, Samples.leaf (Some []) (JObj []))
  /\ processLeaf fuel (Samples.leaf (Some []) (JObj [])) []
     = Some (Err (TypeError "line._pageNodeRef")).
Proof. split; [reflexivity |]. apply processLeaf_empty_ref; reflexivity. Qed.


End LinePackerFacts.

Module TrackerFacts.
Import RowColumn.

Lemma mergeBreak_pages (d : desc) (pbs : list desc) :
  (prevPage d ∈ map prevPage pbs ->
   map prevPage (mergeBreak d pbs) = map prevPage pbs)
  /\ (prevPage d ∉ map prevPage pbs ->
      map prevPage (mergeBreak d pbs) = map prevPage pbs ++ [prevPage d]).
Proof.
  induction pbs as [| x pbs [IHin IHout]]; simpl.
  - split; [intros Hin; inversion Hin | reflexivity].
  - destruct (Z.eqb_spec (prevPage x) (prevPage d)) as [Heq | Hne]; simpl.
    + split; [reflexivity |]. intros Hout. exfalso. apply Hout. rewrite Heq. left.
    + split.
      * intros Hin. apply elem_of_cons in Hin as [Heq | Hin]; [congruence |].
        rewrite IHin; auto.
      * intros Hout. rewrite IHout; [reflexivity |].
        intros Hin. apply Hout. right. exact Hin.
Qed.

Lemma mergeBreak_elem (d : desc) (pbs : list desc) (x' : desc) :
  NoDup (map prevPage pbs) ->
  x' ∈ mergeBreak d pbs ->
  (x' ∈ pbs /\ prevPage x' <> prevPage d)
  \/ (exists x, x ∈ pbs /\ prevPage x = prevPage d /\ x' = merged x d)
  \/ (x' = d /\ prevPage d ∉ map prevPage pbs).
Proof.
  induction pbs as [| x pbs IH]; simpl; intros Hnd Hin.
  - apply list_elem_of_singleton in Hin. right. right. split; [exact Hin |].
    intros Hx. inversion Hx.
  - apply NoDup_cons in Hnd as [Hx Hnd].
    destruct (Z.eqb_spec (prevPage x) (prevPage d)) as [Heq | Hne].
    + apply elem_of_cons in Hin as [-> | Hin].
      * right. left. exists x. repeat split; [left | exact Heq].
      * left. split; [right; exact Hin |].
        intros Hpp. apply Hx. rewrite Heq, <- Hpp.
        apply list_elem_of_fmap. exists x'. split; auto.
    + apply elem_of_cons in Hin as [-> | Hin].
      * left. split; [left | exact Hne].
      * destruct (IH Hnd Hin) as [[Hin' Hpp] | [(x0 & Hx0 & Hpp & ->) | [-> Hout]]].
        -- left. split; [right; exact Hin' | exact Hpp].
        -- right. left. exists x0. repeat split; [right; exact Hx0 | exact Hpp].
        -- right. right. split; [reflexivity |].
           intros Hd. apply elem_of_cons in Hd as [Hd | Hd]; [congruence | auto].
Qed.

Lemma summarises_nil : summarises [] [].
Proof.
  split; [simpl; constructor |]. split; intros x Hx; inversion Hx.
Qed.

(** One more event keeps the descriptors a summary of the events. *)
Lemma summarises_step (events pbs : list desc) (d : desc) :
  summarises events pbs -> summarises (events ++ [d]) (mergeBreak d pbs).
Proof.
  intros (Hnd & Hext & Hcov).
  destruct (mergeBreak_pages d pbs) as [Hpin Hpout].
  assert (Hdec : prevPage d ∈ map prevPage pbs \/ prevPage d ∉ map prevPage pbs).
  { destruct (decide (prevPage d ∈ map prevPage pbs)); auto. }
  repeat split.
  - destruct Hdec as [Hin | Hout].
    + rewrite Hpin; auto.
    + rewrite Hpout; auto. apply NoDup_app. repeat split; auto.
      * intros p Hp Hp'. apply list_elem_of_singleton in Hp'. subst. auto.
      * apply NoDup_singleton.
  - destruct (mergeBreak_elem d pbs x Hnd H)
      as [[Hin Hpp] | [(x0 & Hx0 & Hpp & ->) | [-> Hout]]].
    + destruct (Hext x Hin) as ((e & He & Hep & Hey) & _).
      exists e. repeat split; auto. apply elem_of_app. auto.
    + destruct (Hext x0 Hx0) as ((e & He & Hep & Hey) & _). simpl.
      destruct (Z.max_spec (prevY x0) (prevY d)) as [[_ ->] | [_ ->]].
      * exists d. repeat split; auto. apply elem_of_app. right. left.
      * exists e. repeat split; auto. apply elem_of_app. auto.
    + exists d. repeat split. apply elem_of_app. right. left.
  - destruct (mergeBreak_elem d pbs x Hnd H)
      as [[Hin Hpp] | [(x0 & Hx0 & Hpp & ->) | [-> Hout]]].
    + destruct (Hext x Hin) as (_ & (e & He & Hep & Hey) & _).
      exists e. repeat split; auto. apply elem_of_app. auto.
    + destruct (Hext x0 Hx0) as (_ & (e & He & Hep & Hey) & _). simpl.
      destruct (Z.min_spec (y x0) (y d)) as [[_ ->] | [_ ->]].
      * exists e. repeat split; auto. apply elem_of_app. auto.
      * exists d. repeat split; auto. apply elem_of_app. right. left.
    + exists d. repeat split. apply elem_of_app. right. left.
  - destruct (mergeBreak_elem d pbs x Hnd H)
      as [[Hin Hpp] | [(x0 & Hx0 & Hpp & ->) | [-> Hout]]].
    + apply elem_of_app in H0 as [He | He].
      * destruct (Hext x Hin) as (_ & _ & Hb). apply Hb; auto.
      * apply list_elem_of_singleton in He. subst. congruence.
    + simpl in *. apply elem_of_app in H0 as [He | He].
      * destruct (Hext x0 Hx0) as (_ & _ & Hb). specialize (Hb e He H1). lia.
      * apply list_elem_of_singleton in He. subst. lia.
    + apply elem_of_app in H0 as [He | He].
      * exfalso. destruct (Hcov e He) as (x0 & Hx0 & Hpp). apply Hout.
        rewrite <- H1, <- Hpp. apply list_elem_of_fmap. exists x0. auto.
      * apply list_elem_of_singleton in He. subst. lia.
  - destruct (mergeBreak_elem d pbs x Hnd H)
      as [[Hin Hpp] | [(x0 & Hx0 & Hpp & ->) | [-> Hout]]].
    + apply elem_of_app in H0 as [He | He].
      * destruct (Hext x Hin) as (_ & _ & Hb). apply Hb; auto.
      * apply list_elem_of_singleton in He. subst. congruence.
    + simpl in *. apply elem_of_app in H0 as [He | He].
      * destruct (Hext x0 Hx0) as (_ & _ & Hb). specialize (Hb e He H1). lia.
      * apply list_elem_of_singleton in He. subst. lia.
    + apply elem_of_app in H0 as [He | He].
      * exfalso. destruct (Hcov e He) as (x0 & Hx0 & Hpp). apply Hout.
        rewrite <- H1, <- Hpp. apply list_elem_of_fmap. exists x0. auto.
      * apply list_elem_of_singleton in He. subst. lia.
  - intros e He.
    assert (Hp : prevPage e ∈ map prevPage (mergeBreak d pbs)).
    { apply elem_of_app in He as [He | He].
      - destruct (Hcov e He) as (x0 & Hx0 & Hpp).
        assert (prevPage e ∈ map prevPage pbs).
        { rewrite <- Hpp. apply list_elem_of_fmap. exists x0. auto. }
        destruct Hdec as [Hin | Hout].
        + rewrite Hpin; auto.
        + rewrite Hpout; auto. apply elem_of_app. auto.
      - apply list_elem_of_singleton in He. subst.
        destruct Hdec as [Hin | Hout].
        + rewrite Hpin; auto.
        + rewrite Hpout; auto. apply elem_of_app. right. left. }
    apply list_elem_of_fmap in Hp as (x0 & Hpp & Hx0). exists x0. auto.
Qed.

Lemma desc_insert (h : gmap nat desc) (l : nat) (d : desc) :
  deref (<[l := d]> h) l = d.
Proof. unfold deref. rewrite lookup_insert_eq. reflexivity. Qed.

Lemma desc_insert_ne (h : gmap nat desc) (l l' : nat) (d : desc) :
  l <> l' -> deref (<[l := d]> h) l' = deref h l'.
Proof. intros Hne. unfold deref. rewrite lookup_insert_ne; auto. Qed.

Lemma merged_self (d : desc) : merged d d = d.
Proof. destruct d. unfold merged. simpl. f_equal; lia. Qed.

(** The two assignments of [storePageBreakData] amount to one update of
    the descriptor found, also when it is the event's own object. *)
Lemma storePageBreakData_merged (data : nat) (h : gmap nat desc) (pbs : list nat) :
  storePageBreakData data h pbs
  = match findDesc h (prevPage (deref h data)) pbs with
    | Some p => (<[p := merged (deref h p) (deref h data)]> h, pbs)
    | None => (<[data := deref h data]> h, pbs ++ [data])
    end.
Proof.
  unfold storePageBreakData.
  destruct (findDesc h (prevPage (deref h data)) pbs) as [p |]; cbv zeta.
  - rewrite desc_insert, insert_insert_eq. simpl.
    match goal with
    | |- context [y (deref (<[p := ?X]> h) data)] =>
      assert (Hy : y (deref (<[p := X]> h) data) = y (deref h data))
    end.
    { destruct (decide (p = data)) as [-> | Hne].
      - rewrite desc_insert. reflexivity.
      - rewrite desc_insert_ne; auto. }
    rewrite Hy. reflexivity.
  - rewrite !desc_insert, insert_insert_eq. simpl.
    rewrite Z.max_id, Z.min_id. destruct (deref h data). reflexivity.
Qed.

(** On the values, delivering an event to the listener is [mergeBreak]. *)
Lemma find_mergeBreak (h : gmap nat desc) (l : nat) (d : desc) (pbs : list nat) :
  l ∉ pbs -> NoDup pbs ->
  match findDesc (<[l := d]> h) (prevPage d) pbs with
  | Some p =>
    p ∈ pbs
    /\ map (deref (<[p := merged (deref (<[l := d]> h) p) d]> (<[l := d]> h))) pbs
       = mergeBreak d (map (deref h) pbs)
  | None => mergeBreak d (map (deref h) pbs) = map (deref h) pbs ++ [d]
  end.
Proof.
  unfold findDesc.
  induction pbs as [| x pbs IH]; intros Hl Hnd; simpl; [reflexivity |].
  apply not_elem_of_cons in Hl as [Hxl Hl].
  apply NoDup_cons in Hnd as [Hx Hnd].
  rewrite (desc_insert_ne h l x d) by auto.
  destruct (Z.eqb_spec (prevPage (deref h x)) (prevPage d)) as [Heq | Hne].
  - split; [left |]. rewrite desc_insert. f_equal.
    + rewrite desc_insert_ne by auto. reflexivity.
    + apply map_ext_in. intros a Ha. apply list_elem_of_In in Ha.
      rewrite !desc_insert_ne; auto; intros ->; auto.
  - specialize (IH Hl Hnd).
    destruct (List.find _ pbs) as [p |].
    + destruct IH as [Hp IH]. split; [right; exact Hp |]. rewrite IH. f_equal.
      rewrite !desc_insert_ne; auto. intros ->. auto.
    + rewrite IH. reflexivity.
Qed.

Lemma emit_reported (t : tracker) (d : desc) :
  reported (emit t d) = reported t ++ [d].
Proof.
  unfold emit. destruct (storePageBreakData _ _ _). reflexivity.
Qed.

Lemma emit_breaksOf (t : tracker) (d : desc) :
  wellFormed t ->
  wellFormed (emit t d) /\ breaksOf (emit t d) = mergeBreak d (breaksOf t).
Proof.
  intros [Hlt Hnd].
  assert (Hfresh : next t ∉ pageBreaks t).
  { intros Hin. apply Hlt in Hin. lia. }
  unfold emit, breaksOf. rewrite storePageBreakData_merged, !desc_insert.
  pose proof (find_mergeBreak (heap t) (next t) d (pageBreaks t) Hfresh Hnd) as Hf.
  destruct (findDesc _ (prevPage d) (pageBreaks t)) as [p |];
    unfold wellFormed; simpl.
  - destruct Hf as [Hp Hf]. split; [| exact Hf].
    split; [| exact Hnd]. intros l Hl. apply Hlt in Hl. lia.
  - rewrite Hf. split.
    + split.
      * intros l Hl. apply elem_of_app in Hl as [Hl | Hl].
        -- apply Hlt in Hl. lia.
        -- apply list_elem_of_singleton in Hl. lia.
      * apply NoDup_app. repeat split; auto.
        -- intros l Hl Hl'. apply list_elem_of_singleton in Hl'. subst. auto.
        -- apply NoDup_singleton.
    + rewrite insert_insert_eq, map_app. simpl. rewrite desc_insert. f_equal.
      apply map_ext_in. intros a Ha. apply list_elem_of_In in Ha.
      rewrite desc_insert_ne; auto. intros <-. auto.
Qed.

Lemma sound_empty : sound emptyTracker.
Proof.
  split; [| exact summarises_nil].
  split; [intros l Hl; inversion Hl | constructor].
Qed.

Lemma sound_emit (t : tracker) (d : desc) : sound t -> sound (emit t d).
Proof.
  intros [Hwf Hs]. destruct (emit_breaksOf t d Hwf) as [Hwf' Hb].
  split; [exact Hwf' |]. rewrite emit_reported, Hb.
  apply summarises_step, Hs.
Qed.

Lemma sound_emitAll (events : list desc) :
  forall t, sound t ->
  sound (emitAll t events) /\ reported (emitAll t events) = reported t ++ events.
Proof.
  unfold emitAll.
  induction events as [| d events IH]; intros t Ht; simpl.
  - split; [exact Ht | rewrite app_nil_r; reflexivity].
  - destruct (IH (emit t d) (sound_emit t d Ht)) as [Hs Hr].
    split; [exact Hs |]. rewrite Hr, emit_reported, <- app_assoc. reflexivity.
Qed.

End TrackerFacts.

Module RowColumnFacts.
Import RowColumn.

Section WithContext.
Context {N W P : Type} `{Collaborators N W P}.

Lemma spans_gt_1 (span : option Z) :
  spans span = true <-> exists n, span = Some n /\ 1 < n.
Proof.
  unfold spans. destruct span as [n |]; split.
  - intros Hs. apply andb_prop in Hs as [_ Hs]. exists n. split; [auto | lia].
  - intros (m & [= <-] & Hm). apply andb_true_intro. split; [| lia].
    apply negb_true_iff. lia.
  - discriminate.
  - intros (m & Hm & _). discriminate.
Qed.

(** The inner loop advances the index by one per turn. *)
Lemma spanLoop_index (n : nat) (widths : list Z) (gaps : option (list Z)) :
  forall (i : nat) (width : number) (i' : nat) (width' : number),
  spanLoop n widths gaps i width = Ok (i', width') -> i' = (i + n)%nat.
Proof.
  induction n as [| n IH]; intros i width i' width' Hs; simpl in Hs.
  - injection Hs as <- _. lia.
  - destruct (widths !! S i); [| discriminate].
    destruct gaps; [| discriminate].
    apply IH in Hs. lia.
Qed.

Lemma spanWidth_index (widths : list Z) (gaps : option (list Z))
  (col : column N) (i : nat) (width0 : Z) (i' : nat) (width : number) :
  spanWidth widths gaps col i width0 = Ok (i', width) -> i' = lastSpanned col i.
Proof.
  unfold spanWidth, lastSpanned. destruct (spans (colSpan col)).
  - apply spanLoop_index.
  - intros [= <- _]. reflexivity.
Qed.

Lemma getEndingCell_rowSpan (body : list (list (column N))) (r : nat)
  (col : column N) (rs : Z) (columnIndex : nat) :
  rowSpan col = Some rs -> 1 < rs ->
  getEndingCell (Some body) (Some r) col columnIndex
  = match body !! (r + Z.to_nat (rs - 1))%nat with
    | Some row =>
      Ok (EndingAt (r + Z.to_nat (rs - 1))%nat columnIndex (row !! columnIndex))
    | None => Err (Thrown (rowSpanMessage columnIndex))
    end.
Proof.
  intros Hrs Hgt. unfold getEndingCell.
  rewrite (proj2 (spans_gt_1 (rowSpan col))) by eauto.
  rewrite Hrs. simpl.
  replace (Z.to_nat (Z.of_nat r + rs - 1)) with (r + Z.to_nat (rs - 1))%nat by lia.
  destruct (body !! (r + Z.to_nat (rs - 1))%nat) as [row |] eqn:Hrow.
  - apply lookup_lt_Some in Hrow.
    destruct (Z.leb_spec (Z.of_nat (length body)) (Z.of_nat r + rs - 1));
      [lia | reflexivity].
  - apply lookup_ge_None in Hrow.
    destruct (Z.leb_spec (Z.of_nat (length body)) (Z.of_nat r + rs - 1));
      [reflexivity | lia].
Qed.

(** C9, as the code has it. In the turn of a cell with [rowSpan > 1] at
    row [r] whose column-span block succeeds, the ending cell is looked up
    at row [r + rowSpan - 1] and at the index of the last column the cell
    spans, which is the cell's own column when it has no column span. If
    that row is beyond the table body the turn throws the row-span message
    with that index; otherwise the row exists, the lookup yields its entry
    at that index (possibly [undefined]) without an error, and the turn
    goes on with [beginColumn] receiving it. *)
Theorem rowSpan_ending_cell (columns : list (column N)) (widths : list Z)
  (gaps : option (list Z)) (body : list (list (column N))) (r i : nat)
  (col : column N) (rs width0 : Z) (i' : nat) (width : number)
  (fuel : nat) (w : W) (t : tracker) (ps : list P) :
  columns !! i = Some col ->
  widths !! i = Some width0 ->
  rowSpan col = Some rs -> 1 < rs ->
  spanWidth widths gaps col i width0 = Ok (i', width) ->
  let endingRow := (r + Z.to_nat (rs - 1))%nat in
  i' = lastSpanned col i
  /\ (spans (colSpan col) = false -> i' = i)
  /\ ((length body <= endingRow)%nat ->
      rowLoop (S fuel) columns widths gaps (Some body) (Some r) i w t ps
      = Some (Err (Thrown (rowSpanMessage i'))))
  /\ ((endingRow < length body)%nat ->
      exists row,
        body !! endingRow = Some row
        /\ getEndingCell (Some body) (Some r) col i'
           = Ok (EndingAt endingRow i' (row !! i'))
        /\ rowLoop (S fuel) columns widths gaps (Some body) (Some r) i w t ps
           = match layColumn col
                     (beginColumn width (colLeftOffset gaps i)
                        (EndingAt endingRow i' (row !! i')) w) t ps with
             | Err e => Some (Err e)
             | Ok (w', t', ps') =>
               rowLoop fuel columns widths gaps (Some body) (Some r) (S i')
                       w' t' ps'
             end).
Proof.
  intros Hcol Hw0 Hrs Hgt Hspan endingRow.
  pose proof (spanWidth_index _ _ _ _ _ _ _ Hspan) as Hi'.
  pose proof (getEndingCell_rowSpan body r col rs i' Hrs Hgt) as Hg.
  fold endingRow in Hg.
  split; [exact Hi' |]. split.
  { intros Hn. rewrite Hi'. unfold lastSpanned. rewrite Hn. reflexivity. }
  split.
  - intros Hlen. apply lookup_ge_None in Hlen. rewrite Hlen in Hg.
    simpl. rewrite Hcol, Hw0, Hspan, Hg. reflexivity.
  - intros Hlen. destruct (lookup_lt_is_Some_2 body endingRow Hlen) as [row Hrow].
    rewrite Hrow in Hg. exists row. split; [exact Hrow |]. split; [exact Hg |].
    simpl. rewrite Hcol, Hw0, Hspan, Hg. reflexivity.
Qed.

Lemma spanLoop_null_gaps (n : nat) (widths : list Z) (i : nat) (width : number) :
  (1 <= n)%nat -> exists e, spanLoop n widths None i width = Err e.
Proof.
  destruct n as [| n]; [lia |]. intros _. simpl.
  destruct (widths !! S i); eauto.
Qed.

(** With a gap array, the inner loop adds the widths and the gap entries
    of the [n] columns after [i]. *)
Lemma spanLoop_sum (n : nat) (widths g : list Z) :
  forall (i : nat) (z : Z),
  (i + n < length widths)%nat -> (i + n < length g)%nat ->
  spanLoop n widths (Some g) i (Num z)
  = Ok ((i + n)%nat,
        Num (z + sumZ (take n (drop (S i) widths)) + sumZ (take n (drop (S i) g)))).
Proof.
  induction n as [| n IH]; intros i z Hw Hg; simpl.
  - do 2 f_equal; [lia | f_equal; lia].
  - destruct (lookup_lt_is_Some_2 widths (S i) ltac:(lia)) as [wi Hwi].
    destruct (lookup_lt_is_Some_2 g (S i) ltac:(lia)) as [gi Hgi].
    rewrite Hwi, Hgi. simpl. rewrite IH by lia.
    rewrite (drop_S widths wi (S i) Hwi), (drop_S g gi (S i) Hgi). simpl.
    do 2 f_equal; [lia | f_equal; lia].
Qed.

Lemma rowLoop_null_gaps (columns : list (column N)) (widths : list Z)
  (tableBody : option (list (list (column N)))) (tableRow : option nat)
  (fuel : nat) :
  forall (i : nat) (w : W) (t : tracker) (ps : list P),
  (length columns - i <= fuel)%nat ->
  (exists j col, (i <= j)%nat /\ columns !! j = Some col
                 /\ spans (colSpan col) = true) ->
  exists e, rowLoop fuel columns widths None tableBody tableRow i w t ps
            = Some (Err e).
Proof.
  induction fuel as [| fuel IH]; intros i w t ps Hfuel (j & cj & Hij & Hj & Hs).
  - apply lookup_lt_Some in Hj. lia.
  - pose proof (lookup_lt_Some _ _ _ Hj) as Hjlt.
    destruct (lookup_lt_is_Some_2 columns i ltac:(lia)) as [col Hcol].
    simpl. rewrite Hcol.
    destruct (widths !! i) as [width0 |]; [| eauto].
    unfold spanWidth. destruct (spans (colSpan col)) eqn:Hsc.
    + apply spans_gt_1 in Hsc as (n & Hn & Hgt). rewrite Hn. simpl.
      destruct (spanLoop_null_gaps (Z.to_nat (n - 1)) widths i (Num width0)
                  ltac:(lia)) as [e He].
      rewrite He. eauto.
    + destruct (getEndingCell tableBody tableRow col i); [| eauto].
      destruct (layColumn col _ t ps) as [[[w' t'] ps'] |]; [| eauto].
      apply IH; [lia |]. exists j, cj. repeat split; auto.
      destruct (Nat.eq_dec i j) as [-> |]; [| lia]. congruence.
Qed.

(** C10. [gapArray] is [null] for an absent or zero gap. With a [null] gap
    array and some column declaring [colSpan > 1], [processRow] ends with
    an error, and so does [processColumns] for such a gap when one of the
    columns it lays out declares it. With a gap array, the column-span
    block of a cell at [i] with [colSpan = cs > 1], all spanned indexes
    being within the widths and the gap array, ends at index [i + cs - 1]
    with the cell's width plus the widths and the gap entries of the
    [cs - 1] columns after [i], and [beginColumn] receives that width. *)
Theorem colSpan_width_needs_gaps (columns : list (column N))
  (widths : list Z) (tableBody : option (list (list (column N))))
  (tableRow : option nat) (height : option Z) (w : W) :
  (gapArray columns None = None /\ gapArray columns (Some 0) = None)
  /\ ((exists j col, columns !! j = Some col /\ spans (colSpan col) = true) ->
      (exists e, processRow columns (Some widths) None tableBody tableRow height w
                 = Some (Err e))
      /\ (exists e, processRow columns None None tableBody tableRow height w
                    = Some (Err e)))
  /\ (forall gap, gap = None \/ gap = Some 0 ->
      (exists j col, buildColumnWidths columns (availableWidth w) !! j = Some col
                     /\ spans (colSpan col) = true) ->
      exists e, processColumns columns gap w = Some (Err e))
  /\ (forall (g : list Z) (i : nat) (col : column N) (cs width0 : Z)
             (fuel : nat) (t : tracker) (ps : list P) ending,
      columns !! i = Some col -> widths !! i = Some width0 ->
      colSpan col = Some cs -> 1 < cs ->
      (i + Z.to_nat (cs - 1) < length widths)%nat ->
      (i + Z.to_nat (cs - 1) < length g)%nat ->
      let n := Z.to_nat (cs - 1) in
      let total := width0 + sumZ (take n (drop (S i) widths))
                   + sumZ (take n (drop (S i) g)) in
      spanWidth widths (Some g) col i width0 = Ok ((i + n)%nat, Num total)
      /\ (getEndingCell tableBody tableRow col (i + n) = Ok ending ->
          rowLoop (S fuel) columns widths (Some g) tableBody tableRow i w t ps
          = match layColumn col
                    (beginColumn (Num total) (colLeftOffset (Some g) i) ending w)
                    t ps with
            | Err e => Some (Err e)
            | Ok (w', t', ps') =>
              rowLoop fuel columns widths (Some g) tableBody tableRow
                      (S (i + n)) w' t' ps'
            end)).
Proof.
  assert (Hrow : forall widths',
    (exists j col, columns !! j = Some col /\ spans (colSpan col) = true) ->
    exists e, processRow columns widths' None tableBody tableRow height w
              = Some (Err e)).
  { intros widths' (j & col & Hj & Hs). unfold processRow.
    match goal with
    | |- context [rowLoop ?f ?c ?ws None ?tb ?tr ?i ?w0 ?t0 ?p0] =>
      destruct (rowLoop_null_gaps c ws tb tr f i w0 t0 p0 ltac:(lia)) as [e He]
    end.
    { exists j, col. repeat split; auto. lia. }
    rewrite He. eauto. }
  split; [split; reflexivity |]. split; [intros Hex; split; apply Hrow, Hex |].
  split.
  - intros gap Hgap (j & col & Hj & Hs). unfold processColumns.
    assert (Hnull : gapArray columns gap = None) by (destruct Hgap as [-> | ->]; reflexivity).
    rewrite Hnull. cbv zeta.
    set (cols := buildColumnWidths columns (availableWidth w)) in *.
    unfold processRow.
    destruct (rowLoop_null_gaps cols (map _calcWidth cols) None None
                (length cols) 0 (beginColumnGroup w) emptyTracker []
                ltac:(lia)) as [e He].
    { exists j, col. repeat split; auto. lia. }
    rewrite He. eauto.
  - intros g i col cs width0 fuel t ps ending Hcol Hw0 Hcs Hgt Hlw Hlg n total.
    assert (Hsw : spanWidth widths (Some g) col i width0
                  = Ok ((i + n)%nat, Num total)).
    { unfold spanWidth. rewrite (proj2 (spans_gt_1 (colSpan col))) by eauto.
      rewrite Hcs. simpl. apply spanLoop_sum; assumption. }
    split; [exact Hsw |]. intros Hend.
    simpl. rewrite Hcol, Hw0, Hsw, Hend. reflexivity.
Qed.

Lemma layColumn_sound (col : column N) (w w' : W) (t t' : tracker)
  (ps ps' : list P) :
  sound t -> layColumn col w t ps = Ok (w', t', ps') -> sound t'.
Proof.
  unfold layColumn. intros Ht Hl.
  destruct (negb (_span col)).
  - destruct (processNode col w) as [[[ps0 events] w0] |]; simpl in Hl;
      [| discriminate].
    injection Hl as _ <- _. apply TrackerFacts.sound_emitAll, Ht.
  - destruct (_columnEndingContext col); injection Hl as _ <- _; exact Ht.
Qed.

(** The outer loop ends within as many turns as there are columns left. *)
Lemma rowLoop_total (columns : list (column N)) (widths : list Z)
  (gaps : option (list Z)) (tableBody : option (list (list (column N))))
  (tableRow : option nat) (fuel : nat) :
  forall (i : nat) (w : W) (t : tracker) (ps : list P),
  (length columns - i <= fuel)%nat ->
  exists r, rowLoop fuel columns widths gaps tableBody tableRow i w t ps = Some r.
Proof.
  induction fuel as [| fuel IH]; intros i w t ps Hfuel.
  - simpl. rewrite (proj2 (lookup_ge_None columns i)) by lia. eauto.
  - simpl. destruct (columns !! i) as [col |] eqn:Hcol; [| eauto].
    destruct (widths !! i) as [width0 |]; [| eauto].
    destruct (spanWidth widths gaps col i width0) as [[i' width] |] eqn:Hs;
      [| eauto].
    apply spanWidth_index in Hs.
    assert (i <= i')%nat by (rewrite Hs; unfold lastSpanned;
                             destruct (spans (colSpan col)); lia).
    destruct (getEndingCell tableBody tableRow col i'); [| eauto].
    destruct (layColumn col _ t ps) as [[[w' t'] ps'] |]; [| eauto].
    apply IH. lia.
Qed.

Lemma rowLoop_sound (columns : list (column N)) (widths : list Z)
  (gaps : option (list Z)) (tableBody : option (list (list (column N))))
  (tableRow : option nat) (fuel : nat) :
  forall (i : nat) (w w' : W) (t t' : tracker) (ps ps' : list P),
  sound t ->
  rowLoop fuel columns widths gaps tableBody tableRow i w t ps
  = Some (Ok (w', t', ps')) ->
  sound t'.
Proof.
  induction fuel as [| fuel IH]; intros i w w' t t' ps ps' Ht Hr; simpl in Hr.
  - destruct (columns !! i); [discriminate |]. injection Hr as _ <- _. exact Ht.
  - destruct (columns !! i) as [col |]; [| injection Hr as _ <- _; exact Ht].
    destruct (widths !! i) as [width0 |]; [| discriminate].
    destruct (spanWidth widths gaps col i width0) as [[i' width] |];
      [| discriminate].
    destruct (getEndingCell tableBody tableRow col i'); [| discriminate].
    destruct (layColumn col _ t ps) as [[[w1 t1] ps1] |] eqn:Hl; [| discriminate].
    apply (IH _ _ _ _ _ _ _ (layColumn_sound _ _ _ _ _ _ _ Ht Hl) Hr).
Qed.

(** C3. [processRow] always ends, and when it returns, its [pageBreaks]
    summarise the page changes reported during the row: no two descriptors
    share a [prevPage]; every descriptor has, among the events with its
    [prevPage], one with its [prevY] and one with its [y], and none with a
    larger [prevY] or a smaller [y]; and every event's [prevPage] has its
    descriptor. *)
Theorem processRow_pageBreaks_merged (columns : list (column N))
  (widths : option (list Z)) (gaps : option (list Z))
  (tableBody : option (list (list (column N)))) (tableRow : option nat)
  (height : option Z) (w : W) :
  (exists r, processRow columns widths gaps tableBody tableRow height w = Some r)
  /\ forall w' t positions,
       processRow columns widths gaps tableBody tableRow height w
       = Some (Ok (w', t, positions)) ->
       summarises (reported t) (breaksOf t).
Proof.
  unfold processRow. split.
  - match goal with
    | |- context [rowLoop ?f ?c ?ws ?g ?tb ?tr ?i ?w0 ?t0 ?p0] =>
      destruct (rowLoop_total c ws g tb tr f i w0 t0 p0 ltac:(lia)) as [r Hr]
    end.
    rewrite Hr. destruct r as [[[w' t] ps] |]; eauto.
  - intros w' t positions Hr.
    match type of Hr with
    | context [rowLoop ?f ?c ?ws ?g ?tb ?tr ?i ?w0 ?t0 ?p0] =>
      destruct (rowLoop f c ws g tb tr i w0 t0 p0)
        as [[[[w1 t1] ps1] |] |] eqn:Hl; try discriminate
    end.
    injection Hr as _ <- _.
    apply (rowLoop_sound _ _ _ _ _ _ _ _ _ _ _ _ _ TrackerFacts.sound_empty Hl).
Qed.

End WithContext.

Lemma processRow_pageBreaks_merged_witness :
  exists w t positions,
    processRow Samples.brokenRow None (Some [0; 5]) None None None []
    = Some (Ok (w, t, positions))
    /\ breaksOf t = [{| prevPage := 0; prevY := 700; y := 30 |};
                     {| prevPage := 1; prevY := 720; y := 35 |}]
    /\ summarises (reported t) (breaksOf t).
Proof.
  destruct (processRow_pageBreaks_merged Samples.brokenRow None (Some [0; 5])
              None None None []) as [_ Hs].
  destruct (processRow Samples.brokenRow None (Some [0; 5]) None None None [])
    as [[[[w t] positions] | e] |] eqn:Hr; vm_compute in Hr; try discriminate.
  exists w, t, positions. split; [reflexivity |].
  split; [| apply (Hs w t positions eq_refl)].
  injection Hr as _ <- _. vm_compute. reflexivity.
Defined.

Lemma colSpan_width_needs_gaps_witness :
  (exists e, processRow [Samples.cell (Some 2) None []; Samples.placeholder]
               None None None None None [] = Some (Err e))
  /\ spanWidth [10; 10] (Some [0; 5]) (Samples.cell (Some 2) None []) 0 10
     = Ok (1%nat, Num 25).
Proof.
  destruct (colSpan_width_needs_gaps
              [Samples.cell (Some 2) None []; Samples.placeholder] [10; 10]
              None None None []) as (_ & Hnull & _ & Hsum).
  split.
  - apply Hnull. exists 0%nat, (Samples.cell (Some 2) None []).
    split; reflexivity.
  - apply (Hsum [0; 5] 0%nat (Samples.cell (Some 2) None []) 2 10 0%nat
             emptyTracker [] NoEndingCell);
      try reflexivity; simpl; lia.
Defined.

Lemma rowSpan_ending_cell_witness :
  getEndingCell (Some Samples.rowSpanTable) (Some 0%nat)
    (Samples.cell None (Some 2) []) 0
  = Ok (EndingAt 1 0 (Some Samples.placeholder))
  /\ rowLoop 1 [Samples.cell None (Some 2) []] [10] (Some [0])
       (Some [[Samples.cell None (Some 2) []]]) (Some 0%nat) 0 [] emptyTracker []
     = Some (Err (Thrown
         "Row span for column 0 (with indexes starting from 0) exceeded row count")).
Proof.
  split.
  - destruct (rowSpan_ending_cell
                [Samples.cell None (Some 2) []; Samples.cell None None []]
                [10; 10] (Some [0; 0]) Samples.rowSpanTable 0 0
                (Samples.cell None (Some 2) []) 2 10 0 (Num 10) 0
                [] emptyTracker [] eq_refl eq_refl eq_refl eq_refl eq_refl)
      as (_ & _ & _ & Hin).
    destruct (Hin ltac:(simpl; lia)) as (row & Hrow & Hg & _).
    injection Hrow as <-. exact Hg.
  - destruct (rowSpan_ending_cell
                [Samples.cell None (Some 2) []] [10] (Some [0])
                [[Samples.cell None (Some 2) []]] 0 0
                (Samples.cell None (Some 2) []) 2 10 0 (Num 10) 0
                [] emptyTracker [] eq_refl eq_refl eq_refl eq_refl eq_refl)
      as (_ & _ & Hout & _).
    exact (Hout ltac:(simpl; lia)).
Defined.

(** C9 as stated fails for a cell that spans columns too: the top-left
    cell of [spanTable], at row 0 and column 0 with [rowSpan = 2] and
    [colSpan = 2], has its ending cell looked up at [tableBody[1][1]], not
    at [tableBody[1][0]]. *)
Lemma rowSpan_ending_cell_not_own_column :
  Samples.spanTable !! 0%nat
  = Some [Samples.cell (Some 2) (Some 2) []; Samples.placeholder]
  /\ processRow [Samples.cell (Some 2) (Some 2) []; Samples.placeholder]
       (Some [10; 10]) (Some [0; 0]) (Some Samples.spanTable) (Some 0%nat) None []
     = Some (Ok ([Samples.BeginColumnGroup;
                  Samples.BeginColumn (Num 20) 0
                    (EndingAt 1 1 (Some Samples.placeholder));
                  Samples.ProcessNode;
                  Samples.CompleteColumnGroup],
                 emptyTracker, [2%nat]))
  /\ EndingAt 1 1 (Some Samples.placeholder)
     <> EndingAt 1 0 (Some Samples.placeholder).
Proof.
  split; [reflexivity |]. split; [vm_compute; reflexivity | discriminate].
Qed.

End RowColumnFacts.

Module WatermarkFacts.
Import Watermark.

Lemma Qgtb_true (x z : Q) : Qgtb x z = true <-> (z < x)%Q.
Proof.
  unfold Qgtb. rewrite negb_true_iff. split.
  - intros Hle. apply Qnot_le_lt. intros Hq. apply Qle_bool_iff in Hq. congruence.
  - intros Hlt. destruct (Qle_bool x z) eqn:Hle; [| reflexivity].
    apply Qle_bool_iff in Hle. exfalso. exact (Qlt_not_le _ _ Hlt Hle).
Qed.

Lemma Qgtb_false (x z : Q) : Qgtb x z = false <-> (x <= z)%Q.
Proof.
  unfold Qgtb. rewrite negb_false_iff. apply Qle_bool_iff.
Qed.

Lemma Qltb_true (x z : Q) : Qltb x z = true <-> (x < z)%Q.
Proof. unfold Qltb. apply (Qgtb_true z x). Qed.

(** Halving as a multiplication, which [lra] takes. *)
Ltac halves := unfold Qdiv in *; change (/ 2)%Q with (1 # 2)%Q in *.

Section WithMetrics.
Context `{Collaborators}.

(** A probe whose width is the target leaves the bounds and the probe
    where they are. *)
Lemma probe_on_target (targetWidth : Q) (s : search) :
  (width (sizeOfString (c s)) == targetWidth)%Q ->
  a (probe targetWidth s) = a s /\ b (probe targetWidth s) = b s
  /\ c (probe targetWidth s) = c s.
Proof.
  intros Heq. unfold probe. cbv zeta.
  destruct (Qgtb _ targetWidth) eqn:Hgt.
  { apply Qgtb_true in Hgt. rewrite Heq in Hgt. exfalso. exact (Qlt_irrefl _ Hgt). }
  destruct (Qltb _ targetWidth) eqn:Hlt.
  { apply Qltb_true in Hlt. rewrite Heq in Hlt. exfalso. exact (Qlt_irrefl _ Hlt). }
  simpl. auto.
Qed.

(** With the bounds more than 1 apart and the probe's width on the
    target, no number of turns ends the loop. *)
Lemma searchLoop_stuck (targetWidth : Q) (fuel : nat) :
  forall s : search,
  Qgtb (Qabs (a s - b s)) 1 = true ->
  (width (sizeOfString (c s)) == targetWidth)%Q ->
  searchLoop fuel targetWidth s = None.
Proof.
  induction fuel as [| fuel IH]; intros s Hgt Heq; cbn [searchLoop]; rewrite Hgt;
    [reflexivity |].
  destruct (probe_on_target targetWidth s Heq) as (Ha & Hb & Hc).
  apply IH; rewrite ?Ha, ?Hb, ?Hc; assumption.
Qed.

(** A probe off the target halves the interval and keeps the probe at its
    middle. *)
Lemma probe_halves (targetWidth : Q) (s : search) :
  (a s <= b s)%Q -> (c s == (a s + b s) / 2)%Q ->
  ~ (width (sizeOfString (c s)) == targetWidth)%Q ->
  let s' := probe targetWidth s in
  (a s' <= b s')%Q /\ (c s' == (a s' + b s') / 2)%Q
  /\ (b s' - a s' == (b s - a s) / 2)%Q /\ (a s <= a s')%Q /\ (b s' <= b s)%Q.
Proof.
  intros Hab Hc Hne. unfold probe. cbv zeta.
  destruct (Qgtb _ targetWidth) eqn:Hgt; cbn [a b c].
  { halves. repeat split; lra. }
  destruct (Qltb _ targetWidth) eqn:Hlt; cbn [a b c].
  { halves. repeat split; lra. }
  exfalso. apply Hne. apply Qgtb_false in Hgt.
  apply (Qgtb_false targetWidth) in Hlt. apply Qle_antisym; assumption.
Qed.

Lemma pow2_succ (n : nat) : (pow2 (S n) == 2 * pow2 n)%Q.
Proof.
  unfold pow2. rewrite Nat2Z.inj_succ, Z.pow_succ_r by lia.
  rewrite inject_Z_mult. reflexivity.
Qed.

(** When no probe measures the target exactly, the loop ends within [n]
    turns from an interval of width at most [2 ^ n], with the bounds at
    most 1 apart and within the interval it started from. *)
Lemma searchLoop_ends (targetWidth : Q) (n : nat) :
  (forall x, ~ (width (sizeOfString x) == targetWidth)%Q) ->
  forall s : search,
  (a s <= b s)%Q -> (c s == (a s + b s) / 2)%Q -> (b s - a s <= pow2 n)%Q ->
  exists s', searchLoop n targetWidth s = Some s'
             /\ (Qabs (a s' - b s') <= 1)%Q
             /\ (a s <= a s')%Q /\ (a s' <= b s')%Q /\ (b s' <= b s)%Q.
Proof.
  intros Hoff. induction n as [| n IH]; intros s Hab Hc Hw;
    assert (Habs : (Qabs (a s - b s) == b s - a s)%Q)
      by (rewrite Qabs_neg by lra; lra);
    cbn [searchLoop]; destruct (Qgtb (Qabs (a s - b s)) 1) eqn:Hgt.
  - apply Qgtb_true in Hgt. rewrite Habs in Hgt.
    change (pow2 0) with 1%Q in Hw. clear Hc. lra.
  - apply Qgtb_false in Hgt. exists s. clear Hc. repeat split; auto; lra.
  - destruct (probe_halves targetWidth s Hab Hc (Hoff (c s)))
      as (Hab' & Hc' & Hw' & Hlo & Hhi).
    destruct (IH (probe targetWidth s) Hab' Hc') as (s' & Hs' & Hend & H1 & H2 & H3).
    { rewrite Hw'. rewrite pow2_succ in Hw. clear Hc Hc' Hw' IH. halves. lra. }
    exists s'. clear Hc Hc' Hw' IH. repeat split; auto; lra.
  - apply Qgtb_false in Hgt. exists s. clear Hc. repeat split; auto; lra.
Qed.

(** When no probe measures the target exactly, [getSize] returns within
    10 turns. *)
Lemma getSize_ends (pageWidth pageHeight : Q) :
  (forall x, ~ (width (sizeOfString x) == targetWidthOf pageWidth pageHeight)%Q) ->
  exists r, getSize 10 pageWidth pageHeight = Some r.
Proof.
  intros Hoff. unfold getSize. cbv zeta.
  set (start := {| a := 0; b := 1000; c := (0 + 1000) / 2; measured := None |}).
  assert (Hab : (a start <= b start)%Q) by discriminate.
  assert (Hc : (c start == (a start + b start) / 2)%Q) by reflexivity.
  assert (Hw : (b start - a start <= pow2 10)%Q) by discriminate.
  destruct (searchLoop_ends (targetWidthOf pageWidth pageHeight) 10 Hoff
              start Hab Hc Hw) as (s' & Hs' & _).
  rewrite Hs'. eauto.
Qed.

End WithMetrics.

(** C6. On a page of 300 by 400 the target width is 400; for a text whose
    measured width is 0.8 times the font size, which is monotone, 0 at
    size 0 and 800 at size 1000, the first probe, at size 500, measures
    the target exactly, and no number of turns ends the loop. *)
Theorem getSize_diverges_on_exact_width (fuel : nat) :
  (forall x z : Q, (x <= z)%Q ->
     (width (sizeOfString x) <= width (sizeOfString z))%Q)
  /\ (width (sizeOfString 0) < targetWidthOf 300 400)%Q
  /\ (targetWidthOf 300 400 < width (sizeOfString 1000))%Q
  /\ (width (sizeOfString 500) == targetWidthOf 300 400)%Q
  /\ getSize fuel 300 400 = None.
Proof.
  split.
  { intros x z Hle. simpl. apply Qmult_le_compat_r; [exact Hle | discriminate]. }
  split; [reflexivity |]. split; [reflexivity |]. split; [reflexivity |].
  unfold getSize. rewrite searchLoop_stuck; reflexivity.
Qed.

End WatermarkFacts.

Module PageBreakFacts.
Import PageBreak.

Lemma indexOf_fresh (e : Z) (pre post : list Z) :
  e ∉ pre -> indexOf e (pre ++ e :: post) = Some (length pre).
Proof.
  induction pre as [| x pre IH]; simpl; intros Hout.
  - rewrite Z.eqb_refl. reflexivity.
  - apply not_elem_of_cons in Hout as [Hne Hout].
    destruct (Z.eqb_spec x e) as [-> | _]; [congruence |].
    rewrite IH by auto. reflexivity.
Qed.

Lemma indexOf_seen (e : Z) (pre post : list Z) :
  e ∈ pre -> exists i, indexOf e (pre ++ post) = Some i /\ (i < length pre)%nat.
Proof.
  induction pre as [| x pre IH]; simpl; intros Hin; [inversion Hin |].
  destruct (Z.eqb_spec x e) as [-> | Hne].
  - exists 0%nat. split; [reflexivity | lia].
  - apply elem_of_cons in Hin as [-> | Hin]; [congruence |].
    destruct (IH Hin) as (i & Hi & Hlt). rewrite Hi. exists (S i).
    split; [reflexivity | lia].
Qed.

(** The filter keeps, of [rest], what has not occurred before. *)
Lemma firstOccurrences_elem (z : Z) (rest : list Z) :
  forall pre : list Z,
  z ∈ firstOccurrences (pre ++ rest) (length pre) rest <-> z ∈ rest /\ z ∉ pre.
Proof.
  induction rest as [| e rest IH]; intros pre; simpl.
  - split; [intros Hin; inversion Hin | intros [Hin _]; inversion Hin].
  - specialize (IH (pre ++ [e])).
    rewrite <- app_assoc, length_app in IH. simpl in IH.
    replace (length pre + 1)%nat with (S (length pre)) in IH by lia.
    destruct (decide (e ∈ pre)) as [Hseen | Hfresh].
    + destruct (indexOf_seen e pre (e :: rest) Hseen) as (i & -> & Hlt).
      destruct (Nat.eqb_spec i (length pre)) as [-> | _]; [lia |].
      rewrite IH. rewrite elem_of_cons, not_elem_of_app, list_elem_of_singleton.
      split.
      * intros (Hin & Hout & Hne). auto.
      * intros [[-> | Hin] Hout]; [contradiction |].
        repeat split; auto. intros ->. contradiction.
    + rewrite (indexOf_fresh e pre rest Hfresh), Nat.eqb_refl.
      rewrite !elem_of_cons, IH, not_elem_of_app, list_elem_of_singleton.
      split.
      * intros [-> | (Hin & Hout & Hne)]; auto.
      * intros [[-> | Hin] Hout]; [auto |].
        destruct (decide (z = e)) as [-> | Hne]; auto.
Qed.

Lemma existsb_elem (z : Z) (l : list Z) : existsb (Z.eqb z) l = true <-> z ∈ l.
Proof.
  rewrite existsb_exists. split.
  - intros (x & Hin & Heq). apply Z.eqb_eq in Heq as ->.
    apply list_elem_of_In. exact Hin.
  - intros Hin. exists z. split; [apply list_elem_of_In, Hin | apply Z.eqb_refl].
Qed.

(** A page is among a node's page numbers exactly when one of its
    positions is on it. *)
Lemma pageNumbersOf_includes (z : Z) (ps : list position) :
  existsb (Z.eqb z) (pageNumbersOf ps)
  = existsb (fun pos => pageNumber pos =? z) ps.
Proof.
  apply eq_true_iff_eq. rewrite existsb_elem. unfold pageNumbersOf.
  rewrite (firstOccurrences_elem z (map pageNumber ps) []).
  rewrite existsb_exists. split.
  - intros [Hin _]. apply list_elem_of_fmap in Hin as (pos & -> & Hpos).
    exists pos. split; [apply list_elem_of_In, Hpos | apply Z.eqb_refl].
  - intros (pos & Hpos & Heq). apply Z.eqb_eq in Heq as <-.
    split; [| intros Hin; inversion Hin].
    apply list_elem_of_fmap. exists pos. split; [reflexivity |].
    apply list_elem_of_In, Hpos.
Qed.

(** The first page number is the page of the first position. *)
Lemma pageNumbersOf_head (ps : list position) :
  head (pageNumbersOf ps) = option_map pageNumber (head ps).
Proof.
  destruct ps as [| pos ps]; [reflexivity |].
  unfold pageNumbersOf. simpl. rewrite Z.eqb_refl. reflexivity.
Qed.

Lemma node_insert (h : store) (l : nat) (n : node) : deref (<[l := n]> h) l = n.
Proof. unfold deref. rewrite lookup_insert_eq. reflexivity. Qed.

Lemma node_insert_ne (h : store) (l l' : nat) (n : node) :
  l <> l' -> deref (<[l := n]> h) l' = deref h l'.
Proof. intros Hne. unfold deref. rewrite lookup_insert_ne; auto. Qed.

Lemma annotate_known (k : nat) (h : store) (l l' : nat) :
  (l' = l \/ known h l') -> known (annotate k h l) l'.
Proof.
  unfold known, annotate, infoAt. intros Hl'.
  destruct (decide (l = l')) as [<- | Hne].
  - rewrite node_insert. reflexivity.
  - rewrite node_insert_ne by auto. destruct Hl' as [-> | Hk]; [congruence | auto].
Qed.

Lemma fold_annotate_known (k : nat) (nodes : list nat) :
  forall (h : store) (l : nat),
  l ∈ nodes \/ known h l -> known (fold_left (annotate k) nodes h) l.
Proof.
  induction nodes as [| x nodes IH]; simpl; intros h l Hl.
  - destruct Hl as [Hl | Hl]; [inversion Hl | exact Hl].
  - apply IH. destruct Hl as [Hl | Hl].
    + apply elem_of_cons in Hl as [-> | Hl]; [| auto].
      right. apply annotate_known. auto.
    + right. apply annotate_known. auto.
Qed.

Lemma setCalculated_known (h : store) (l l' : nat) :
  known h l' -> known (<[l := setCalculated (deref h l)]> h) l'.
Proof.
  unfold known, infoAt. intros Hk.
  destruct (decide (l = l')) as [<- | Hne].
  - rewrite node_insert. exact Hk.
  - rewrite node_insert_ne by auto. exact Hk.
Qed.

Lemma setCalculated_positions (h : store) (l l' : nat) :
  positions (deref (<[l := setCalculated (deref h l)]> h) l')
  = positions (deref h l').
Proof.
  destruct (decide (l = l')) as [<- | Hne].
  - rewrite node_insert. reflexivity.
  - rewrite node_insert_ne by auto. reflexivity.
Qed.

Lemma filter_ext_elem {A : Type} (f g : A -> bool) (l : list A) :
  (forall x, x ∈ l -> f x = g x) -> List.filter f l = List.filter g l.
Proof.
  intros Hfg. apply filter_ext_in. intros x Hx. apply Hfg, list_elem_of_In, Hx.
Qed.

Lemma elem_of_drop_take {A : Type} (x : A) (l : list A) (i : nat) :
  (x ∈ drop i l -> x ∈ l) /\ (x ∈ take i l -> x ∈ l).
Proof.
  rewrite <- (take_drop i l) at 2 4. rewrite elem_of_app. auto.
Qed.

(** With the pages known, [includes] on a summary is a test on the node's
    positions. *)
Lemma includesPage_touches (h : store) (nodes : list nat) (l l0 : nat)
  (page : option Z) :
  pagesKnown h nodes -> l0 ∈ nodes ->
  includesPage (<[l := setCalculated (deref h l)]> h) page l0 = touches h page l0.
Proof.
  intros Hk Hl0. unfold includesPage, touches, touchesPage.
  destruct page as [z |]; [| reflexivity].
  pose proof (setCalculated_known h l l0 (Hk l0 Hl0)) as Hk'. unfold known in Hk'.
  rewrite Hk', setCalculated_positions. apply pageNumbersOf_includes.
Qed.

Section WithPredicate.
Context {PS Pg E : Type} `{Collaborators Pg E}.

Lemma reach_trans (fct : predicate PS) (s s' s'' : PS) :
  reach fct s s' -> reach fct s' s'' -> reach fct s s''.
Proof.
  intros Hs Hs'. induction Hs' as [| s1 i f n p _ IH]; [exact Hs |].
  apply reach_call, IH.
Qed.

Lemma quiet_reach (fct : predicate PS) (s s' : PS) :
  quiet fct s -> reach fct s s' -> quiet fct s'.
Proof.
  intros Hq Hr s'' i f n p Hr'. apply Hq. exact (reach_trans _ _ _ _ Hr Hr').
Qed.

Lemma atMostOnce_reach (fct : predicate PS) (s s' : PS) :
  atMostOnce fct s -> reach fct s s' -> atMostOnce fct s'.
Proof.
  intros Ha Hr s'' i f n p Hr'. apply Ha. exact (reach_trans _ _ _ _ Hr Hr').
Qed.

Lemma setCalculated_isBefore (h : store) (l l' : nat) :
  isBefore (deref (<[l := setCalculated (deref h l)]> h) l')
  = isBefore (deref h l').
Proof.
  destruct (decide (l = l')) as [<- | Hne].
  - rewrite node_insert. reflexivity.
  - rewrite node_insert_ne by auto. reflexivity.
Qed.

Lemma setPageBreak_before (n : node) : isBefore (setPageBreak (JStr "before") n) = true.
Proof.
  unfold isBefore, prop, setPageBreak. simpl. rewrite lookup_insert_eq. reflexivity.
Qed.

Lemma annotate_geometry (k : nat) (h : store) (l l' : nat) :
  geometry (deref (annotate k h l) l') = geometry (deref h l')
  /\ isBefore (deref (annotate k h l) l') = isBefore (deref h l').
Proof.
  unfold annotate. destruct (decide (l = l')) as [<- | Hne].
  - rewrite node_insert. split; reflexivity.
  - rewrite node_insert_ne by auto. split; reflexivity.
Qed.

Lemma fold_annotate_geometry (k : nat) (nodes : list nat) :
  forall (h : store) (l : nat),
  geometry (deref (fold_left (annotate k) nodes h) l) = geometry (deref h l)
  /\ isBefore (deref (fold_left (annotate k) nodes h) l) = isBefore (deref h l).
Proof.
  induction nodes as [| x nodes IH]; simpl; intros h l; [auto |].
  destruct (IH (annotate k h x) l) as [-> ->]. apply annotate_geometry.
Qed.

(** The scan changes no coordinates, positions or [resetXY], and leaves
    the predicate in a state it can be in. *)
Lemma scan_frame (fct : predicate PS) (nodes : list nat) (rest : list nat) :
  forall (index : nat) (h : store) (ps : PS) fired h' ps',
  scan fct nodes index rest h ps = (fired, h', ps') ->
  reach fct ps ps' /\ forall l, geometry (deref h' l) = geometry (deref h l).
Proof.
  induction rest as [| l0 rest IH]; simpl; intros index h ps fired h' ps' Hs.
  - injection Hs as _ <- <-. split; [constructor | reflexivity].
  - destruct (negb (isBefore (deref h l0)) && negb (pageBreakCalculated (deref h l0))).
    + set (h1 := <[l0 := setCalculated (deref h l0)]> h) in *.
      assert (Hg1 : forall l, geometry (deref h1 l) = geometry (deref h l)).
      { intros l. unfold h1. destruct (decide (l0 = l)) as [<- | Hne].
        - rewrite node_insert. reflexivity.
        - rewrite node_insert_ne by auto. reflexivity. }
      match type of Hs with
      | context [fct ps ?i ?f ?n ?p] =>
        pose proof (reach_call fct ps ps i f n p (reach_here fct ps)) as Hr;
        destruct (fct ps i f n p) as [[|] ps1] eqn:Hf
      end; simpl in Hr.
      * injection Hs as _ <- <-. split; [exact Hr |]. intros l.
        rewrite <- Hg1. destruct (decide (l0 = l)) as [<- | Hne].
        -- rewrite node_insert. reflexivity.
        -- rewrite node_insert_ne by auto. reflexivity.
      * apply IH in Hs as [Hr' Hg]. split; [exact (reach_trans _ _ _ _ Hr Hr') |].
        intros l. rewrite Hg. apply Hg1.
    + apply IH in Hs. exact Hs.
Qed.

(** From a quiet state the scan finds nothing. *)
Lemma scan_quiet (fct : predicate PS) (nodes : list nat) (rest : list nat) :
  forall (index : nat) (h : store) (ps : PS),
  quiet fct ps -> fst (fst (scan fct nodes index rest h ps)) = false.
Proof.
  induction rest as [| l0 rest IH]; simpl; intros index h ps Hq; [reflexivity |].
  destruct (negb (isBefore (deref h l0)) && negb (pageBreakCalculated (deref h l0)));
    [| apply IH, Hq].
  match goal with
  | |- context [fct ps ?i ?f ?n ?p] =>
    pose proof (Hq ps i f n p (reach_here fct ps)) as Hfalse;
    pose proof (reach_call fct ps ps i f n p (reach_here fct ps)) as Hr;
    destruct (fct ps i f n p) as [fired ps1]
  end.
  simpl in Hfalse, Hr. subst fired. apply IH. exact (quiet_reach _ _ _ Hq Hr).
Qed.

(** When the scan fires, the predicate is quiet from then on, and the node
    it fired for, which was not marked, is marked ['before']. *)
Lemma scan_fired (fct : predicate PS) (nodes : list nat) (rest : list nat) :
  forall (index : nat) (h : store) (ps : PS) h' ps',
  atMostOnce fct ps ->
  scan fct nodes index rest h ps = (true, h', ps') ->
  quiet fct ps'
  /\ exists l, l ∈ rest /\ isBefore (deref h l) = false
               /\ isBefore (deref h' l) = true.
Proof.
  induction rest as [| l0 rest IH]; simpl; intros index h ps h' ps' Ha Hs;
    [discriminate |].
  destruct (negb (isBefore (deref h l0)) && negb (pageBreakCalculated (deref h l0)))
    eqn:Hguard.
  - apply andb_prop in Hguard as [Hb _]. apply negb_true_iff in Hb.
    match type of Hs with
    | context [fct ps ?i ?f ?n ?p] =>
      pose proof (Ha ps i f n p (reach_here fct ps)) as Hquiet;
      pose proof (reach_call fct ps ps i f n p (reach_here fct ps)) as Hr;
      destruct (fct ps i f n p) as [[|] ps1]
    end; simpl in Hquiet, Hr.
    + injection Hs as <- <-. split; [apply Hquiet; reflexivity |].
      exists l0. split; [left |]. split; [exact Hb |].
      rewrite node_insert. apply setPageBreak_before.
    + destruct (IH _ _ _ _ _ (atMostOnce_reach _ _ _ Ha Hr) Hs)
        as (Hq & l & Hl & Hbl & Hbl').
      split; [exact Hq |]. exists l. split; [right; exact Hl |].
      split; [| exact Hbl']. rewrite setCalculated_isBefore in Hbl. exact Hbl.
  - destruct (IH _ _ _ _ _ Ha Hs) as (Hq & l & Hl & Hbl & Hbl').
    split; [exact Hq |]. exists l. split; [right; exact Hl | auto].
Qed.


Lemma resetVectors_total (vs : list vector) :
  Forall (fun v => is_Some (captured v)) vs -> exists vs', resetVectors vs = Ok vs'.
Proof.
  induction vs as [| v vs IH]; simpl; intros Hvs; [eauto |].
  apply Forall_cons in Hvs as [[c Hc] Hvs]. destruct (IH Hvs) as [vs' Hvs'].
  unfold resetVector. rewrite Hc, Hvs'. simpl. eauto.
Qed.

Lemma resetVectors_captured (vs : list vector) :
  forall vs', resetVectors vs = Ok vs' ->
  Forall (fun v => captured v = Some (current v)) vs'
  /\ Forall (fun v => is_Some (captured v)) vs'.
Proof.
  induction vs as [| v vs IH]; simpl; intros vs' Hr.
  - injection Hr as <-. split; constructor.
  - unfold resetVector in Hr. destruct (captured v) as [c |] eqn:Hc;
      [| discriminate].
    simpl in Hr. destruct (resetVectors vs) as [vs1 |]; [| discriminate].
    simpl in Hr. injection Hr as <-. destruct (IH vs1 eq_refl) as [H1 H2].
    split; constructor; simpl; eauto.
Qed.

Lemma callResetXY_total (n : node) :
  decorated n -> exists n', callResetXY n = Ok n'.
Proof.
  intros [[[x0 y0] Hr] Hvs]. unfold callResetXY. rewrite Hr.
  destruct (canvas n) as [vs |]; [| eauto].
  destruct (resetVectors_total vs (Hvs vs eq_refl)) as [vs' ->]. simpl. eauto.
Qed.

Lemma callResetXY_captured (n n' : node) :
  callResetXY n = Ok n' ->
  atCapturedCoordinates n' /\ decorated n' /\ isBefore n' = isBefore n.
Proof.
  unfold callResetXY. destruct (resetXY n) as [[x0 y0] |] eqn:Hr; [| discriminate].
  destruct (canvas n) as [vs |].
  - destruct (resetVectors vs) as [vs' |] eqn:Hvs; [| discriminate].
    simpl. intros [= <-]. destruct (resetVectors_captured vs vs' Hvs) as [H1 H2].
    unfold atCapturedCoordinates, decorated. simpl. rewrite Hr.
    repeat split; eauto; intros ? [= <-]; assumption.
  - intros [= <-]. unfold atCapturedCoordinates, decorated. simpl. rewrite Hr.
    repeat split; eauto; intros ? [=].
Qed.

Lemma decorated_geometry (n n' : node) :
  geometry n = geometry n' -> decorated n -> decorated n'.
Proof.
  unfold geometry, decorated. intros [= _ _ -> -> _]. auto.
Qed.

(** [resetXYs] succeeds on decorated nodes; it leaves every node of the
    list at its captured coordinates, the other nodes as they are, and no
    node's [pageBreak] changed. *)
Lemma resetXYs_captured (nodes : list nat) :
  forall h : store,
  (forall l, l ∈ nodes -> decorated (deref h l)) ->
  exists h2, resetXYs nodes h = Ok h2
    /\ (forall l, l ∈ nodes -> atCapturedCoordinates (deref h2 l))
    /\ (forall l, l ∉ nodes -> deref h2 l = deref h l)
    /\ (forall l, isBefore (deref h2 l) = isBefore (deref h l)).
Proof.
  induction nodes as [| l0 nodes IH]; simpl; intros h Hd.
  - exists h. split; [reflexivity |]. split; [| auto].
    intros l Hl. inversion Hl.
  - destruct (callResetXY_total (deref h l0)) as [n' Hn']; [apply Hd; left |].
    rewrite Hn'. simpl.
    destruct (callResetXY_captured _ _ Hn') as (Hcap & Hdec & Hbef).
    destruct (IH (<[l0 := n']> h)) as (h2 & Hr & Hin & Hout & Hb).
    { intros l Hl. destruct (decide (l0 = l)) as [<- | Hne].
      - rewrite node_insert. exact Hdec.
      - rewrite node_insert_ne by auto. apply Hd. right. exact Hl. }
    exists h2. split; [exact Hr |]. split; [| split].
    + intros l Hl. destruct (decide (l ∈ nodes)) as [Hl' | Hl']; [auto |].
      apply elem_of_cons in Hl as [-> | Hl]; [| contradiction].
      rewrite (Hout l0 Hl'), node_insert. exact Hcap.
    + intros l Hl. apply not_elem_of_cons in Hl as [Hne Hl].
      rewrite (Hout l Hl), node_insert_ne by auto. reflexivity.
    + intros l. rewrite Hb. destruct (decide (l0 = l)) as [<- | Hne].
      * rewrite node_insert. exact Hbef.
      * rewrite node_insert_ne by auto. reflexivity.
Qed.

Lemma traversals_two (nodes : list nat) :
  traversals (Traversal :: map Reset nodes ++ [Traversal]) = 2%nat.
Proof.
  unfold traversals. simpl. rewrite List.filter_app, length_app. simpl.
  assert (Hn : List.filter isTraversal (map Reset nodes) = []).
  { induction nodes as [| l nodes IH]; simpl; auto. }
  rewrite Hn. reflexivity.
Qed.

Lemma elem_of_withPositions (h : store) (nodes : list nat) (l : nat) :
  l ∈ withPositions h nodes -> l ∈ nodes.
Proof.
  unfold withPositions. intros Hl. apply list_elem_of_In in Hl.
  apply filter_In in Hl as [Hl _]. apply list_elem_of_In, Hl.
Qed.

Lemma layoutLoop_quiet (fct : predicate PS) (fuel : nat) (r : attempt Pg)
  (h : store) (ps : PS) (e : E) (lg : list event) :
  quiet fct ps ->
  exists out, layoutLoop fuel (Some fct) r h ps e lg = Some (Ok out)
              /\ returned out = resultPages r /\ log out = lg.
Proof.
  intros Hq.
  pose proof (scan_quiet fct (withPositions h (linearNodeList r))
                (withPositions h (linearNodeList r)) 0
                (fold_left (annotate (length (resultPages r)))
                           (withPositions h (linearNodeList r)) h) ps Hq) as Hs.
  destruct fuel; simpl; unfold addPageBreaksIfNecessary;
    destruct (scan fct _ 0 _ _ ps) as [[fired h'] ps']; simpl in Hs; subst fired;
    eexists; repeat split; reflexivity.
Qed.


(** C4, as the code has it. The first [forEach] leaves every node of the
    filtered list with its pages listed. Then, when the scan reaches a
    node that is to be evaluated, whose first position is on page [p],
    the predicate is called with the summaries of: the later nodes of the
    list with a position on page [p]; the later nodes with a position on
    page [p + 1], wherever they begin; and the earlier nodes with a
    position on page [p]; each in visiting order. *)
Theorem nodesOnNextPage_touch_next_page (fct : predicate PS)
  (nodes0 : list nat) (pagesLength : nat) (h0 : store)
  (nodes : list nat) (index l : nat) (rest : list nat) (h : store) (ps : PS) :
  pagesKnown (fold_left (annotate pagesLength) (withPositions h0 nodes0) h0)
             (withPositions h0 nodes0)
  /\ (pagesKnown h nodes -> l ∈ nodes ->
      isBefore (deref h l) = false -> pageBreakCalculated (deref h l) = false ->
      let h1 := <[l := setCalculated (deref h l)]> h in
      let p := firstPage h l in
      let following := List.filter (touches h p) (drop (S index) nodes) in
      let next := List.filter (touches h (option_map (fun z => z + 1) p))
                              (drop (S index) nodes) in
      let previous := List.filter (touches h p) (take index nodes) in
      pagesKnown h1 nodes
      /\ scan fct nodes index (l :: rest) h ps
         = let '(fired, ps') :=
             fct ps (infoAt h1 l) (map (infoAt h1) following)
                 (map (infoAt h1) next) (map (infoAt h1) previous) in
           if fired
           then (true, <[l := setPageBreak (JStr "before") (deref h1 l)]> h1, ps')
           else scan fct nodes (S index) rest h1 ps').
Proof.
  split.
  { intros l0 Hl0. apply fold_annotate_known. auto. }
  intros Hk Hl Hb Hc h1 p following next previous.
  assert (Hk1 : pagesKnown h1 nodes).
  { intros l0 Hl0. apply setCalculated_known, Hk, Hl0. }
  split; [exact Hk1 |].
  simpl. rewrite Hb, Hc. simpl. fold h1.
  assert (Hp : head (pageNumbers (infoAt h1 l)) = p).
  { rewrite (Hk1 l Hl). unfold h1. rewrite setCalculated_positions.
    apply pageNumbersOf_head. }
  rewrite Hp.
  assert (Hf : followingNodesOnPage h1 nodes index p = following).
  { apply filter_ext_elem. intros l0 Hl0.
    apply (includesPage_touches h nodes l l0 p Hk).
    apply (proj1 (elem_of_drop_take l0 nodes (S index))), Hl0. }
  assert (Hn : nodesOnNextPage h1 nodes index p = next).
  { apply filter_ext_elem. intros l0 Hl0.
    apply (includesPage_touches h nodes l l0 _ Hk).
    apply (proj1 (elem_of_drop_take l0 nodes (S index))), Hl0. }
  assert (Hv : previousNodesOnPage h1 nodes index p = previous).
  { apply filter_ext_elem. intros l0 Hl0.
    apply (includesPage_touches h nodes l l0 p Hk).
    apply (proj2 (elem_of_drop_take l0 nodes index)), Hl0. }
  rewrite Hf, Hn, Hv. reflexivity.
Qed.

End WithPredicate.

Lemma never_atMostOnce : atMostOnce Samples.never tt.
Proof. intros s' i f n p _ Hf. discriminate. Qed.

Lemma onceForSplit_quiet : quiet Samples.onceForSplit true.
Proof.
  assert (Hr : forall s, reach Samples.onceForSplit true s -> s = true).
  { intros s Hs. induction Hs as [| s' i f n p _ ->]; reflexivity. }
  intros s' i f n p Hs. rewrite (Hr s' Hs). reflexivity.
Qed.

Lemma onceForSplit_atMostOnce : atMostOnce Samples.onceForSplit false.
Proof.
  intros s' i f n p _ Hf. unfold Samples.onceForSplit in *.
  destruct s'; [discriminate |].
  destruct (1 <? length (pageNumbers i))%nat; [| discriminate].
  exact onceForSplit_quiet.
Qed.



(** C4 as stated fails: for the first node, which starts on page 1, the
    third argument holds the second node, which starts on page 1 too, not
    on page 2. *)
Lemma nodesOnNextPage_holds_node_of_same_page :
  map (firstPage Samples.afterFirstTraversal) [0%nat; 1%nat] = [Some 1; Some 1]
  /\ snd (addPageBreaksIfNecessary (Some Samples.recorder) [0%nat; 1%nat] 2
            Samples.afterFirstTraversal [])
     = [(Some 1, [Some 1]); (Some 1, [])].
Proof. split; vm_compute; reflexivity. Qed.

Lemma nodesOnNextPage_touch_next_page_witness :
  let h := fold_left (annotate 2) [0%nat; 1%nat] Samples.afterFirstTraversal in
  pagesKnown (<[0%nat := setCalculated (deref h 0)]> h) [0%nat; 1%nat]
  /\ firstPage h 0 = Some 1
  /\ List.filter (touches h (Some 2)) (drop 1 [0%nat; 1%nat]) = [1%nat].
Proof.
  intros h.
  destruct (nodesOnNextPage_touch_next_page Samples.recorder [0%nat; 1%nat] 2
              Samples.afterFirstTraversal [0%nat; 1%nat] 0 0 [1%nat] h [])
    as [Hk Hstep].
  destruct (Hstep Hk ltac:(left) eq_refl eq_refl) as [Hk1 _].
  split; [exact Hk1 |]. split; vm_compute; reflexivity.
Defined.

End PageBreakFacts.

Module LineRunsFacts.
Import LinePacker LineRuns.

Lemma string_app_assoc (s t u : string) :
  ((s ++ t) ++ u)%string = (s ++ t ++ u)%string.
Proof.
  induction s as [| ch s IH]; [reflexivity |].
  rewrite !LinePackerFacts.append_cons, IH. reflexivity.
Qed.

Lemma string_app_nil_r (s : string) : (s ++ "")%string = s.
Proof.
  induction s as [| ch s IH]; [reflexivity |].
  rewrite LinePackerFacts.append_cons, IH. reflexivity.
Qed.

Lemma queueText_app (q1 q2 : list inline) :
  queueText (q1 ++ q2) = (queueText q1 ++ queueText q2)%string.
Proof.
  induction q1 as [| run q1 IH]; [reflexivity |].
  simpl. rewrite IH, string_app_assoc. reflexivity.
Qed.

Section WithLine.
Context {L W P : Type} `{Collaborators L W P}.

Lemma hardWrap_texts (ln : L) (run head tail : inline) :
  hardWrap ln run = Some (head, tail) ->
  (text head ++ text tail)%string = text run.
Proof.
  unfold hardWrap. intros Hw.
  destruct (oversized ln run); [| discriminate]. cbv zeta in Hw.
  destruct (Z.ltb_spec (maxCharsOf run (getAvailableWidth ln))
                       (Z.of_nat (String.length (text run)))); [| discriminate].
  pose proof (LinePackerFacts.maxCharsOf_ge_1 run (getAvailableWidth ln)).
  injection Hw as <- <-. simpl. apply LinePackerFacts.substring_split. lia.
Qed.

(** A turn puts one run on the line; the text on the line and in the
    queue together stays what it was; and when the turn does not force the
    next one, the run may end the line. *)
Lemma packStep_run (ln : L) (run : inline) (rest : list inline) :
  exists r0,
    packStep ln run rest
    = (addInline ln r0, snd (fst (packStep ln run rest)),
       snd (packStep ln run rest))
    /\ (text r0 ++ queueText (snd (fst (packStep ln run rest))))%string
       = (text run ++ queueText rest)%string
    /\ (snd (packStep ln run rest) = false ->
        endsLine r0 (snd (fst (packStep ln run rest)))).
Proof.
  unfold packStep. destruct (hardWrap ln run) as [[head tail] |] eqn:Hw; simpl.
  - exists head. split; [reflexivity |]. split.
    + rewrite <- string_app_assoc, (hardWrap_texts _ _ _ _ Hw). reflexivity.
    + intros _. right. right. exists ln, run, tail, rest. auto.
  - exists run. split; [reflexivity |]. split; [reflexivity |].
    intros Hn. left. exact Hn.
Qed.

Section KeepsRuns.
(** A line keeps the runs it is given, in order, as [Line.addInline] does
    by pushing them on [this.inlines]. *)
Variable runsOf : L -> list inline.
Hypothesis runsOf_new : forall maxWidth, runsOf (newLine maxWidth) = [].
Hypothesis runsOf_add :
  forall ln run, runsOf (addInline ln run) = runsOf ln ++ [run].

Lemma packLoop_runs (fuel : nat) :
  forall (ln : L) (queue : list inline) (force : bool) ln' queue',
  packLoop fuel ln queue force = Some (ln', queue') ->
  exists added,
    runsOf ln' = runsOf ln ++ added
    /\ (queueText added ++ queueText queue')%string = queueText queue
    /\ (added = [] -> queue' = queue /\ (queue = [] \/ force = false))
    /\ (forall r, last added = Some r -> endsLine r queue').
Proof.
  assert (Hstop : forall (ln : L) (queue : list inline) (force : bool),
    queue = [] \/ force = false ->
    exists added : list inline,
      runsOf ln = runsOf ln ++ added
      /\ (queueText added ++ queueText queue)%string = queueText queue
      /\ (added = [] -> queue = queue /\ (queue = [] \/ force = false))
      /\ (forall r, last added = Some r -> endsLine r queue)).
  { intros ln queue force Hq. exists []. rewrite app_nil_r.
    repeat split; auto. intros r Hr. discriminate. }
  induction fuel as [| fuel IH]; intros ln queue force ln' queue' Hl;
    destruct queue as [| run rest]; simpl in Hl;
    try (injection Hl as <- <-; apply (Hstop ln [] force); auto);
    destruct (hasEnoughSpaceForInline ln run rest || force) eqn:Hg;
    try discriminate;
    try (injection Hl as <- <-; apply (Hstop ln (run :: rest) force);
         apply orb_false_elim in Hg as [_ ->]; auto).
  destruct (packStep_run ln run rest) as (r0 & Hstep & Htext & Hend).
  destruct (packStep ln run rest) as [[ln1 q1] f1]. simpl in *.
  injection Hstep as ->.
  destruct (IH _ _ _ _ _ Hl) as (added & Hruns & Htxt & Hnil & Hlast).
  exists (r0 :: added). rewrite Hruns, runsOf_add, <- app_assoc.
  split; [reflexivity |]. split.
  { simpl. rewrite string_app_assoc, Htxt. exact Htext. }
  split; [discriminate |].
  intros r Hr. destruct added as [| r1 added].
  - simpl in Hr. injection Hr as <-.
    destruct (Hnil eq_refl) as [Hq [Hq1 | Hf1]]; subst queue'.
    + right. left. exact Hq1.
    + apply Hend, Hf1.
  - apply Hlast. rewrite last_cons in Hr.
    destruct (last (r1 :: added)) eqn:Hl1; [exact Hr |].
    apply last_None in Hl1. discriminate.
Qed.

Lemma buildNextLine_runs (avail : Q) (node : textNode P) :
  pending node <> [] ->
  exists l node',
    buildNextLine avail node = Some (Some l, node')
    /\ _inlines node' = Some (pending node')
    /\ (queueText (runsOf (body l)) ++ queueText (pending node'))%string
       = queueText (pending node)
    /\ (forall r, last (runsOf (body l)) = Some r -> endsLine r (pending node')).
Proof.
  intros Hq.
  assert (Hsome : exists run rest, _inlines node = Some (run :: rest)).
  { unfold pending in Hq. destruct (_inlines node) as [[| run rest] |];
      try contradiction. eauto. }
  destruct Hsome as (run & rest & Hn).
  destruct (LinePackerFacts.packLoop_total (queueWeight (run :: rest))
              (newLine avail) (run :: rest) false (le_n _)) as [[ln queue'] Hl].
  unfold buildNextLine. rewrite Hn, Hl. eexists _, _. split; [reflexivity |].
  unfold pending. rewrite Hn. cbn [_inlines body default from_option id].
  destruct (packLoop_runs _ _ _ _ _ _ Hl) as (added & Hruns & Htxt & _ & Hlast).
  rewrite runsOf_new in Hruns. simpl in Hruns. subst added. auto.
Qed.

(** X1. [buildNextLine] on a node with pending runs returns a line, and
    the text of the runs on that line followed by the text of the runs
    left in the queue is the text of the queue before the call: splitting
    runs moves text, it never drops or repeats any. *)
Theorem buildNextLine_keeps_text (avail : Q) (node : textNode P) :
  pending node <> [] ->
  exists l node',
    buildNextLine avail node = Some (Some l, node')
    /\ (queueText (runsOf (body l)) ++ queueText (pending node'))%string
       = queueText (pending node).
Proof.
  intros Hq. destruct (buildNextLine_runs avail node Hq) as (l & node' & Hb & _ & Ht & _).
  exists l, node'. auto.
Qed.

(** X2. The last run of a line that [buildNextLine] returns allows a line
    break after it ([noNewLine] not set), unless the queue is left empty
    or the run is the head of a hard wrap whose tail is first in the
    queue. *)
Theorem buildNextLine_line_end (avail : Q) (node : textNode P) :
  pending node <> [] ->
  exists l node',
    buildNextLine avail node = Some (Some l, node')
    /\ forall r, last (runsOf (body l)) = Some r -> endsLine r (pending node').
Proof.
  intros Hq. destruct (buildNextLine_runs avail node Hq) as (l & node' & Hb & _ & _ & He).
  exists l, node'. auto.
Qed.

End KeepsRuns.

Lemma packLoop_lighter (fuel : nat) :
  forall (ln : L) (queue : list inline) (force : bool) ln' queue',
  packLoop fuel ln queue force = Some (ln', queue') ->
  (queueWeight queue' <= queueWeight queue)%nat
  /\ (forall run rest, queue = run :: rest ->
        hasEnoughSpaceForInline ln run rest || force = true ->
        (queueWeight queue' < queueWeight queue)%nat).
Proof.
  induction fuel as [| fuel IH]; intros ln queue force ln' queue' Hl;
    destruct queue as [| run rest]; simpl in Hl;
    try (injection Hl as <- <-; split; [lia | intros ? ? [=]]);
    destruct (hasEnoughSpaceForInline ln run rest || force) eqn:Hg;
    try discriminate;
    try (injection Hl as <- <-; split; [lia |];
         intros ? ? [= <- <-] Hg'; congruence).
  pose proof (LinePackerFacts.packStep_weight ln run rest) as Hlt.
  destruct (packStep ln run rest) as [[ln1 q1] f1]. simpl in Hlt.
  destruct (IH _ _ _ _ _ Hl) as [Hle _].
  split; [lia |]. intros ? ? [= <- <-] _. lia.
Qed.

Section AcceptsFirst.
(** An empty line takes any run, as [Line.hasEnoughSpaceForInline] does
    when [this.inlines] is empty. *)
Hypothesis first_fits :
  forall maxWidth run rest,
    hasEnoughSpaceForInline (newLine maxWidth) run rest = true.

Lemma buildNextLine_progress (avail : Q) (node : textNode P)
  (run : inline) (rest : list inline) :
  _inlines node = Some (run :: rest) ->
  exists l queue',
    buildNextLine avail node
    = Some (Some l, {| _inlines := Some queue'; maxHeight := maxHeight node;
                       node_tocItemRef := node_tocItemRef node;
                       node_pageRef := node_pageRef node;
                       positions := positions node |})
    /\ (queueWeight queue' < queueWeight (run :: rest))%nat.
Proof.
  intros Hq. unfold buildNextLine. rewrite Hq.
  destruct (LinePackerFacts.packLoop_total (queueWeight (run :: rest))
              (newLine avail) (run :: rest) false (le_n _)) as [[ln queue'] Hl].
  rewrite Hl. eexists _, queue'. split; [reflexivity |].
  destruct (packLoop_lighter _ _ _ _ _ _ Hl) as [_ Hlt].
  apply (Hlt run rest eq_refl). rewrite first_fits. reflexivity.
Qed.

(** The loop of [processLeaf] without a height cap writes lines until the
    queue is empty. *)
Lemma leafLoop_drains (fuel : nat) :
  forall (l : line L) (h : Q) (node : textNode P) (w : W) (queue : list inline),
  _inlines node = Some queue -> (queueWeight queue < fuel)%nat ->
  exists node' w',
    leafLoop fuel (-1) (Some l) h node w = Some (node', w')
    /\ _inlines node' = Some []
    /\ (length (positions node) < length (positions node'))%nat.
Proof.
  induction fuel as [| fuel IH]; intros l h node w queue Hq Hlt; [lia |].
  cbn [leafLoop]. replace (Qeq_bool (-1) (-1)) with true by reflexivity.
  cbn [orb]. destruct (addLine l w) as [p w1].
  destruct queue as [| run rest].
  - assert (Hb : buildNextLine (availableWidth w1) (pushPosition p node)
                 = Some (None, pushPosition p node)).
    { unfold buildNextLine. cbn [pushPosition _inlines]. rewrite Hq. reflexivity. }
    rewrite Hb. exists (pushPosition p node), w1.
    split; [destruct fuel; reflexivity |]. split; [exact Hq |].
    simpl. rewrite length_app. simpl. lia.
  - destruct (buildNextLine_progress (availableWidth w1) (pushPosition p node)
                run rest Hq) as (l' & queue' & -> & Hw).
    match goal with
    | |- context [leafLoop fuel _ (Some l') ?h' ?n' w1] =>
      destruct (IH l' h' n' w1 queue' eq_refl ltac:(lia)) as (node' & w' & Hloop & Hempty & Hlen)
    end.
    exists node', w'. split; [exact Hloop |]. split; [exact Hempty |].
    simpl in Hlen. rewrite length_app in Hlen. simpl in Hlen. lia.
Qed.

(** X3. On a text node with pending runs and no height cap,
    [processLeaf] ends within as many turns as the queue weighs, without
    an error, leaves the queue empty and records at least one position. *)
Theorem processLeaf_drains_queue (node : textNode P) (w : W)
  (run : inline) (rest : list inline) :
  _inlines node = Some (run :: rest) -> maxHeight node = None ->
  exists node' w',
    processLeaf (queueWeight (run :: rest)) node w = Some (Ok (node', w'))
    /\ _inlines node' = Some []
    /\ (length (positions node) < length (positions node'))%nat.
Proof.
  intros Hq Hm. unfold processLeaf.
  destruct (buildNextLine_progress (availableWidth w) node run rest Hq)
    as (l & queue' & -> & Hw).
  unfold maxHeightOf. cbn [maxHeight]. rewrite Hm.
  assert (Hmarked : exists l2,
    (ln ← (if truthy (node_tocItemRef node)
           then assignPageNodeRef (node_tocItemRef node) (Some l) else Ok (Some l));
     ln ← (if truthy (node_pageRef node)
           then assignPageNodeRef (js_get (node_pageRef node) "_nodeRef") ln
           else Ok ln);
     Ok (markInlines ln)) = Ok (Some l2)).
  { destruct (truthy (node_tocItemRef node)), (truthy (node_pageRef node));
      simpl; unfold markInlines; simpl;
      match goal with
      | |- context [inlinesOf ?b] => destruct (inlinesOf b)
      end; eauto. }
  destruct Hmarked as [l2 Hl2]. cbn [node_tocItemRef node_pageRef].
  rewrite Hl2.
  match goal with
  | |- context [leafLoop ?f ?m (Some l2) ?h' ?n' w] =>
    destruct (leafLoop_drains f l2 h' n' w queue' eq_refl Hw)
      as (node' & w' & Hloop & Hempty & Hlen)
  end.
  rewrite Hloop. exists node', w'. auto.
Qed.

(** X4. With a height cap that the first line built already reaches,
    [processLeaf] writes nothing and records no position, yet the runs of
    that line have left the queue. *)
Theorem processLeaf_cap_drops_first_line (fuel : nat) (node : textNode P)
  (w : W) (run : inline) (rest : list inline) (h : Q) :
  _inlines node = Some (run :: rest) ->
  maxHeight node = Some h -> Qeq_bool h 0 = false -> Qeq_bool h (-1) = false ->
  (forall l node1, buildNextLine (availableWidth w) node = Some (Some l, node1) ->
                   Qle_bool h (getHeight (body l)) = true) ->
  exists node',
    processLeaf fuel node w = Some (Ok (node', w))
    /\ positions node' = positions node
    /\ (queueWeight (pending node') < queueWeight (pending node))%nat.
Proof.
  intros Hq Hm H0 H1 Hh. unfold processLeaf.
  destruct (buildNextLine_progress (availableWidth w) node run rest Hq)
    as (l & queue' & Hb & Hw).
  specialize (Hh _ _ Hb). rewrite Hb.
  unfold maxHeightOf. cbn [maxHeight node_tocItemRef node_pageRef].
  rewrite Hm, H0.
  assert (Hmarked : exists l2,
    (ln ← (if truthy (node_tocItemRef node)
           then assignPageNodeRef (node_tocItemRef node) (Some l) else Ok (Some l));
     ln ← (if truthy (node_pageRef node)
           then assignPageNodeRef (js_get (node_pageRef node) "_nodeRef") ln
           else Ok ln);
     Ok (markInlines ln)) = Ok (Some l2)).
  { destruct (truthy (node_tocItemRef node)), (truthy (node_pageRef node));
      simpl; unfold markInlines; simpl;
      match goal with
      | |- context [inlinesOf ?b] => destruct (inlinesOf b)
      end; eauto. }
  destruct Hmarked as [l2 Hl2]. rewrite Hl2.
  eexists. split.
  - destruct fuel; cbn [leafLoop]; rewrite H1; unfold Qltb; rewrite Hh;
      reflexivity.
  - split; [reflexivity |]. unfold pending. rewrite Hq. simpl. exact Hw.
Qed.

End AcceptsFirst.
End WithLine.

Lemma buildNextLine_keeps_text_witness :
  exists l node',
    buildNextLine 30 (Samples.leaf (Some [Samples.plainRun "abcdefgh"]) JUndefined)
    = Some (Some l, node')
    /\ (queueText (snd (body l)) ++ queueText (pending node'))%string
       = "abcdefgh".
Proof.
  apply (@buildNextLine_keeps_text _ _ _ Samples.plainLines snd (fun _ => eq_refl) (fun _ _ => eq_refl) 30
           (Samples.leaf (Some [Samples.plainRun "abcdefgh"]) JUndefined)).
  discriminate.
Defined.

Lemma buildNextLine_line_end_witness :
  exists l node',
    buildNextLine 30 (Samples.leaf (Some [Samples.plainRun "abcdefgh"]) JUndefined)
    = Some (Some l, node')
    /\ forall r, last (snd (body l)) = Some r -> endsLine r (pending node').
Proof.
  apply (@buildNextLine_line_end _ _ _ Samples.plainLines snd (fun _ => eq_refl) (fun _ _ => eq_refl) 30
           (Samples.leaf (Some [Samples.plainRun "abcdefgh"]) JUndefined)).
  discriminate.
Defined.

Lemma processLeaf_drains_queue_witness :
  exists node' w',
    processLeaf 9 (Samples.leaf (Some [Samples.plainRun "abcdefgh"]) JUndefined) []
    = Some (Ok (node', w'))
    /\ _inlines node' = Some []
    /\ (0 < length (positions node'))%nat.
Proof.
  apply (@processLeaf_drains_queue _ _ _ Samples.plainLines (fun _ _ _ => eq_refl)
           (Samples.leaf (Some [Samples.plainRun "abcdefgh"]) JUndefined) []
           (Samples.plainRun "abcdefgh") [] eq_refl eq_refl).
Defined.

Lemma processLeaf_cap_drops_first_line_witness :
  exists node',
    processLeaf 3 (Samples.cappedLeaf [Samples.plainRun "abcdefgh"] 10) []
    = Some (Ok (node', []))
    /\ positions node' = []
    /\ (queueWeight (pending node') < 9)%nat.
Proof.
  apply (@processLeaf_cap_drops_first_line _ _ _ Samples.plainLines (fun _ _ _ => eq_refl) 3
           (Samples.cappedLeaf [Samples.plainRun "abcdefgh"] 10) []
           (Samples.plainRun "abcdefgh") [] 10 eq_refl eq_refl eq_refl eq_refl).
  intros l node1 _. reflexivity.
Defined.

End LineRunsFacts.

Module WatermarkProbesFacts.
Import Watermark WatermarkProbes WatermarkFacts.

Section WithMetrics.
Context `{Collaborators}.

(** What a turn does when its measurement is off the target: it moves one
    bound to the probe, on the side the measurement tells, and keeps the
    measurement. *)
Lemma probe_moves_bound (targetWidth : Q) (s : search) :
  ~ (widthAt (c s) == targetWidth)%Q ->
  measured (probe targetWidth s) = Some (sizeOfString (c s))
  /\ c (probe targetWidth s)
     = ((a (probe targetWidth s) + b (probe targetWidth s)) / 2)%Q
  /\ ((a (probe targetWidth s) = a s /\ b (probe targetWidth s) = c s
       /\ (targetWidth < widthAt (c s))%Q)
      \/ (a (probe targetWidth s) = c s /\ b (probe targetWidth s) = b s
          /\ (widthAt (c s) < targetWidth)%Q)).
Proof.
  unfold widthAt. intros Hne. unfold probe. cbv zeta.
  destruct (Qgtb _ targetWidth) eqn:Hgt; cbn [a b c measured].
  { apply Qgtb_true in Hgt. split; [reflexivity |]. split; [reflexivity |].
    left. auto. }
  destruct (Qltb _ targetWidth) eqn:Hlt; cbn [a b c measured].
  { apply Qltb_true in Hlt. split; [reflexivity |]. split; [reflexivity |].
    right. auto. }
  exfalso. apply Hne. apply Qgtb_false in Hgt.
  apply (Qgtb_false targetWidth) in Hlt. apply Qle_antisym; assumption.
Qed.

Lemma guard_true (s : search) :
  (a s <= b s)%Q -> Qgtb (Qabs (a s - b s)) 1 = true <-> (1 < b s - a s)%Q.
Proof.
  intros Hab. rewrite Qgtb_true.
  assert (Habs : (Qabs (a s - b s) == b s - a s)%Q)
    by (rewrite Qabs_neg by lra; lra).
  rewrite Habs. reflexivity.
Qed.

Lemma offTarget_step (n : nat) (targetWidth : Q) (s : search) :
  Qgtb (Qabs (a s - b s)) 1 = true ->
  offTarget (S n) targetWidth s ->
  ~ (widthAt (c s) == targetWidth)%Q
  /\ offTarget n targetWidth (probe targetWidth s).
Proof.
  unfold offTarget. cbn [probed]. intros -> Hoff.
  apply Forall_cons in Hoff. exact Hoff.
Qed.

Lemma offTarget_fewer (n : nat) (targetWidth : Q) :
  forall s, offTarget (S n) targetWidth s -> offTarget n targetWidth s.
Proof.
  induction n as [| n IH]; intros s Hoff.
  - unfold offTarget. cbn [probed]. destruct (Qgtb _ 1); constructor.
  - destruct (Qgtb (Qabs (a s - b s)) 1) eqn:Hg.
    + destruct (offTarget_step _ _ _ Hg Hoff) as [Hc Hrest].
      unfold offTarget. cbn [probed]. rewrite Hg. constructor; [exact Hc |].
      apply IH, Hrest.
    + unfold offTarget. cbn [probed]. rewrite Hg. constructor.
Qed.

(** The search from an interval of width at most [2 ^ n] with its probe
    at the middle, when no probe hits the target: it ends within [n]
    turns, with the bounds at most 1 apart and the probe at their middle,
    and with the last measurement taken at one of the final bounds. *)
Lemma searchLoop_interval (targetWidth : Q) (n : nat) :
  forall s : search,
  offTarget n targetWidth s ->
  (a s < b s)%Q -> (c s == (a s + b s) / 2)%Q -> (b s - a s <= pow2 n)%Q ->
  exists s',
    searchLoop n targetWidth s = Some s'
    /\ (a s <= a s')%Q /\ (a s' < b s')%Q /\ (b s' <= b s)%Q
    /\ (b s' - a s' <= 1)%Q /\ (c s' == (a s' + b s') / 2)%Q
    /\ (Qgtb (Qabs (a s - b s)) 1 = true ->
        exists x, measured s' = Some (sizeOfString x) /\ (x = a s' \/ x = b s')).
Proof.
  induction n as [| n IH]; intros s Hoff Hab Hc Hw;
    cbn [searchLoop]; destruct (Qgtb (Qabs (a s - b s)) 1) eqn:Hg.
  - apply guard_true in Hg; [| lra]. change (pow2 0) with 1%Q in Hw.
    clear Hc. lra.
  - apply Qgtb_false in Hg. rewrite Qabs_neg in Hg by lra.
    exists s. repeat split; auto; try discriminate; clear Hc; lra.
  - destruct (offTarget_step _ _ _ Hg Hoff) as [Hne Hoff'].
    destruct (probe_moves_bound targetWidth s Hne) as (Hm & Hc' & Hside).
    set (s1 := probe targetWidth s) in *.
    rewrite pow2_succ in Hw.
    assert (Hfacts : (a s1 < b s1)%Q /\ (b s1 - a s1 <= pow2 n)%Q
                     /\ (a s <= a s1)%Q /\ (b s1 <= b s)%Q).
    { destruct Hside as [(-> & -> & Hside) | (-> & -> & Hside)];
        halves; repeat split; lra. }
    destruct Hfacts as (Hab1 & Hw1 & Hlo1 & Hhi1).
    destruct (IH s1 Hoff' Hab1 ltac:(rewrite Hc'; reflexivity) Hw1)
      as (s' & Hs' & H1 & H2 & H3 & H4 & H5 & Hmeas).
    exists s'. split; [exact Hs' |].
    repeat split; auto; try (clear Hc; lra).
    intros _. destruct (Qgtb (Qabs (a s1 - b s1)) 1) eqn:Hg1.
    + apply Hmeas. reflexivity.
    + destruct n; cbn [searchLoop] in Hs'; rewrite Hg1 in Hs';
        injection Hs' as <-; exists (c s); (split; [exact Hm |]);
        destruct Hside as [(_ & -> & _) | (-> & _ & _)]; auto.
  - apply Qgtb_false in Hg. rewrite Qabs_neg in Hg by lra.
    exists s. repeat split; auto; try discriminate; clear Hc; lra.
Qed.

(** The loop keeps the lower bound below the target and the upper bound
    above it. *)
Lemma searchLoop_keeps_bracket (targetWidth : Q) (fuel : nat) :
  forall s s' : search,
  searchLoop fuel targetWidth s = Some s' ->
  (widthAt (a s) < targetWidth)%Q -> (targetWidth < widthAt (b s))%Q ->
  (widthAt (a s') < targetWidth)%Q /\ (targetWidth < widthAt (b s'))%Q.
Proof.
  induction fuel as [| fuel IH]; intros s s' Hs Hlo Hhi; cbn [searchLoop] in Hs;
    destruct (Qgtb (Qabs (a s - b s)) 1); try discriminate;
    try (injection Hs as <-; auto).
  apply (IH _ _ Hs); unfold probe; cbv zeta; unfold widthAt in *;
    destruct (Qgtb (width (sizeOfString (c s))) targetWidth) eqn:Hgt;
    cbn [a b]; auto;
    try (apply Qgtb_true in Hgt; exact Hgt);
    destruct (Qltb (width (sizeOfString (c s))) targetWidth) eqn:Hlt;
    cbn [a b]; auto; apply Qltb_true in Hlt; exact Hlt.
Qed.

(** From an interval wider than [2 ^ n], [n] turns do not end the search
    when no probe hits the target. *)
Lemma searchLoop_needs_turns (targetWidth : Q) (n : nat) :
  forall s : search,
  offTarget n targetWidth s ->
  (a s <= b s)%Q -> (c s == (a s + b s) / 2)%Q -> (pow2 n < b s - a s)%Q ->
  searchLoop n targetWidth s = None.
Proof.
  induction n as [| n IH]; intros s Hoff Hab Hc Hw; cbn [searchLoop].
  - change (pow2 0) with 1%Q in Hw.
    rewrite (proj2 (guard_true s Hab)) by (clear Hc; lra). reflexivity.
  - assert (Hone : (1 <= pow2 n)%Q).
    { unfold pow2. change 1%Q with (inject_Z 1). rewrite <- Zle_Qle.
      apply (Z.pow_le_mono_r 2 0); lia. }
    rewrite pow2_succ in Hw.
    assert (Hg : Qgtb (Qabs (a s - b s)) 1 = true)
      by (apply (guard_true s Hab); clear Hc; lra).
    rewrite Hg. destruct (offTarget_step _ _ _ Hg Hoff) as [Hne Hoff'].
    destruct (probe_halves targetWidth s Hab Hc Hne) as (Hab' & Hc' & Hw' & _).
    apply IH; auto. rewrite Hw'. clear Hc Hc' Hw'. halves. lra.
Qed.

Lemma start_interval :
  (a start < b start)%Q /\ (c start == (a start + b start) / 2)%Q
  /\ (b start - a start <= pow2 10)%Q /\ (pow2 9 < b start - a start)%Q
  /\ Qgtb (Qabs (a start - b start)) 1 = true.
Proof. repeat split; reflexivity || discriminate. Qed.

(** X5. When no font size the search measures has exactly the target
    width, the search takes exactly ten turns: nine do not end the loop,
    ten do. *)
Theorem getSize_ten_turns (pageWidth pageHeight : Q) :
  offTarget 10 (targetWidthOf pageWidth pageHeight) start ->
  getSize 9 pageWidth pageHeight = None
  /\ exists r, getSize 10 pageWidth pageHeight = Some r.
Proof.
  intros Hoff. destruct start_interval as (Hab & Hc & Hle & Hgt & _).
  unfold getSize. cbv zeta. fold start. split.
  - rewrite (searchLoop_needs_turns _ 9 start (offTarget_fewer _ _ _ Hoff)
               (Qlt_le_weak _ _ Hab) Hc Hgt).
    reflexivity.
  - destruct (searchLoop_interval _ 10 start Hoff Hab Hc Hle) as (s' & -> & _).
    eauto.
Qed.

(** X6. When no font size the search measures has exactly the target
    width, the size [getSize] returns was measured at a font size other
    than the [fontSize] it returns with it, at most half a unit from it:
    the last bound that moved. *)
Theorem getSize_size_of_a_bound (pageWidth pageHeight : Q) :
  offTarget 10 (targetWidthOf pageWidth pageHeight) start ->
  exists x fontSize,
    getSize 10 pageWidth pageHeight = Some (Some (sizeOfString x), fontSize)
    /\ ~ (x == fontSize)%Q /\ (Qabs (x - fontSize) <= 1 # 2)%Q.
Proof.
  intros Hoff. destruct start_interval as (Hab & Hc & Hle & _ & Hg).
  destruct (searchLoop_interval _ 10 start Hoff Hab Hc Hle)
    as (s' & Hs' & _ & Hlt & _ & Hw & Hmid & Hmeas).
  destruct (Hmeas Hg) as (x & Hx & Hside).
  exists x, (c s'). unfold getSize. cbv zeta. fold start. rewrite Hs', Hx.
  split; [reflexivity |]. rewrite Hmid.
  destruct Hside as [-> | ->]; halves; split.
  - lra.
  - rewrite Qabs_neg by lra. lra.
  - lra.
  - rewrite Qabs_pos by lra. lra.
Qed.

(** X7. For a measured width that does not decrease with the font size,
    below the target at size 0 and above it at size 1000, and when no
    measurement hits the target exactly, [getSize] returns a font size
    between 0 and 1000 such that every font size at least half a unit
    smaller measures below the target and every font size at least half a
    unit larger measures above it. *)
Theorem getSize_brackets_target (pageWidth pageHeight : Q) :
  (forall x z : Q, (x <= z)%Q -> (widthAt x <= widthAt z)%Q) ->
  (widthAt 0 < targetWidthOf pageWidth pageHeight)%Q ->
  (targetWidthOf pageWidth pageHeight < widthAt 1000)%Q ->
  offTarget 10 (targetWidthOf pageWidth pageHeight) start ->
  exists sz fontSize,
    getSize 10 pageWidth pageHeight = Some (sz, fontSize)
    /\ (0 <= fontSize <= 1000)%Q
    /\ forall x,
         ((x <= fontSize - (1 # 2))%Q ->
          (widthAt x < targetWidthOf pageWidth pageHeight)%Q)
         /\ ((fontSize + (1 # 2) <= x)%Q ->
             (targetWidthOf pageWidth pageHeight < widthAt x)%Q).
Proof.
  intros Hmono Hlo Hhi Hoff.
  destruct start_interval as (Hab & Hc & Hle & _ & _).
  destruct (searchLoop_interval _ 10 start Hoff Hab Hc Hle)
    as (s' & Hs' & Ha & Hlt & Hb & Hw & Hmid & _).
  destruct (searchLoop_keeps_bracket _ _ _ _ Hs' Hlo Hhi) as [Hlo' Hhi'].
  exists (measured s'), (c s'). unfold getSize. cbv zeta. fold start. rewrite Hs'.
  split; [reflexivity |].
  change (a start) with 0%Q in Ha. change (b start) with 1000%Q in Hb.
  split; [rewrite Hmid; halves; lra |].
  intros x. split; intros Hx.
  - apply Qle_lt_trans with (widthAt (a s')); [| exact Hlo'].
    apply Hmono. rewrite Hmid in Hx. halves. lra.
  - apply Qlt_le_trans with (widthAt (b s')); [exact Hhi' |].
    apply Hmono. rewrite Hmid in Hx. halves. lra.
Qed.

End WithMetrics.

Lemma offsetMetrics_offTarget :
  @offTarget Samples.offsetMetrics 10
    (@targetWidthOf Samples.offsetMetrics 300 400) start.
Proof.
  unfold offTarget.
  repeat (cbn [probed]; match goal with
          | |- Forall _ (if ?g then _ else _) =>
            let v := eval vm_compute in g in
            change g with v; cbv iota
          end;
          match goal with
          | |- Forall _ [] => constructor
          | |- Forall _ (_ :: _) =>
            constructor; [intros Heq; vm_compute in Heq; discriminate |]
          end).
Qed.

Lemma getSize_ten_turns_witness :
  @getSize Samples.offsetMetrics 9 300 400 = None
  /\ exists r, @getSize Samples.offsetMetrics 10 300 400 = Some r.
Proof.
  exact (@getSize_ten_turns Samples.offsetMetrics 300 400 offsetMetrics_offTarget).
Defined.

Lemma getSize_size_of_a_bound_witness :
  exists x fontSize,
    @getSize Samples.offsetMetrics 10 300 400
    = Some (Some (@sizeOfString Samples.offsetMetrics x), fontSize)
    /\ ~ (x == fontSize)%Q /\ (Qabs (x - fontSize) <= 1 # 2)%Q.
Proof.
  exact (@getSize_size_of_a_bound Samples.offsetMetrics 300 400
           offsetMetrics_offTarget).
Defined.

Lemma getSize_brackets_target_witness :
  exists sz fontSize,
    @getSize Samples.offsetMetrics 10 300 400 = Some (sz, fontSize)
    /\ (0 <= fontSize <= 1000)%Q.
Proof.
  destruct (@getSize_brackets_target Samples.offsetMetrics 300 400)
    as (sz & fontSize & Hg & Hr & _).
  - intros x z Hle. unfold widthAt. simpl.
    apply Qmult_le_compat_r; [exact Hle | discriminate].
  - reflexivity.
  - reflexivity.
  - exact offsetMetrics_offTarget.
  - exists sz, fontSize. auto.
Defined.

End WatermarkProbesFacts.

Module RowColumnEdges.
Import RowColumn.

Section WithContext.
Context {N W P : Type} `{Collaborators N W P}.

Lemma rowLoop_rowSpan_outside_table (columns : list (column N))
  (widths : list Z) (gaps : option (list Z)) (tableRow : option nat)
  (fuel : nat) :
  (forall col, col ∈ columns -> spans (colSpan col) = false) ->
  forall (i : nat) (w : W) (t : tracker) (ps : list P),
  (length columns - i <= fuel)%nat ->
  (exists j col, (i <= j)%nat /\ columns !! j = Some col
                 /\ spans (rowSpan col) = true) ->
  exists e, rowLoop fuel columns widths gaps None tableRow i w t ps
            = Some (Err e).
Proof.
  intros Hplain.
  induction fuel as [| fuel IH]; intros i w t ps Hfuel (j & cj & Hij & Hj & Hs).
  - apply lookup_lt_Some in Hj. lia.
  - pose proof (lookup_lt_Some _ _ _ Hj) as Hjlt.
    destruct (lookup_lt_is_Some_2 columns i ltac:(lia)) as [col Hcol].
    simpl. rewrite Hcol.
    destruct (widths !! i) as [width0 |]; [| eauto].
    unfold spanWidth.
    rewrite (Hplain col (list_elem_of_lookup_2 _ _ _ Hcol)).
    unfold getEndingCell. destruct (spans (rowSpan col)) eqn:Hr; [eauto |].
    destruct (layColumn col _ t ps) as [[[w' t'] ps'] |]; [| eauto].
    apply IH; [lia |]. exists j, cj. repeat split; auto.
    destruct (Nat.eq_dec i j) as [-> |]; [| lia]. congruence.
Qed.

(** X8. Outside a table, that is without a table body, as
    [processColumns] calls it, [processRow] ends with an error whenever a
    column declares [rowSpan > 1] and none declares [colSpan > 1]; so does
    [processColumns] for such columns. *)
Theorem processRow_rowSpan_outside_table (columns : list (column N))
  (widths : option (list Z)) (gaps : option (list Z)) (tableRow : option nat)
  (height : option Z) (gap : option Z) (w : W) :
  ((forall col, col ∈ columns -> spans (colSpan col) = false) ->
   (exists j col, columns !! j = Some col /\ spans (rowSpan col) = true) ->
   exists e, processRow columns widths gaps None tableRow height w
             = Some (Err e))
  /\ ((forall col, col ∈ buildColumnWidths columns
                           (match gapArray columns gap with
                            | Some g => availableWidth w
                                        - (Z.of_nat (length g) - 1) * default 0 gap
                            | None => availableWidth w
                            end) -> spans (colSpan col) = false) ->
      (exists j col,
         buildColumnWidths columns
           (match gapArray columns gap with
            | Some g => availableWidth w
                        - (Z.of_nat (length g) - 1) * default 0 gap
            | None => availableWidth w
            end) !! j = Some col /\ spans (rowSpan col) = true) ->
      exists e, processColumns columns gap w = Some (Err e)).
Proof.
  split.
  - intros Hplain (j & col & Hj & Hs). unfold processRow.
    match goal with
    | |- context [rowLoop ?f ?c ?ws ?g None ?tr ?i ?w0 ?t0 ?p0] =>
      destruct (rowLoop_rowSpan_outside_table c ws g tr f Hplain i w0 t0 p0
                  ltac:(lia)) as [e He]
    end.
    { exists j, col. repeat split; auto. lia. }
    rewrite He. eauto.
  - intros Hplain (j & col & Hj & Hs). unfold processColumns. cbv zeta.
    unfold processRow.
    match goal with
    | |- context [rowLoop ?f ?c ?ws ?g None ?tr ?i ?w0 ?t0 ?p0] =>
      destruct (rowLoop_rowSpan_outside_table c ws g tr f Hplain i w0 t0 p0
                  ltac:(lia)) as [e He]
    end.
    { exists j, col. repeat split; auto. lia. }
    rewrite He. eauto.
Qed.

Lemma spanLoop_past_widths (widths g : list Z) (n : nat) :
  forall (i : nat) (width : number),
  (1 <= n)%nat -> (length widths <= i + n)%nat ->
  spanLoop n widths (Some g) i width = Err (TypeError "widths[i]._calcWidth").
Proof.
  induction n as [| n IH]; intros i width Hn Hlen; [lia |]. simpl.
  destruct (widths !! S i) as [wi |] eqn:Hwi; [| reflexivity].
  apply lookup_lt_Some in Hwi. apply IH; lia.
Qed.

(** X9. A cell whose column span reaches past the last entry of the
    widths makes its turn of [processRow] end with a TypeError on
    [widths[i]._calcWidth], before [beginColumn] is called. *)
Theorem rowLoop_colSpan_past_widths (columns : list (column N))
  (widths g : list Z) (tableBody : option (list (list (column N))))
  (tableRow : option nat) (i : nat) (col : column N) (cs width0 : Z)
  (fuel : nat) (w : W) (t : tracker) (ps : list P) :
  columns !! i = Some col -> widths !! i = Some width0 ->
  colSpan col = Some cs -> 1 < cs ->
  (length widths <= i + Z.to_nat (cs - 1))%nat ->
  rowLoop (S fuel) columns widths (Some g) tableBody tableRow i w t ps
  = Some (Err (TypeError "widths[i]._calcWidth")).
Proof.
  intros Hcol Hw0 Hcs Hgt Hlen. simpl. rewrite Hcol, Hw0.
  unfold spanWidth.
  rewrite (proj2 (RowColumnFacts.spans_gt_1 (colSpan col))) by eauto.
  rewrite Hcs. simpl. rewrite spanLoop_past_widths by lia. reflexivity.
Qed.

(** X10. For a non-zero gap and at least one column, [gapArray] has one
    entry per column; the left offset of the first column is 0 and that of
    every other column is the gap; and what [processColumns] takes from
    the available width, [(gaps.length - 1) * gap], is the sum of these
    offsets. *)
Theorem gapArray_offsets (columns : list (column N)) (g : Z) :
  g <> 0 -> columns <> [] ->
  exists gaps,
    gapArray columns (Some g) = Some gaps
    /\ length gaps = length columns
    /\ (forall i, (i < length columns)%nat ->
          colLeftOffset (Some gaps) i = if (i =? 0)%nat then 0 else g)
    /\ (Z.of_nat (length gaps) - 1) * g = sumZ gaps.
Proof.
  intros Hg Hc. unfold gapArray.
  destruct (Z.eqb_spec g 0) as [| _]; [contradiction |].
  destruct columns as [| col columns]; [contradiction |]. clear Hc.
  assert (Hl : (length (col :: columns) - 1)%nat = length columns)
    by (simpl; lia).
  rewrite Hl. exists (0 :: repeat g (length columns)).
  split; [reflexivity |]. split; [simpl; rewrite repeat_length; reflexivity |].
  split.
  - intros i Hi. unfold colLeftOffset. simpl length. rewrite repeat_length.
    destruct (Nat.ltb_spec i (S (length columns))) as [_ | Hge]; [| lia].
    destruct i as [| i]; [reflexivity |]. simpl.
    apply nth_repeat_lt. lia.
  - simpl length. rewrite repeat_length.
    assert (Hsum : forall n, sumZ (repeat g n) = Z.of_nat n * g).
    { induction n as [| n IH]; [reflexivity |].
      simpl repeat. unfold sumZ in *. simpl. rewrite IH. lia. }
    unfold sumZ in *. simpl. rewrite Hsum. lia.
Qed.

End WithContext.

Lemma processRow_rowSpan_outside_table_witness :
  (exists e, processRow [Samples.cell None (Some 2) []] None None None None None []
             = Some (Err e))
  /\ (exists e, processColumns [Samples.cell None (Some 2) []] None []
                = Some (Err e)).
Proof.
  destruct (processRow_rowSpan_outside_table [Samples.cell None (Some 2) []]
              None None None None None []) as [Hrow Hcols].
  split.
  - apply Hrow.
    + intros col Hcol. apply list_elem_of_singleton in Hcol as ->. reflexivity.
    + exists 0%nat, (Samples.cell None (Some 2) []). split; reflexivity.
  - apply Hcols.
    + intros col Hcol. apply list_elem_of_singleton in Hcol as ->. reflexivity.
    + exists 0%nat, (Samples.cell None (Some 2) []). split; reflexivity.
Defined.

Lemma rowLoop_colSpan_past_widths_witness :
  rowLoop 1 [Samples.cell (Some 3) None []; Samples.placeholder] [10; 10]
    (Some [0; 0]) None None 0 [] emptyTracker []
  = Some (Err (TypeError "widths[i]._calcWidth")).
Proof.
  apply (rowLoop_colSpan_past_widths
           [Samples.cell (Some 3) None []; Samples.placeholder] [10; 10] [0; 0]
           None None 0 (Samples.cell (Some 3) None []) 3 10 0 [] emptyTracker []);
    try reflexivity; simpl; lia.
Defined.

Lemma gapArray_offsets_witness :
  exists gaps,
    gapArray [Samples.cell None None []; Samples.cell None None []] (Some 5)
    = Some gaps
    /\ length gaps = 2%nat /\ sumZ gaps = 5.
Proof.
  destruct (gapArray_offsets
              [Samples.cell None None []; Samples.cell None None []] 5)
    as (gaps & Hg & Hlen & _ & Hsum); [lia | discriminate |].
  exists gaps. split; [exact Hg |]. split; [exact Hlen |].
  rewrite <- Hsum, Hlen. reflexivity.
Defined.

End RowColumnEdges.

Module PageBreakMore.
Import PageBreak Decoration PageBreakFacts.

Lemma firstOccurrences_NoDup (rest : list Z) :
  forall pre : list Z, NoDup (firstOccurrences (pre ++ rest) (length pre) rest).
Proof.
  induction rest as [| e rest IH]; intros pre; simpl; [constructor |].
  specialize (IH (pre ++ [e])).
  pose proof (firstOccurrences_elem e rest (pre ++ [e])) as Helem.
  rewrite <- app_assoc, length_app in IH, Helem. simpl in IH, Helem.
  replace (length pre + 1)%nat with (S (length pre)) in IH, Helem by lia.
  destruct (indexOf e (pre ++ e :: rest)) as [i |]; [| exact IH].
  destruct (i =? length pre)%nat; [| exact IH].
  constructor; [| exact IH].
  rewrite Helem, not_elem_of_app, list_elem_of_singleton. tauto.
Qed.

(** X11. The page numbers of a node summary hold every page on which the
    node has a position, each once, and the first of them is the page of
    the node's first position. *)
Theorem pageNumbersOf_distinct_pages (ps : list position) :
  NoDup (pageNumbersOf ps)
  /\ (forall z, z ∈ pageNumbersOf ps <-> exists pos, pos ∈ ps /\ pageNumber pos = z)
  /\ head (pageNumbersOf ps) = option_map pageNumber (head ps).
Proof.
  split; [apply (firstOccurrences_NoDup (map pageNumber ps) []) |].
  split; [| apply pageNumbersOf_head].
  intros z. unfold pageNumbersOf.
  rewrite (firstOccurrences_elem z (map pageNumber ps) []), list_elem_of_fmap.
  split.
  - intros [(pos & -> & Hpos) _]. eauto.
  - intros (pos & Hpos & <-). split; [eauto |]. intros Hin. inversion Hin.
Qed.

Lemma copyFields_fold (n : node) (keys : list string) :
  forall (acc : gmap string jsval) (k : string),
  fold_left (fun acc key => if is_defined (prop n key)
                            then <[key := prop n key]> acc else acc) keys acc !! k
  = if decide (k ∈ keys /\ is_defined (prop n k) = true)
    then Some (prop n k) else acc !! k.
Proof.
  induction keys as [| key keys IH]; intros acc k; cbn [fold_left].
  - rewrite decide_False; [reflexivity |]. intros [Hin _]. inversion Hin.
  - rewrite IH.
    destruct (decide (k ∈ keys /\ is_defined (prop n k) = true)) as [[Hin Hd] | Hno].
    + rewrite decide_True; [reflexivity |]. split; [right; exact Hin | exact Hd].
    + destruct (decide (k = key)) as [-> | Hne].
      * destruct (is_defined (prop n key)) eqn:Hd.
        -- rewrite lookup_insert_eq, decide_True; [reflexivity |].
           split; [left | reflexivity].
        -- rewrite decide_False; [reflexivity |]. intros [_ Hd']. discriminate.
      * assert (Hacc : (if is_defined (prop n key)
                        then <[key := prop n key]> acc else acc) !! k = acc !! k).
        { destruct (is_defined (prop n key)); [| reflexivity].
          apply lookup_insert_ne. auto. }
        rewrite Hacc, decide_False; [reflexivity |].
        intros [Hin Hd]. apply elem_of_cons in Hin as [-> | Hin]; tauto.
Qed.

(** X12. The fields of a node summary are exactly the defined properties
    of the node among the fifteen keys that are copied: nothing else is
    copied, and no field is [undefined]. *)
Theorem copyFields_defined_keys (n : node) (k : string) (v : jsval) :
  copyFields n !! k = Some v
  <-> k ∈ infoKeys /\ prop n k = v /\ v <> JUndefined.
Proof.
  unfold copyFields. rewrite copyFields_fold, lookup_empty.
  destruct (decide (k ∈ infoKeys /\ is_defined (prop n k) = true)) as [[Hin Hd] | Hno].
  - split.
    + intros [= <-]. repeat split; auto. intros Hu. rewrite Hu in Hd. discriminate.
    + intros (_ & -> & _). reflexivity.
  - split; [discriminate |]. intros (Hin & <- & Hv). exfalso. apply Hno.
    split; [exact Hin |]. destruct (prop n k); auto; contradiction.
Qed.

Lemma evaluated_insert_info (h : store) (l l' : nat) (n : node) :
  isBefore n = isBefore (deref h l) ->
  pageBreakCalculated n = pageBreakCalculated (deref h l) ->
  evaluated (<[l := n]> h) l' = evaluated h l'.
Proof.
  intros Hb Hc. unfold evaluated. destruct (decide (l = l')) as [<- | Hne].
  - rewrite node_insert, Hb, Hc. reflexivity.
  - rewrite node_insert_ne by auto. reflexivity.
Qed.

Lemma fold_annotate_evaluated (k : nat) (nodes : list nat) :
  forall (h : store) (l : nat),
  evaluated (fold_left (annotate k) nodes h) l = evaluated h l.
Proof.
  induction nodes as [| x nodes IH]; simpl; intros h l; [reflexivity |].
  rewrite IH. unfold annotate. apply evaluated_insert_info; reflexivity.
Qed.

Lemma evaluated_setCalculated (h : store) (l l' : nat) :
  evaluated (<[l := setCalculated (deref h l)]> h) l'
  = (evaluated h l' || bool_decide (l = l')).
Proof.
  unfold evaluated. destruct (decide (l = l')) as [<- | Hne].
  - rewrite node_insert, bool_decide_eq_true_2 by reflexivity. simpl.
    rewrite !orb_true_r. reflexivity.
  - rewrite node_insert_ne, bool_decide_eq_false_2 by auto.
    rewrite orb_false_r. reflexivity.
Qed.

Section WithPredicate.
Context {PS : Type}.

(** What a scan does to the nodes: those dealt with stay so; when it asks
    for no break, every node it went over is dealt with; when it asks for
    one, a node it had not dealt with now is. *)
Lemma scan_evaluated (fct : predicate PS) (nodes : list nat) (rest : list nat) :
  forall (index : nat) (h : store) (ps : PS) fired h' ps',
  scan fct nodes index rest h ps = (fired, h', ps') ->
  (forall l, evaluated h l = true -> evaluated h' l = true)
  /\ (fired = false -> forall l, l ∈ rest -> evaluated h' l = true)
  /\ (fired = true ->
      exists l, l ∈ rest /\ evaluated h l = false /\ evaluated h' l = true).
Proof.
  induction rest as [| l0 rest IH]; simpl; intros index h ps fired h' ps' Hs.
  - injection Hs as <- <- <-. split; [auto |]. split; [| discriminate].
    intros _ l Hl. inversion Hl.
  - destruct (isBefore (deref h l0)) eqn:Hb;
      [| destruct (pageBreakCalculated (deref h l0)) eqn:Hc]; simpl in Hs.
    + destruct (IH _ _ _ _ _ _ Hs) as (Hmono & Hall & Hex).
      split; [exact Hmono |]. split.
      * intros Hf l Hl. apply elem_of_cons in Hl as [-> | Hl]; [| auto].
        apply Hmono. unfold evaluated. rewrite Hb. reflexivity.
      * intros Hf. destruct (Hex Hf) as (l & Hl & H1 & H2).
        exists l. split; [right; exact Hl | auto].
    + destruct (IH _ _ _ _ _ _ Hs) as (Hmono & Hall & Hex).
      split; [exact Hmono |]. split.
      * intros Hf l Hl. apply elem_of_cons in Hl as [-> | Hl]; [| auto].
        apply Hmono. unfold evaluated. rewrite Hc. apply orb_true_r.
      * intros Hf. destruct (Hex Hf) as (l & Hl & H1 & H2).
        exists l. split; [right; exact Hl | auto].
    + set (h1 := <[l0 := setCalculated (deref h l0)]> h) in *.
      assert (Hev0 : evaluated h l0 = false)
        by (unfold evaluated; rewrite Hb, Hc; reflexivity).
      assert (Hev1 : forall l, evaluated h1 l
                               = (evaluated h l || bool_decide (l0 = l)))
        by (intros l; apply evaluated_setCalculated).
      match type of Hs with
      | context [fct ps ?i ?f ?n ?p] => destruct (fct ps i f n p) as [[|] ps1]
      end.
      * injection Hs as <- <- <-.
        assert (Hev2 : forall l,
                  evaluated (<[l0 := setPageBreak (JStr "before") (deref h1 l0)]> h1) l
                  = (evaluated h1 l || bool_decide (l0 = l))).
        { intros l. unfold evaluated. destruct (decide (l0 = l)) as [<- | Hne].
          - rewrite node_insert, setPageBreak_before,
              bool_decide_eq_true_2 by reflexivity.
            rewrite orb_true_r. reflexivity.
          - rewrite node_insert_ne, bool_decide_eq_false_2 by auto.
            rewrite orb_false_r. reflexivity. }
        split; [| split; [discriminate |]].
        -- intros l Hl. rewrite Hev2, Hev1, Hl. reflexivity.
        -- intros _. exists l0. split; [left |]. split; [exact Hev0 |].
           rewrite Hev2, bool_decide_eq_true_2 by reflexivity. apply orb_true_r.
      * destruct (IH _ _ _ _ _ _ Hs) as (Hmono & Hall & Hex).
        split; [| split].
        -- intros l Hl. apply Hmono. rewrite Hev1, Hl. reflexivity.
        -- intros Hf l Hl. apply elem_of_cons in Hl as [-> | Hl]; [| auto].
           apply Hmono. rewrite Hev1, bool_decide_eq_true_2 by reflexivity.
           apply orb_true_r.
        -- intros Hf. destruct (Hex Hf) as (l & Hl & H1 & H2).
           exists l. split; [right; exact Hl |]. split; [| exact H2].
           rewrite Hev1 in H1. apply orb_false_elim in H1 as [H1 _]. exact H1.
Qed.

(** Over nodes that are all dealt with, the scan calls nothing and
    changes nothing. *)
Lemma scan_idle (fct : predicate PS) (nodes : list nat) (rest : list nat) :
  forall (index : nat) (h : store) (ps : PS),
  (forall l, l ∈ rest -> evaluated h l = true) ->
  scan fct nodes index rest h ps = (false, h, ps).
Proof.
  induction rest as [| l0 rest IH]; simpl; intros index h ps Hall; [reflexivity |].
  pose proof (Hall l0 ltac:(left)) as H0. unfold evaluated in H0.
  destruct (isBefore (deref h l0)), (pageBreakCalculated (deref h l0));
    try discriminate; simpl; apply IH; intros l Hl; apply Hall; right; exact Hl.
Qed.

Lemma withPositions_geometry (h h' : store) (nodes : list nat) :
  (forall l, geometry (deref h' l) = geometry (deref h l)) ->
  withPositions h' nodes = withPositions h nodes.
Proof.
  intros Hg. unfold withPositions. apply filter_ext. intros l.
  specialize (Hg l). unfold geometry in Hg. injection Hg as _ _ _ _ ->.
  reflexivity.
Qed.

Lemma addPageBreaks_frame (fct : predicate PS) (nodes : list nat) (k : nat)
  (h : store) (ps : PS) fired h' ps' :
  addPageBreaksIfNecessary (Some fct) nodes k h ps = (fired, h', ps') ->
  (forall l, geometry (deref h' l) = geometry (deref h l))
  /\ (forall l, evaluated h l = true -> evaluated h' l = true)
  /\ (fired = false ->
      forall l, l ∈ withPositions h nodes -> evaluated h' l = true)
  /\ (fired = true ->
      exists l, l ∈ nodes /\ evaluated h l = false /\ evaluated h' l = true).
Proof.
  unfold addPageBreaksIfNecessary. intros Hs.
  destruct (scan_frame fct _ _ _ _ _ _ _ _ Hs) as [_ Hg].
  destruct (scan_evaluated fct _ _ _ _ _ _ _ _ Hs) as (Hmono & Hall & Hex).
  split; [| split; [| split]].
  - intros l. rewrite Hg. apply fold_annotate_geometry.
  - intros l Hl. apply Hmono. rewrite fold_annotate_evaluated. exact Hl.
  - exact Hall.
  - intros Hf. destruct (Hex Hf) as (l & Hl & H1 & H2).
    exists l. split; [exact (elem_of_withPositions _ _ _ Hl) |].
    rewrite fold_annotate_evaluated in H1. auto.
Qed.

(** X13. When [addPageBreaksIfNecessary] asks for no break, every node of
    the list that has a position is marked ['before'] or evaluated, and a
    further call on the same nodes does not call the predicate, whatever
    state it is in, and asks for no break either. *)
Theorem addPageBreaks_settled (fct : predicate PS) (nodes : list nat) (k : nat)
  (h : store) (ps : PS) (h' : store) (ps' : PS) :
  addPageBreaksIfNecessary (Some fct) nodes k h ps = (false, h', ps') ->
  (forall l, l ∈ nodes -> positions (deref h l) <> [] -> evaluated h' l = true)
  /\ forall (k2 : nat) (ps2 : PS),
       exists h2, addPageBreaksIfNecessary (Some fct) nodes k2 h' ps2
                  = (false, h2, ps2).
Proof.
  intros Hs. destruct (addPageBreaks_frame _ _ _ _ _ _ _ _ Hs)
    as (Hg & _ & Hall & _).
  specialize (Hall eq_refl). split.
  - intros l Hl Hpos. apply Hall. unfold withPositions.
    apply list_elem_of_In, filter_In. split; [apply list_elem_of_In, Hl |].
    destruct (positions (deref h l)); [contradiction | reflexivity].
  - intros k2 ps2. unfold addPageBreaksIfNecessary.
    rewrite (withPositions_geometry h h' nodes Hg).
    eexists. apply scan_idle. intros l Hl.
    rewrite fold_annotate_evaluated. apply Hall, Hl.
Qed.

Lemma callResetXY_flags (n n' : node) :
  callResetXY n = Ok n' ->
  isBefore n' = isBefore n /\ pageBreakCalculated n' = pageBreakCalculated n.
Proof.
  unfold callResetXY. destruct (resetXY n) as [[x0 y0] |]; [| discriminate].
  destruct (canvas n) as [vs |].
  - destruct (resetVectors vs) as [vs' |]; [| discriminate].
    simpl. intros [= <-]. split; reflexivity.
  - intros [= <-]. split; reflexivity.
Qed.

Lemma resetXYs_evaluated (nodes : list nat) :
  forall (h h2 : store),
  resetXYs nodes h = Ok h2 -> forall l, evaluated h2 l = evaluated h l.
Proof.
  induction nodes as [| l0 nodes IH]; simpl; intros h h2 Hr l.
  - injection Hr as <-. reflexivity.
  - destruct (callResetXY (deref h l0)) as [n' |] eqn:Hn; [| discriminate].
    simpl in Hr. rewrite (IH _ _ Hr).
    destruct (callResetXY_flags _ _ Hn) as [Hb Hc].
    apply evaluated_insert_info; assumption.
Qed.

(** Fewer nodes are left to deal with once one more is dealt with and
    none is undone. *)
Lemma unevaluated_fewer (h h' : store) (nodes : list nat) (l : nat) :
  (forall l', evaluated h l' = true -> evaluated h' l' = true) ->
  l ∈ nodes -> evaluated h l = false -> evaluated h' l = true ->
  (length (unevaluated h' nodes) < length (unevaluated h nodes))%nat.
Proof.
  intros Hmono. unfold unevaluated.
  assert (Hle : forall ns, (length (List.filter (fun l => negb (evaluated h' l)) ns)
                            <= length (List.filter (fun l => negb (evaluated h l)) ns))%nat).
  { induction ns as [| x ns IH]; simpl; [lia |].
    destruct (evaluated h x) eqn:Hx.
    - rewrite (Hmono x Hx). simpl. exact IH.
    - destruct (evaluated h' x); simpl; lia. }
  induction nodes as [| x nodes IH]; intros Hin H0 H1; [inversion Hin |].
  apply elem_of_cons in Hin as [<- | Hin].
  - simpl. rewrite H0, H1. simpl. specialize (Hle nodes). lia.
  - specialize (IH Hin H0 H1). simpl.
    destruct (evaluated h x) eqn:Hx.
    + rewrite (Hmono x Hx). simpl. exact IH.
    + destruct (evaluated h' x); simpl; lia.
Qed.

Lemma unevaluated_mono (h h' : store) (nodes : list nat) :
  (forall l', evaluated h l' = true -> evaluated h' l' = true) ->
  (length (unevaluated h' nodes) <= length (unevaluated h nodes))%nat.
Proof.
  intros Hmono. unfold unevaluated.
  induction nodes as [| x ns IH]; simpl; [lia |].
  destruct (evaluated h x) eqn:Hx.
  - rewrite (Hmono x Hx). simpl. exact IH.
  - destruct (evaluated h' x); simpl; lia.
Qed.

Lemma unevaluated_same (h h' : store) (nodes : list nat) :
  (forall l, evaluated h' l = evaluated h l) ->
  unevaluated h' nodes = unevaluated h nodes.
Proof.
  intros Heq. unfold unevaluated. apply filter_ext. intros l.
  rewrite Heq. reflexivity.
Qed.

Section Termination.
Context {Pg E : Type} `{Collaborators Pg E}.

(** The node objects the traversals hand to the scan, and what is asked of
    a traversal: its flat list is made of these objects, and it does not
    undo a ['before'] mark or an evaluation. *)
Variable objects : list nat.
Hypothesis traversal_keeps :
  forall h e r h' e',
    tryLayoutDocument h e = Ok (r, h', e') ->
    (forall l, l ∈ linearNodeList r -> l ∈ objects)
    /\ (forall l, evaluated h l = true -> evaluated h' l = true).

Lemma layoutLoop_terminates (fct : predicate PS) (fuel : nat) :
  forall (r : attempt Pg) (h : store) (ps : PS) (e : E) (lg : list event),
  (forall l, l ∈ linearNodeList r -> l ∈ objects) ->
  (length (unevaluated h objects) <= fuel)%nat ->
  exists res,
    layoutLoop fuel (Some fct) r h ps e lg = Some res
    /\ forall out, res = Ok out ->
         (traversals (log out) <= traversals lg + fuel)%nat.
Proof.
  induction fuel as [| fuel IH]; intros r h ps e lg Hsub Hfuel;
    cbn -[addPageBreaksIfNecessary resetXYs];
    destruct (addPageBreaksIfNecessary (Some fct) (linearNodeList r)
                (length (resultPages r)) h ps) as [[fired h1] ps1] eqn:Hadd;
    destruct (addPageBreaks_frame _ _ _ _ _ _ _ _ Hadd) as (_ & Hmono & _ & Hex);
    destruct fired;
    try (eexists; split; [reflexivity |]; intros out [= <-]; simpl; lia).
  - destruct (Hex eq_refl) as (l & Hl & H0 & H1).
    pose proof (unevaluated_fewer h h1 objects l Hmono (Hsub l Hl) H0 H1). lia.
  - destruct (Hex eq_refl) as (l & Hl & H0 & H1).
    pose proof (unevaluated_fewer h h1 objects l Hmono (Hsub l Hl) H0 H1) as Hlt.
    destruct (resetXYs (linearNodeList r) h1) as [h2 |] eqn:Hr;
      [| eexists; split; [reflexivity | discriminate]].
    destruct (tryLayoutDocument h2 e) as [[[r2 h3] e2] |] eqn:Htry;
      [| eexists; split; [reflexivity | discriminate]].
    destruct (traversal_keeps _ _ _ _ _ Htry) as [Hsub2 Hkeep].
    destruct (IH r2 h3 ps1 e2
                (lg ++ map Reset (linearNodeList r) ++ [Traversal]) Hsub2)
      as (res & Hres & Hcount).
    { pose proof (unevaluated_mono h2 h3 objects Hkeep).
      rewrite (unevaluated_same h1 h2 objects (resetXYs_evaluated _ _ _ Hr)) in *.
      lia. }
    exists res. split; [exact Hres |]. intros out Hout.
    specialize (Hcount out Hout).
    assert (Htr : traversals (lg ++ map Reset (linearNodeList r) ++ [Traversal])
                  = S (traversals lg)).
    { unfold traversals. rewrite !List.filter_app, !length_app.
      assert (Hn : forall ns, List.filter isTraversal (map Reset ns) = [])
        by (induction ns; simpl; auto).
      rewrite Hn. simpl. lia. }
    lia.
Qed.

(** X14. When every traversal returns nodes among a fixed list of node
    objects and leaves their ['before'] marks and evaluations in place,
    [layoutDocument] ends within as many turns of its loop as there are
    objects, whatever the predicate answers, and a page list it returns
    comes after at most that many traversals plus one. *)
Theorem layoutDocument_terminates (fct : predicate PS) (h : store) (ps : PS)
  (e : E) :
  exists res,
    layoutDocument (length objects) (Some fct) h ps e = Some res
    /\ forall out, res = Ok out ->
         (traversals (log out) <= S (length objects))%nat.
Proof.
  unfold layoutDocument.
  destruct (tryLayoutDocument h e) as [[[r h1] e1] |] eqn:Htry;
    [| eexists; split; [reflexivity | discriminate]].
  destruct (traversal_keeps _ _ _ _ _ Htry) as [Hsub _].
  destruct (layoutLoop_terminates fct (length objects) r h1 ps e1 [Traversal] Hsub)
    as (res & Hres & Hcount).
  { unfold unevaluated. apply List.filter_length_le. }
  exists res. split; [exact Hres |]. intros out Hout.
  specialize (Hcount out Hout). unfold traversals in Hcount at 2.
  simpl in Hcount. lia.
Qed.

End Termination.
End WithPredicate.
Lemma resetVectors_restores (vs' : list vector) :
  forall cs : list coords,
  map captured vs' = map Some cs ->
  exists vs'',
    resetVectors vs' = Ok vs''
    /\ map current vs'' = cs /\ map captured vs'' = map captured vs'.
Proof.
  induction vs' as [| v vs' IH]; intros [| c cs] Hc; simpl in Hc;
    try discriminate.
  - exists []. auto.
  - injection Hc as Hv Hc. destruct (IH cs Hc) as (vs'' & Hr & Hcur & Hcap).
    simpl. unfold resetVector. rewrite Hv, Hr. simpl.
    eexists. split; [reflexivity |]. simpl. rewrite Hcur, Hcap. auto.
Qed.

(** X15. [decorateNode] empties [positions] and makes the node fit for
    [resetXY]. Whatever has since become of the coordinates of the node
    and of its vectors, as long as its [resetXY] and those of its vectors
    are the ones [decorateNode] installed, calling [resetXY] succeeds and
    puts the node and every vector back at the coordinates they had when
    decorated, and decorating the node again installs the same closures. *)
Theorem resetXY_restores_decorated (n n' : node) :
  positions (decorateNode n) = [] /\ decorated (decorateNode n)
  /\ (resetXY n' = resetXY (decorateNode n) ->
      closures (canvas n') = closures (canvas (decorateNode n)) ->
      exists n'',
        callResetXY n' = Ok n''
        /\ x n'' = x n /\ y n'' = y n
        /\ vectorCoordinates (canvas n'') = vectorCoordinates (canvas n)
        /\ props n'' = props n' /\ positions n'' = positions n'
        /\ resetXY (decorateNode n'') = resetXY (decorateNode n)
        /\ closures (canvas (decorateNode n''))
           = closures (canvas (decorateNode n))).
Proof.
  split; [reflexivity |]. split.
  { split; [eexists; reflexivity |]. intros vs Hvs. simpl in Hvs.
    destruct (canvas n) as [vs0 |]; [| discriminate]. injection Hvs as <-.
    apply Forall_fmap, Forall_forall. intros v _. eexists. reflexivity. }
  intros Hr Hc. unfold callResetXY. rewrite Hr. simpl.
  unfold closures in Hc. simpl in Hc.
  destruct (canvas n') as [vs' |], (canvas n) as [vs |]; simpl in Hc;
    try discriminate.
  - injection Hc as Hc. rewrite map_map in Hc. simpl in Hc.
    rewrite <- (map_map current Some) in Hc.
    destruct (resetVectors_restores vs' (map current vs) Hc)
      as (vs'' & -> & Hcur & Hcap).
    simpl. eexists. split; [reflexivity |]. simpl.
    assert (Hd : map captured (map decorateVector vs'')
                 = map captured (map decorateVector vs)).
    { rewrite !map_map. simpl.
      rewrite <- !(map_map current Some), Hcur. reflexivity. }
    rewrite Hcur, Hd. repeat split; reflexivity.
  - eexists. split; [reflexivity |]. simpl. repeat split; auto.
Qed.

Lemma resetXY_restores_decorated_witness :
  exists n'',
    callResetXY Samples.movedCanvasNode = Ok n''
    /\ x n'' = JNum 10 /\ y n'' = JNum 20
    /\ vectorCoordinates (canvas n'') = vectorCoordinates (canvas Samples.canvasNode).
Proof.
  destruct (resetXY_restores_decorated Samples.canvasNode Samples.movedCanvasNode)
    as (_ & _ & Hreset).
  destruct (Hreset eq_refl eq_refl) as (n'' & Hr & Hx & Hy & Hv & _).
  exists n''. auto.
Defined.

Lemma addPageBreaks_settled_witness :
  exists h2,
    addPageBreaksIfNecessary (Some Samples.recorder) [0%nat; 1%nat] 2
      (snd (fst (addPageBreaksIfNecessary (Some Samples.recorder)
                   [0%nat; 1%nat] 2 Samples.afterFirstTraversal []))) []
    = (false, h2, []).
Proof.
  destruct (addPageBreaksIfNecessary (Some Samples.recorder) [0%nat; 1%nat] 2
              Samples.afterFirstTraversal []) as [[fired h'] ps'] eqn:Hadd.
  assert (Hfired : fired = false).
  { apply (f_equal (fun r => fst (fst r))) in Hadd. vm_compute in Hadd.
    symmetry. exact Hadd. }
  subst fired.
  destruct (addPageBreaks_settled _ _ _ _ _ _ _ Hadd) as [_ Hagain].
  exact (Hagain 2%nat []).
Defined.

Lemma twoNodes_keeps :
  forall h e r h' e',
    tryLayoutDocument h e = Ok (r, h', e') ->
    (forall l, l ∈ linearNodeList r -> l ∈ [0%nat; 1%nat])
    /\ (forall l, evaluated h l = true -> evaluated h' l = true).
Proof.
  intros h e r h' e' [= <- <- _]. split; [auto |].
  intros l Hl. unfold evaluated in *.
  destruct (decide (1%nat = l)) as [<- | H1].
  - rewrite node_insert. exact Hl.
  - rewrite node_insert_ne by auto. destruct (decide (0%nat = l)) as [<- | H0].
    + rewrite node_insert. exact Hl.
    + rewrite node_insert_ne by auto. exact Hl.
Qed.

Lemma layoutDocument_terminates_witness :
  exists res,
    layoutDocument 2 (Some Samples.always) ∅ tt 0%nat = Some res
    /\ forall out, res = Ok out -> (traversals (log out) <= 3)%nat.
Proof.
  exact (layoutDocument_terminates [0%nat; 1%nat] twoNodes_keeps
           Samples.always ∅ tt 0%nat).
Defined.

End PageBreakMore.

(* ===================================================================== *)
(** ** Tables: row spans and the table body *)
(* ===================================================================== *)

Module TablesFacts.
Import RowColumn Tables.

Section WithContext.
Context {N W P : Type} `{Collaborators N W P} `{Decorator W}.

Lemma spanLoop_fails_with_TypeError (n : nat) (widths : list Z)
  (gaps : option (list Z)) :
  forall (i : nat) (width : number) (e : failure),
  spanLoop n widths gaps i width = Err e -> notRowSpanError e.
Proof.
  induction n as [| n IH]; intros i width e He; simpl in He; [discriminate |].
  destruct (widths !! S i); [| injection He as <-; intros c; discriminate].
  destruct gaps; [| injection He as <-; intros c; discriminate].
  eapply IH, He.
Qed.

Lemma rowLoop_spans_fit (body : list (list (column N))) (r : nat)
  (columns : list (column N)) (widths : list Z) (gaps : option (list Z))
  (fuel : nat) :
  (forall col rs, col ∈ columns -> rowSpan col = Some rs -> 1 < rs ->
     (r + Z.to_nat (rs - 1) < length body)%nat) ->
  (forall col w e, processNode col w = Err e -> notRowSpanError e) ->
  forall (i : nat) (w : W) (t : tracker) (ps : list P) (e : failure),
  rowLoop fuel columns widths gaps (Some body) (Some r) i w t ps = Some (Err e) ->
  notRowSpanError e.
Proof.
  intros Hfit Hnode.
  induction fuel as [| fuel IH]; intros i w t ps e He; simpl in He.
  - destruct (columns !! i); discriminate.
  - destruct (columns !! i) as [col |] eqn:Hcol; [| discriminate].
    destruct (widths !! i) as [width0 |];
      [| injection He as <-; intros c; discriminate].
    destruct (spanWidth widths gaps col i width0) as [[i' width] | e'] eqn:Hsw.
    2:{ injection He as <-. unfold spanWidth in Hsw.
        destruct (spans (colSpan col)); [| discriminate].
        eapply spanLoop_fails_with_TypeError, Hsw. }
    destruct (getEndingCell (Some body) (Some r) col i') as [ending | e'] eqn:Hend.
    2:{ exfalso. destruct (spans (rowSpan col)) eqn:Hs.
        - apply RowColumnFacts.spans_gt_1 in Hs as (rs & Hrs & Hgt).
          rewrite (RowColumnFacts.getEndingCell_rowSpan body r col rs i' Hrs Hgt)
            in Hend.
          pose proof (Hfit col rs (list_elem_of_lookup_2 _ _ _ Hcol) Hrs Hgt) as Hlt.
          destruct (lookup_lt_is_Some_2 body _ Hlt) as [row Hrow].
          rewrite Hrow in Hend. discriminate.
        - unfold getEndingCell in Hend. rewrite Hs in Hend. discriminate. }
    destruct (layColumn col _ t ps) as [[[w' t'] ps'] | e'] eqn:Hlay.
    + eapply IH, He.
    + injection He as <-. unfold layColumn in Hlay.
      destruct (_span col); simpl in Hlay.
      * destruct (_columnEndingContext col); discriminate.
      * destruct (processNode col _) as [[[ps0 ev] w0] | e0] eqn:Hp;
          [discriminate |].
        injection Hlay as <-. eapply Hnode, Hp.
Qed.

Lemma tableRows_spans_fit (node : tableNode N P) :
  rowSpansFit node ->
  (forall col w e, processNode col w = Err e -> notRowSpanError e) ->
  forall (rows : list (list (column N))) (i : nat) (w : W) (ps : list P)
         (e : failure),
  (forall k row, rows !! k = Some row -> body node !! (i + k)%nat = Some row) ->
  tableRows node rows i w ps = Some (Err e) -> notRowSpanError e.
Proof.
  intros Hfit Hnode rows.
  induction rows as [| row rows IH]; intros i w ps e Hrows He; simpl in He;
    [discriminate |].
  destruct (processRow row _ _ _ _ _ _) as [[[[w' t] rowPs] | e'] |] eqn:Hrow;
    [| | discriminate].
  - eapply IH; [| exact He].
    intros k row' Hk. replace (S i + k)%nat with (i + S k)%nat by lia.
    apply Hrows. exact Hk.
  - injection He as <-. unfold processRow in Hrow.
    destruct (rowLoop _ _ _ _ _ _ _ _ _ _) as [[[[w0 t0] ps0] | e0] |] eqn:Hloop;
      [discriminate | | discriminate].
    injection Hrow as <-.
    eapply (rowLoop_spans_fit (body node) i row); [| exact Hnode | exact Hloop].
    intros col rs Hcol Hrs Hgt.
    apply (Hfit i row col rs); auto.
    specialize (Hrows 0%nat row eq_refl). rewrite Nat.add_0_r in Hrows. exact Hrows.
Qed.

Lemma layColumn_succeeds (col : column N) (w : W) (t : tracker) (ps : list P) :
  (forall col' w', exists res, processNode col' w' = Ok res) ->
  exists res, layColumn col w t ps = Ok res.
Proof.
  intros Hnode. unfold layColumn. destruct (_span col); simpl.
  - destruct (_columnEndingContext col); eauto.
  - destruct (Hnode col w) as [[[ps0 ev] w0] Hp]. rewrite Hp. simpl. eauto.
Qed.

Lemma rowLoop_outcome (body : list (list (column N))) (r : nat)
  (columns : list (column N)) (widths : list Z) (gaps : option (list Z))
  (fuel : nat) :
  (forall col w, exists res, processNode col w = Ok res) ->
  (forall col, col ∈ columns -> spans (colSpan col) = false) ->
  (length columns <= length widths)%nat ->
  forall (i : nat) (w : W) (t : tracker) (ps : list P),
  (length columns - i <= fuel)%nat ->
  (exists res,
     rowLoop fuel columns widths gaps (Some body) (Some r) i w t ps = Some (Ok res)
     /\ forall j col rs, (i <= j)%nat -> columns !! j = Some col ->
          rowSpan col = Some rs -> 1 < rs ->
          (r + Z.to_nat (rs - 1) < length body)%nat)
  \/ (exists c,
        rowLoop fuel columns widths gaps (Some body) (Some r) i w t ps
        = Some (Err (Thrown (rowSpanMessage c)))).
Proof.
  intros Hnode Hplain Hwidths.
  induction fuel as [| fuel IH]; intros i w t ps Hfuel.
  - left. simpl. rewrite (proj2 (lookup_ge_None columns i)) by lia.
    eexists. split; [reflexivity |].
    intros j col rs Hij Hj. apply lookup_lt_Some in Hj. lia.
  - simpl. destruct (columns !! i) as [col |] eqn:Hcol.
    2:{ left. eexists. split; [reflexivity |].
        intros j col rs Hij Hj. apply lookup_ge_None in Hcol.
        apply lookup_lt_Some in Hj. lia. }
    pose proof (lookup_lt_Some _ _ _ Hcol) as Hi.
    destruct (lookup_lt_is_Some_2 widths i ltac:(lia)) as [width0 Hw0].
    rewrite Hw0. unfold spanWidth.
    rewrite (Hplain col (list_elem_of_lookup_2 _ _ _ Hcol)).
    assert (Hrest : forall w' t' ps',
      (forall rs, rowSpan col = Some rs -> 1 < rs ->
         (r + Z.to_nat (rs - 1) < length body)%nat) ->
      (exists res,
         rowLoop fuel columns widths gaps (Some body) (Some r) (S i) w' t' ps'
         = Some (Ok res)
         /\ forall j col' rs, (i <= j)%nat -> columns !! j = Some col' ->
              rowSpan col' = Some rs -> 1 < rs ->
              (r + Z.to_nat (rs - 1) < length body)%nat)
      \/ (exists c,
            rowLoop fuel columns widths gaps (Some body) (Some r) (S i) w' t' ps'
            = Some (Err (Thrown (rowSpanMessage c))))).
    { intros w' t' ps' Hhere.
      destruct (IH (S i) w' t' ps' ltac:(lia))
        as [(res & Hres & Hall) | Hbad]; [left | right; exact Hbad].
      exists res. split; [exact Hres |].
      intros j col' rs' Hij Hj Hrs' Hgt'.
      destruct (Nat.eq_dec i j) as [<- |].
      - replace col' with col in * by congruence. eapply Hhere; eauto.
      - apply (Hall j col' rs'); auto; lia. }
    destruct (spans (rowSpan col)) eqn:Hs.
    + pose proof Hs as Hs'.
      apply RowColumnFacts.spans_gt_1 in Hs' as (rs & Hrs & Hgt).
      rewrite (RowColumnFacts.getEndingCell_rowSpan body r col rs i Hrs Hgt).
      destruct (body !! (r + Z.to_nat (rs - 1))%nat) as [row |] eqn:Hrow;
        [| right; eauto].
      apply lookup_lt_Some in Hrow.
      match goal with
      | |- context [layColumn col ?wb t ps] =>
        destruct (layColumn_succeeds col wb t ps Hnode) as [[[w' t'] ps'] Hlay]
      end.
      rewrite Hlay. apply Hrest.
      intros rs' Hrs' _. replace rs' with rs by congruence. exact Hrow.
    + unfold getEndingCell. rewrite Hs.
      match goal with
      | |- context [layColumn col ?wb t ps] =>
        destruct (layColumn_succeeds col wb t ps Hnode) as [[[w' t'] ps'] Hlay]
      end.
      rewrite Hlay. apply Hrest.
      intros rs' Hrs' Hgt'.
      assert (spans (rowSpan col) = true)
        by (apply RowColumnFacts.spans_gt_1; eauto). congruence.
Qed.

Lemma tableRows_outcome (node : tableNode N P) :
  (forall col w, exists res, processNode col w = Ok res) ->
  (forall row col, row ∈ body node -> col ∈ row -> spans (colSpan col) = false) ->
  (forall row, row ∈ body node -> (length row <= length (widths node))%nat) ->
  forall (n i : nat) (w : W) (ps : list P),
  (length (body node) - i <= n)%nat ->
  (exists res,
     tableRows node (drop i (body node)) i w ps = Some (Ok res)
     /\ forall r row col rs, (i <= r)%nat -> body node !! r = Some row ->
          col ∈ row -> rowSpan col = Some rs -> 1 < rs ->
          (r + Z.to_nat (rs - 1) < length (body node))%nat)
  \/ (exists c,
        tableRows node (drop i (body node)) i w ps
        = Some (Err (Thrown (rowSpanMessage c)))).
Proof.
  intros Hnode Hplain Hwidths.
  induction n as [| n IH]; intros i w ps Hn.
  - left. rewrite drop_ge by lia. simpl. eexists. split; [reflexivity |].
    intros r row col rs Hir Hr. apply lookup_lt_Some in Hr. lia.
  - destruct (body node !! i) as [row |] eqn:Hrow.
    2:{ left. apply lookup_ge_None in Hrow. rewrite drop_ge by lia. simpl.
        eexists. split; [reflexivity |].
        intros r row col rs Hir Hr. apply lookup_lt_Some in Hr. lia. }
    rewrite (drop_S _ _ _ Hrow). simpl. unfold processRow.
    pose proof (list_elem_of_lookup_2 _ _ _ Hrow) as Hin.
    destruct (rowLoop_outcome (body node) i row (widths node)
                (Some (offsets node)) (length row) Hnode
                (fun col => Hplain row col Hin) (Hwidths row Hin)
                0%nat (beginColumnGroup (beginRow i w)) emptyTracker []
                ltac:(lia))
      as [([[w' t] rowPs] & Hres & Hall) | [c Hbad]].
    + rewrite Hres.
      destruct (IH (S i) (endRow i (breaksOf t)
                            (completeColumnGroup (rowHeight (heights node) i) w'))
                  (ps ++ rowPs) ltac:(lia))
        as [(res & Hres' & Hall') | Hbad]; [left | right; exact Hbad].
      exists res. split; [exact Hres' |].
      intros r row' col rs Hir Hr Hcol Hrs Hgt.
      destruct (Nat.eq_dec i r) as [<- |].
      * replace row' with row in * by congruence.
        apply list_elem_of_lookup_1 in Hcol as [j Hj].
        apply (Hall j col rs); auto. lia.
      * apply (Hall' r row' col rs); auto. lia.
    + right. rewrite Hbad. eauto.
Qed.

(** X16. In a table whose row spans all end within its body,
    [processTable] never raises the row-span error, whatever the widths,
    the column spans and the heights are: every failure it ends with is
    another one, as long as laying out a cell does not raise that error
    itself. *)
Theorem processTable_spans_fit (node : tableNode N P) (w : W) (e : failure) :
  rowSpansFit node ->
  (forall col w' e', processNode col w' = Err e' -> notRowSpanError e') ->
  processTable node w = Some (Err e) ->
  notRowSpanError e.
Proof.
  intros Hfit Hnode He. unfold processTable in He.
  destruct (tableRows node (body node) 0 (beginTable w) (positions node))
    as [[[w' ps] | e'] |] eqn:Hrows; [discriminate | | discriminate].
  injection He as <-.
  eapply (tableRows_spans_fit node Hfit Hnode); [| exact Hrows].
  intros k row Hk. exact Hk.
Qed.

(** X17. Conversely, in a table without column spans whose rows have a
    width each and whose cells lay out, a row span that ends past the last
    row of the body makes [processTable] end with the row-span error. *)
Theorem processTable_span_past_body (node : tableNode N P) (w : W) :
  (forall col w', exists res, processNode col w' = Ok res) ->
  (forall row col, row ∈ body node -> col ∈ row -> spans (colSpan col) = false) ->
  (forall row, row ∈ body node -> (length row <= length (widths node))%nat) ->
  (exists r row col rs,
     body node !! r = Some row /\ col ∈ row /\ rowSpan col = Some rs /\ 1 < rs
     /\ (length (body node) <= r + Z.to_nat (rs - 1))%nat) ->
  exists c, processTable node w = Some (Err (Thrown (rowSpanMessage c))).
Proof.
  intros Hnode Hplain Hwidths (r & row & col & rs & Hr & Hcol & Hrs & Hgt & Hpast).
  unfold processTable.
  destruct (tableRows_outcome node Hnode Hplain Hwidths (length (body node))
              0%nat (beginTable w) (positions node) ltac:(lia))
    as [(res & _ & Hall) | [c Hbad]].
  - specialize (Hall r row col rs ltac:(lia) Hr Hcol Hrs Hgt). lia.
  - rewrite drop_0 in Hbad. rewrite Hbad. eauto.
Qed.

End WithContext.

Lemma processTable_spans_fit_witness :
  processTable (Samples.tableOf Samples.rowSpanTable [10]) []
  = Some (Err (TypeError "widths[i]._calcWidth"))
  /\ notRowSpanError (TypeError "widths[i]._calcWidth").
Proof.
  split; [reflexivity |].
  apply (processTable_spans_fit (Samples.tableOf Samples.rowSpanTable [10]) []).
  - intros r row col rs Hr Hcol Hrs Hgt.
    destruct r as [| [| r]]; simpl in Hr; [| | discriminate];
      injection Hr as <-; simpl;
      repeat (apply elem_of_cons in Hcol as [-> | Hcol]; simpl in Hrs;
              [try discriminate; injection Hrs as <-; lia |]);
      inversion Hcol.
  - intros col w' e' He. discriminate.
  - reflexivity.
Defined.

Lemma processTable_span_past_body_witness :
  exists c,
    processTable (Samples.tableOf [[Samples.cell None (Some 2) []]] [10]) []
    = Some (Err (Thrown (rowSpanMessage c))).
Proof.
  apply (processTable_span_past_body
           (Samples.tableOf [[Samples.cell None (Some 2) []]] [10]) []).
  - intros col w'. eexists. reflexivity.
  - intros row col Hrow Hcol. apply list_elem_of_singleton in Hrow as ->.
    apply list_elem_of_singleton in Hcol as ->. reflexivity.
  - intros row Hrow. apply list_elem_of_singleton in Hrow as ->. simpl. lia.
  - exists 0%nat, [Samples.cell None (Some 2) []], (Samples.cell None (Some 2) []), 2.
    split; [reflexivity |]. split; [apply list_elem_of_here |].
    split; [reflexivity |]. split; [lia | simpl; lia].
Defined.

End TablesFacts.

(* ===================================================================== *)
(** ** Page breaks: nodes that left nothing on a page *)
(* ===================================================================== *)

Module PageBreakUntouched.
Import PageBreak.

Section WithPredicate.
Context {PS Pg E : Type} `{Collaborators Pg E}.

Lemma fold_annotate_outside (k : nat) (nodes : list nat) :
  forall (h : store) (l : nat),
  l ∉ nodes -> fold_left (annotate k) nodes h !! l = h !! l.
Proof.
  induction nodes as [| l0 nodes IH]; intros h l Hl; [reflexivity |].
  simpl. apply not_elem_of_cons in Hl as [Hne Hl].
  rewrite IH by exact Hl. unfold annotate. apply lookup_insert_ne. auto.
Qed.

Lemma scan_outside (fct : predicate PS) (nodes : list nat) (rest : list nat) :
  forall (index : nat) (h : store) (ps : PS) fired h' ps' (l : nat),
  scan fct nodes index rest h ps = (fired, h', ps') ->
  l ∉ rest -> h' !! l = h !! l.
Proof.
  induction rest as [| l0 rest IH]; simpl; intros index h ps fired h' ps' l Hs Hl.
  - injection Hs as _ <- _. reflexivity.
  - apply not_elem_of_cons in Hl as [Hne Hl].
    destruct (negb (isBefore (deref h l0)) && negb (pageBreakCalculated (deref h l0))).
    + match type of Hs with
      | context [fct ps ?i ?f ?n ?p] => destruct (fct ps i f n p) as [[|] ps1]
      end.
      * injection Hs as _ <- _.
        rewrite !lookup_insert_ne by auto. reflexivity.
      * rewrite (IH _ _ _ _ _ _ l Hs Hl). apply lookup_insert_ne. auto.
    + exact (IH _ _ _ _ _ _ l Hs Hl).
Qed.

(** X18. [addPageBreaksIfNecessary] leaves a node without positions as it
    is: such a node gets no summary, is not evaluated and is never marked
    ['before'], whatever the predicate answers. *)
Theorem addPageBreaks_skips_empty_nodes (fct : option (predicate PS))
  (nodes : list nat) (k : nat) (h : store) (ps : PS) (l : nat) :
  positions (deref h l) = [] ->
  snd (fst (addPageBreaksIfNecessary fct nodes k h ps)) !! l = h !! l.
Proof.
  intros Hl. unfold addPageBreaksIfNecessary.
  destruct fct as [fct |]; [| reflexivity].
  assert (Hout : l ∉ withPositions h nodes).
  { unfold withPositions. intros Hin. apply list_elem_of_In in Hin.
    apply List.filter_In in Hin as [_ Hp]. rewrite Hl in Hp. discriminate. }
  destruct (scan fct (withPositions h nodes) 0 (withPositions h nodes)
              (fold_left (annotate k) (withPositions h nodes) h) ps)
    as [[fired h'] ps'] eqn:Hs.
  simpl. rewrite (scan_outside _ _ _ _ _ _ _ _ _ l Hs Hout).
  apply fold_annotate_outside. exact Hout.
Qed.

End WithPredicate.

Lemma addPageBreaks_skips_empty_nodes_witness :
  snd (fst (addPageBreaksIfNecessary (Some Samples.always) [0%nat; 2%nat; 1%nat] 2
              (<[2%nat := Samples.canvasNode]> Samples.afterFirstTraversal) tt))
    !! 2%nat
  = Some Samples.canvasNode.
Proof.
  rewrite (addPageBreaks_skips_empty_nodes (Some Samples.always)
             [0%nat; 2%nat; 1%nat] 2
             (<[2%nat := Samples.canvasNode]> Samples.afterFirstTraversal) tt
             2%nat).
  - apply lookup_insert_eq.
  - unfold deref. rewrite lookup_insert_eq. reflexivity.
Defined.

End PageBreakUntouched.

(* ===================================================================== *)
(** ** Lists: where the markers go *)
(* ===================================================================== *)

Module ListsFacts.
Import Lists.

Section WithWriter.
Context {I L V R W P : Type} `{Collaborators I L V R W P}.

Lemma addMarkerToFirstLeaf_clears (ln : L) (m : option (marker V R)) (w : W) :
  fst (addMarkerToFirstLeaf ln m w) = None.
Proof.
  unfold addMarkerToFirstLeaf. destruct m as [mk |]; [| reflexivity].
  destruct (canvas mk); [reflexivity |]. destruct (_inlines mk); reflexivity.
Qed.

(** With no marker pending the listener changes nothing. *)
Lemma runItem_no_marker (s : script L W P) :
  forall (w : W) (drawn : nat),
  runItem s None w drawn
  = '(ps, w') ← plain s w; Ok (ps, None, w', drawn).
Proof.
  induction s as [f | f next IH]; intros w drawn; simpl.
  - destruct (f w) as [[ps w'] | e]; reflexivity.
  - destruct (f w) as [ln w1]. apply IH.
Qed.

(** X19. The listener writes the marker of an item once, at the first
    line the item's layout adds: from the state it leaves there, the rest
    of the item is laid out as it would be with no listener, and no marker
    is pending at its end. *)
Theorem runItem_marker_at_first_line (f : W -> L * W)
  (next : W -> script L W P) (mk : marker V R) (w : W) (drawn : nat) :
  runItem (Emit f next) (Some mk) w drawn
  = let w2 := snd (addMarkerToFirstLeaf (fst (f w)) (Some mk) (snd (f w))) in
    '(ps, w') ← plain (next w2) w2;
    Ok (ps, None, w', if draws (Some mk) then S drawn else drawn).
Proof.
  cbn [runItem]. destruct (f w) as [ln w1]. cbn [fst snd].
  pose proof (addMarkerToFirstLeaf_clears ln (Some mk) w1) as Hclear.
  destruct (addMarkerToFirstLeaf ln (Some mk) w1) as [m' w2].
  cbn [fst snd] in *. subst m'. apply runItem_no_marker.
Qed.

Lemma runItem_drawn (s : script L W P) (m : option (marker V R)) (w : W)
  (drawn : nat) ps m' w' drawn' :
  runItem s m w drawn = Ok (ps, m', w', drawn') ->
  drawn' = (drawn + if draws m && addsLine s then 1 else 0)%nat.
Proof.
  destruct s as [f | f next]; cbn [runItem addsLine].
  - rewrite andb_false_r. destruct (f w) as [[ps0 w0] | e]; simpl; [| discriminate].
    intros [= _ _ _ <-]. lia.
  - rewrite andb_true_r. destruct (f w) as [ln w1].
    pose proof (addMarkerToFirstLeaf_clears ln m w1) as Hclear.
    destruct (addMarkerToFirstLeaf ln m w1) as [m1 w2]. cbn [fst] in Hclear.
    subst m1. rewrite runItem_no_marker.
    destruct (plain (next w2) w2) as [[ps0 w0] | e]; simpl; [| discriminate].
    intros [= _ _ _ <-]. destruct (draws m); lia.
Qed.

Lemma listItems_drawn (items : list I) :
  forall (w : W) (ps : list P) (drawn : nat) w' ps' drawn',
  listItems items w ps drawn = Ok (w', ps', drawn') ->
  drawn' = (drawn + length (List.filter
                              (fun item => draws (listMarker item)
                                           && addsLine (layout item)) items))%nat.
Proof.
  induction items as [| item items IH]; intros w ps drawn w' ps' drawn' Hl.
  - injection Hl as _ _ <-. simpl. lia.
  - cbn [listItems] in Hl.
    destruct (runItem (layout item) (listMarker item) w drawn)
      as [[[[ps0 m0] w0] d0] | e] eqn:Hitem; simpl in Hl; [| discriminate].
    apply runItem_drawn in Hitem. apply IH in Hl. subst d0.
    cbn [List.filter].
    destruct (draws (listMarker item) && addsLine (layout item)); simpl; lia.
Qed.


End WithWriter.


End ListsFacts.

(* ===================================================================== *)
(** ** addWatermark: the pages and the caller's object *)
(* ===================================================================== *)

Module WatermarkPagesFacts.
Import Watermark WatermarkProbes WatermarkPages.

Lemma orString_filled (v : option string) (d : string) :
  d <> EmptyString -> orString v d <> EmptyString.
Proof. intros Hd. destruct v as [[| ch s] |]; simpl; auto; discriminate. Qed.

Lemma orString_of_filled (s d : string) :
  s <> EmptyString -> orString (Some s) d = s.
Proof. destruct s; [contradiction | reflexivity]. Qed.

Lemma orNumber_not_zero (v : option Q) (d : Q) :
  Qeq_bool d 0 = false -> Qeq_bool (orNumber v d) 0 = false.
Proof.
  intros Hd. unfold orNumber. destruct v as [q |]; [| exact Hd].
  destruct (Qeq_bool q 0) eqn:Hq; auto.
Qed.

Lemma orNumber_of_not_zero (q d : Q) :
  Qeq_bool q 0 = false -> orNumber (Some q) d = q.
Proof. intros Hq. unfold orNumber. rewrite Hq. reflexivity. Qed.

Section WithDocument.
Context {F C : Type} `{Document F}.

Lemma fontOf_filled (o : options) (defaultFont : option string) :
  fontOf o defaultFont <> EmptyString.
Proof.
  unfold fontOf. apply orString_filled, orString_filled. discriminate.
Qed.

(** Writing the defaults a second time changes nothing. *)
Lemma withDefaults_again (o : options) (defaultFont : option string) :
  withDefaults (withDefaults o defaultFont) defaultFont = withDefaults o defaultFont.
Proof.
  unfold withDefaults at 1. unfold fontOf at 1. cbn [text font color opacity bold italics withDefaults].
  rewrite (orString_of_filled (fontOf o defaultFont)) by apply fontOf_filled.
  rewrite (orString_of_filled (orString (color o) "black"))
    by (apply orString_filled; discriminate).
  rewrite (orNumber_of_not_zero (orNumber (opacity o) (6 # 10)))
    by (apply orNumber_not_zero; reflexivity).
  reflexivity.
Qed.

Lemma metricsFor_again (o : options) (defaultFont : option string) :
  metricsFor (withDefaults o defaultFont) defaultFont = metricsFor o defaultFont.
Proof.
  unfold metricsFor. unfold fontOf at 1. cbn [text font bold italics withDefaults].
  rewrite (orString_of_filled (fontOf o defaultFont)) by apply fontOf_filled.
  reflexivity.
Qed.

(** X21. With a text that is not empty, [addWatermark] does not return
    when the first font size [getSize] measures has exactly the target
    width: no number of turns ends the search, so no page gets a
    watermark. With an empty or absent text it returns at once and leaves
    the pages and the watermark as they are, without measuring. *)
Theorem addWatermark_exact_width (fuel : nat) (input : watermarkInput)
  (defaultFont : option string) (pageWidth pageHeight : Q)
  (pages : list (page F C)) :
  (orString (text (asObject input)) EmptyString <> EmptyString ->
   (@widthAt (metricsFor (asObject input) defaultFont)
      (c (@start))
    == @targetWidthOf (metricsFor (asObject input) defaultFont)
         pageWidth pageHeight)%Q ->
   addWatermark fuel input defaultFont pageWidth pageHeight pages = None)
  /\ (orString (text (asObject input)) EmptyString = EmptyString ->
      addWatermark fuel input defaultFont pageWidth pageHeight pages
      = Some (asObject input, pages)).
Proof.
  unfold addWatermark. cbv zeta. split.
  - intros Htext Hexact.
    destruct (orString (text (asObject input)) EmptyString) as [| ch txt];
      [contradiction |].
    unfold getSize. cbv zeta.
    rewrite (@WatermarkFacts.searchLoop_stuck
               (metricsFor (asObject input) defaultFont) _ fuel);
      [reflexivity | reflexivity | exact Hexact].
  - intros ->. reflexivity.
Qed.

(** X22. With a text that is not empty and a search that hits the target
    width at no font size it measures, [addWatermark] returns after ten
    turns; every page then holds the same watermark, with the given text,
    a colour that is not empty and an opacity that is not 0, an opacity
    given as 0 having become 0.6. The defaults it has written to the
    caller's object do not change what a later call with that object
    does. *)
Theorem addWatermark_stamps_pages (input : watermarkInput)
  (defaultFont : option string) (pageWidth pageHeight : Q)
  (pages : list (page F C)) :
  orString (text (asObject input)) EmptyString <> EmptyString ->
  @offTarget (metricsFor (asObject input) defaultFont) 10
    (@targetWidthOf (metricsFor (asObject input) defaultFont)
       pageWidth pageHeight) (@start) ->
  exists wm,
    addWatermark 10 input defaultFont pageWidth pageHeight pages
    = Some (withDefaults (asObject input) defaultFont, stamp wm pages)
    /\ wText wm = orString (text (asObject input)) EmptyString
    /\ wColor wm <> EmptyString
    /\ ~ (wOpacity wm == 0)%Q
    /\ (forall q, opacity (asObject input) = Some q -> (q == 0)%Q ->
          wOpacity wm = (6 # 10)%Q)
    /\ addWatermark 10
         (WatermarkObject (withDefaults (asObject input) defaultFont))
         defaultFont pageWidth pageHeight pages
       = Some (withDefaults (asObject input) defaultFont, stamp wm pages).
Proof.
  intros Htext Hoff.
  destruct (@WatermarkProbesFacts.start_interval) as (Hab & Hc & Hle & _ & _).
  destruct (@WatermarkProbesFacts.searchLoop_interval
              (metricsFor (asObject input) defaultFont) _ 10 start Hoff Hab Hc Hle)
    as (s' & Hs' & _).
  assert (Hsize : @getSize (metricsFor (asObject input) defaultFont) 10
                    pageWidth pageHeight = Some (measured s', c s')).
  { unfold getSize. cbv zeta. fold start. rewrite Hs'. reflexivity. }
  set (o := asObject input) in *.
  exists {| wText := orString (text o) EmptyString;
            wFont := provideFont (fontOf o defaultFont)
                       (orFalse (bold o)) (orFalse (italics o));
            wSize := (measured s', c s');
            wColor := orString (color o) "black";
            wOpacity := orNumber (opacity o) (6 # 10) |}.
  cbn [wText wColor wOpacity].
  split; [| split; [reflexivity |]; split; [| split; [| split]]].
  - unfold addWatermark. cbv zeta. fold o.
    destruct (orString (text o) EmptyString) as [| ch txt] eqn:Ht;
      [contradiction |].
    rewrite Hsize. reflexivity.
  - apply orString_filled. discriminate.
  - intros Hz. apply Qeq_bool_iff in Hz.
    rewrite orNumber_not_zero in Hz by reflexivity. discriminate.
  - intros q Hq Hz. unfold orNumber. rewrite Hq.
    apply Qeq_bool_iff in Hz. rewrite Hz. reflexivity.
  - unfold addWatermark. cbv zeta. cbn [asObject].
    rewrite metricsFor_again, withDefaults_again.
    change (text (withDefaults o defaultFont)) with (text o).
    destruct (orString (text o) EmptyString) as [| ch txt] eqn:Ht;
      [contradiction |].
    rewrite Hsize.
    unfold fontOf at 1. cbn [font color opacity bold italics withDefaults].
    rewrite (orString_of_filled (fontOf o defaultFont)) by apply fontOf_filled.
    rewrite (orString_of_filled (orString (color o) "black"))
      by (apply orString_filled; discriminate).
    rewrite (orNumber_of_not_zero (orNumber (opacity o) (6 # 10)))
      by (apply orNumber_not_zero; reflexivity).
    reflexivity.
Qed.

End WithDocument.

Lemma addWatermark_exact_width_witness :
  @addWatermark _ nat (Samples.documentWith Samples.linearMetrics) 7
    (WatermarkString "DRAFT") None 300 400 Samples.twoPages = None
  /\ @addWatermark _ nat (Samples.documentWith Samples.linearMetrics) 0
       (WatermarkString EmptyString) None 300 400 Samples.twoPages
     = Some (asObject (WatermarkString EmptyString), Samples.twoPages).
Proof.
  split.
  - apply (@addWatermark_exact_width _ nat
             (Samples.documentWith Samples.linearMetrics) 7
             (WatermarkString "DRAFT") None 300 400 Samples.twoPages).
    + discriminate.
    + reflexivity.
  - apply (@addWatermark_exact_width _ nat
             (Samples.documentWith Samples.linearMetrics) 0
             (WatermarkString EmptyString) None 300 400 Samples.twoPages).
    reflexivity.
Defined.

Lemma addWatermark_stamps_pages_witness :
  exists wm,
    @addWatermark _ nat (Samples.documentWith Samples.offsetMetrics) 10
      (WatermarkObject Samples.transparent) None 300 400 Samples.twoPages
    = Some (@withDefaults Samples.transparent None, stamp wm Samples.twoPages)
    /\ wText wm = "DRAFT"%string /\ wOpacity wm = (6 # 10)%Q.
Proof.
  destruct (@addWatermark_stamps_pages _ nat
              (Samples.documentWith Samples.offsetMetrics)
              (WatermarkObject Samples.transparent) None 300 400 Samples.twoPages)
    as (wm & Hrun & Htext & _ & _ & Hzero & _).
  - discriminate.
  - exact WatermarkProbesFacts.offsetMetrics_offTarget.
  - exists wm. split; [exact Hrun |]. split; [exact Htext |].
    apply (Hzero 0%Q); reflexivity.
Defined.

End WatermarkPagesFacts.

(* ===================================================================== *)
(** ** processNode: the detached blocks it opens and closes *)
(* ===================================================================== *)

Module DispatcherBlocks.
Import Dispatcher.

Section WithDepth.
Context {W : Type} `{Collaborators W}.

(** A count of the detached blocks that are open in a writer state: the
    two calls that open and close one move it, nothing else does, and a
    [process*] method that succeeds closes what it opens. *)
Variable depth : W -> Z.
Hypothesis depth_begin : forall w, depth (beginDetachedBlock w) = depth w + 1.
Hypothesis depth_end : forall w, depth (endDetachedBlock w) = depth w - 1.
Hypothesis depth_beginUnbreakable :
  forall w, depth (beginUnbreakableBlock w) = depth w.
Hypothesis depth_commitUnbreakable :
  forall w, depth (commitUnbreakableBlock w) = depth w.
Hypothesis depth_moveToAbsolute :
  forall x y w, depth (moveToAbsolute x y w) = depth w.
Hypothesis depth_moveToRelative :
  forall x y w, depth (moveToRelative x y w) = depth w.
Hypothesis depth_moveToNextPage :
  forall o w, depth (moveToNextPage o w) = depth w.
Hypothesis depth_moveDown : forall d w, depth (moveDown d w) = depth w.
Hypothesis depth_addMargin :
  forall back l r w, depth (addMargin back l r w) = depth w.
Hypothesis depth_push : forall n w, depth (pushAndDecorate n w) = depth w.
Hypothesis depth_handler :
  forall k n w w', handler k n w = Ok w' -> depth w' = depth w.

Lemma depth_when (c : bool) (f : W -> W) (w : W) :
  (forall w0, depth (f w0) = depth w0) -> depth (when c f w) = depth w.
Proof. intros Hf. unfold when. destruct c; auto. Qed.


End WithDepth.

Lemma openDetached_call (w : list string) (c : string) :
  Samples.openDetached (w ++ [c])
  = if String.eqb c "beginDetachedBlock" then Samples.openDetached w + 1
    else if String.eqb c "endDetachedBlock" then Samples.openDetached w - 1
    else Samples.openDetached w.
Proof. unfold Samples.openDetached. rewrite fold_left_app. reflexivity. Qed.


End DispatcherBlocks.

(* ===================================================================== *)
(** ** Headers and footers: one call per page *)
(* ===================================================================== *)

Module RepeatablesFacts.
Import Repeatables.

Section WithWriter.
Context {Nd W GS : Type} `{Collaborators Nd W}.

Lemma repeatLoop_calls (nodeGetter : getter Nd GS)
  (sizeFunction : pageSize -> pageMargins -> sizes) (margins : pageMargins)
  (l : nat) (n : nat) :
  forall (pageIndex : nat) (w : W) (gs : GS) (calls : list (nat * nat)) w' gs' calls',
  repeatLoop n pageIndex l nodeGetter sizeFunction margins w gs calls
  = Ok (w', gs', calls') ->
  calls' = calls ++ map (fun pageNumber => (pageNumber, l)) (seq (S pageIndex) n).
Proof.
  induction n as [| n IH]; intros pageIndex w gs calls w' gs' calls' Hl;
    cbn [repeatLoop] in Hl.
  - injection Hl as _ _ <-. simpl. rewrite app_nil_r. reflexivity.
  - destruct (nodeGetter gs (pageIndex + 1)%nat l _) as [[nd |] gs1].
    + destruct (layoutNode nd _) as [w2 | e]; simpl in Hl; [| discriminate].
      apply IH in Hl. rewrite Hl, <- app_assoc. simpl.
      replace (pageIndex + 1)%nat with (S pageIndex) by lia. reflexivity.
    + apply IH in Hl. rewrite Hl, <- app_assoc. simpl.
      replace (pageIndex + 1)%nat with (S pageIndex) by lia. reflexivity.
Qed.

Lemma addRepeatable_calls (r : repeatable Nd GS)
  (sizeFunction : pageSize -> pageMargins -> sizes) (margins : pageMargins)
  (w : W) (gs : GS) w' gs' calls :
  addRepeatable r sizeFunction margins w gs = Ok (w', gs', calls) ->
  calls = match r with Absent => [] | _ => onePerPage (pagesLength w) end.
Proof.
  destruct r as [| node | f]; simpl.
  - intros [= _ _ <-]. reflexivity.
  - unfold addStaticRepeatable, addDynamicRepeatable. intros Hl.
    apply repeatLoop_calls in Hl. exact Hl.
  - unfold addDynamicRepeatable. intros Hl.
    apply repeatLoop_calls in Hl. exact Hl.
Qed.



End WithWriter.



End RepeatablesFacts.
